(** * safeinterp: adaptive one-dimensional interpolation and extrapolation

    A shallow embedding of [src/safeinterp/core.py] and the properties its
    specification states about it.

    Numbers.  The program computes on numpy [float64] arrays.  Finite
    floats are modelled by real numbers ([R]); rounding, overflow and the
    propagation of [nan]/[inf] through arithmetic are therefore outside
    the model.  Raw inputs, on which the program tests [np.isfinite], are
    of type [float64] below, which adds the three non-finite values.

    What a theorem below says of a computed value is thus said in exact
    arithmetic.  Three places where the program's binary64 arithmetic
    departs from it are kept in view: the rescaling [y0 + (y1 - y0) * r],
    whose sum is rounded (the module [binary64] repeats it on IEEE
    numbers); [np.expm1], which overflows to [inf] for arguments above
    about 709.78; and [0 ** k] for a negative [k], which is [inf].  Query
    arrays hold finite numbers: a [nan] query belongs to none of the
    three masks of a call and is not modelled.

    Exceptions.  A Python function that may raise returns a [result]; the
    exception classes are kept, the messages are not.

    Arrays are one-dimensional and modelled by lists. *)

From Stdlib Require PrimFloat.
From Stdlib Require Import String Reals Lra Lia Bool ZArith.
From Stdlib Require Import List Permutation Sorted.
Import ListNotations.

Open Scope string_scope.
Open Scope R_scope.

(** ** Exceptions *)

Inductive exn : Type := ValueError | TypeError | IndexError.

Inductive result (A : Type) : Type :=
| Ok (a : A)
| Raise (e : exn).

Arguments Ok {A} a.
Arguments Raise {A} e.

Definition bind {A B : Type} (m : result A) (f : A -> result B) : result B :=
  match m with
  | Ok a => f a
  | Raise e => Raise e
  end.

Notation "x <- m ;; k" := (bind m (fun x => k))
  (at level 61, m at next level, right associativity).
Notation "' p <- m ;; k" := (bind m (fun x => let 'p := x in k))
  (at level 61, p pattern, m at next level, right associativity).

Definition is_ok {A : Type} (m : result A) : bool :=
  match m with Ok _ => true | Raise _ => false end.

(** ** Numbers *)

Definition Rltb (a b : R) : bool := if Rlt_dec a b then true else false.
Definition Rleb (a b : R) : bool := if Rle_dec a b then true else false.
Definition Reqb (a b : R) : bool := if Req_dec_T a b then true else false.

Infix "<?" := Rltb (at level 70) : R_scope.
Infix "<=?" := Rleb (at level 70) : R_scope.
Infix "=?" := Reqb (at level 70) : R_scope.

(** A raw input number: a finite float, or one of [inf], [-inf], [nan]. *)
Inductive float64 : Type :=
| Finite (r : R)
| PInf
| NInf
| NaN.

Definition isfinite (v : float64) : bool :=
  match v with Finite _ => true | _ => false end.

(** The real number a finite float stands for. *)
Definition to_R (v : float64) : R :=
  match v with Finite r => r | _ => 0 end.

(** ** The numpy operations the program uses *)

Module np.

(** [np.diff a]: consecutive differences. *)
Fixpoint diff (a : list R) : list R :=
  match a with
  | a0 :: ((a1 :: _) as tl) => (a1 - a0) :: diff tl
  | _ => []
  end.

(** [a[idx]] for an integer index array [idx] whose entries are in range. *)
Definition take (a : list R) (idx : list nat) : list R :=
  map (fun i => nth i a 0) idx.

(** [a[mask]] for a boolean mask of the length of [a]. *)
Fixpoint compress {A : Type} (mask : list bool) (a : list A) : list A :=
  match mask, a with
  | m :: mask', v :: a' =>
      if m then v :: compress mask' a' else compress mask' a'
  | _, _ => []
  end.

(** [a[mask] = vals]: the selected positions of [a] are overwritten, in
    order, by the elements of [vals].  The program only assigns as many
    values as the mask selects. *)
Fixpoint place {A : Type} (mask : list bool) (vals : list A) (a : list A)
  : list A :=
  match mask, a with
  | true :: mask', a0 :: a' =>
      match vals with
      | v :: vals' => v :: place mask' vals' a'
      | [] => a0 :: a'
      end
  | false :: mask', a0 :: a' => a0 :: place mask' vals a'
  | _, _ => a
  end.

(** [np.clip(v, lo, hi)] is [minimum(maximum(v, lo), hi)]. *)
Definition clip (v lo hi : R) : R := Rmin (Rmax v lo) hi.

Definition clipZ (i lo hi : Z) : Z := Z.min (Z.max i lo) hi.

(** [np.searchsorted(a, v, side="right")] on an ascending array [a]: the
    number of elements that are [<= v]. *)
Fixpoint searchsorted_right (a : list R) (v : R) : nat :=
  match a with
  | [] => 0
  | a0 :: a' => if a0 <=? v then S (searchsorted_right a' v) else 0
  end.

(** [np.linspace(start, stop, num)]; a negative [num] is refused. *)
Definition linspace (start stop : R) (num : Z) : result (list R) :=
  if (num <? 0)%Z then Raise ValueError
  else if (num =? 1)%Z then Ok [start]
  else
    let step := (stop - start) / IZR (num - 1) in
    Ok (map (fun i => start + INR i * step) (seq 0 (Z.to_nat num))).

(** [math.expm1] and numpy's [expm1], without overflow: on binary64
    numbers the result is [inf] for an argument above about [709.78]. *)
Definition expm1 (v : R) : R := exp v - 1.

(** [base ** e] on floats.  For a positive base it is [Rpower]; a zero
    base gives [0] for a positive exponent and [1] for exponent [0].  The
    two remaining cases have no real value in numpy ([inf] for [0] to a
    negative exponent, [nan] or a signed value for a negative base): the
    model returns [0] there.  The program only raises clipped coordinates
    of the unit interval to a power, so the base is never negative; what
    is proved below of the value of a ["power"] shape assumes a parameter
    that is not negative. *)
Definition power (base e : R) : R :=
  if e =? 0 then 1
  else if 0 <? base then Rpower base e
  else 0.

(** Element-wise binary operations on arrays of one length. *)
Fixpoint map2 {A B C : Type} (f : A -> B -> C) (a : list A) (b : list B)
  : list C :=
  match a, b with
  | a0 :: a', b0 :: b' => f a0 b0 :: map2 f a' b'
  | _, _ => []
  end.

(** [np.full_like(a, v)]. *)
Definition full_like {A : Type} (a : list A) (v : R) : list R :=
  map (fun _ => v) a.

(** Python indexing [a[i]] with a possibly negative index. *)
Definition getitem {A : Type} (a : list A) (i : Z) : result A :=
  let n := Z.of_nat (length a) in
  let j := if (i <? 0)%Z then (i + n)%Z else i in
  if (j <? 0)%Z then Raise IndexError
  else match nth_error a (Z.to_nat j) with
       | Some v => Ok v
       | None => Raise IndexError
       end.

End np.

(** [np.argsort]: the library's sort is taken through its contract, an
    index permutation that puts the array in ascending order. *)
Class Argsort : Type := argsort : list R -> list nat.

Definition argsort_spec (A : Argsort) : Prop :=
  forall a : list R,
    Permutation (argsort a) (seq 0 (length a)) /\
    StronglySorted Rle (np.take a (argsort a)).

(** An executable instance: insertion sort on the indices, by key. *)
Fixpoint insert_index (a : list R) (i : nat) (idx : list nat) : list nat :=
  match idx with
  | [] => [i]
  | j :: idx' =>
      if nth i a 0 <? nth j a 0 then i :: j :: idx'
      else j :: insert_index a i idx'
  end.

Definition insertion_argsort : Argsort :=
  fun a => fold_left (fun idx i => insert_index a i idx) (seq 0 (length a)) [].

(** ** Preprocessing *)

Section Preprocessor.

Context {A : Argsort}.

Definition _ensure_sorted_xy (x y : list float64)
  : result (list R * list R) :=
  (* 1) lengths *)
  if negb (length x =? length y)%nat then Raise ValueError
  (* 2) NaN / Inf *)
  else if negb (forallb isfinite x) || negb (forallb isfinite y)
  then Raise ValueError
  else
    let x := map to_R x in
    let y := map to_R y in
    (* 3) sort when x is not ascending *)
    let '(x, y) :=
      if existsb (fun d => d <? 0) (np.diff x)
      then let idx := argsort x in (np.take x idx, np.take y idx)
      else (x, y) in
    (* 4) drop the points too close to their predecessor *)
    let valid_mask := true :: map (fun d => 1e-12 <? d) (np.diff x) in
    if negb (forallb (fun b => b) valid_mask)
    then Ok (np.compress valid_mask x, np.compress valid_mask y)
    else Ok (x, y).

End Preprocessor.

(** ** The interpolator *)

(** One entry of a [segments] list: [{"mode": m, "k": v}], the ["k"] key
    being optional. *)
Record segment : Type := { seg_mode : string; seg_k : option R }.

(** A [segments] list object: its identity [id(segments)] and its items. *)
Record seglist : Type := { seg_id : nat; seg_items : list segment }.

(** The shape parameter: a Python scalar or an array. *)
Inductive kparam : Type :=
| Scalar (k : R)
| Array (k : list R).

(** The instance attributes of [CurveInterpolator]. *)
Record CurveInterpolator : Type := {
  self_x : list R;
  self_y : list R;
  self_n : nat;
  self_auto_segments_cache : option seglist;
  self_seg_modes_cached : option (list string);
  self_seg_ks_cached : option (list R);
  self_seg_cache_id : option nat;
  self_slopes : list R;
  self_monotonic_dir : Z
}.

(** Which side of the sampled domain an extrapolated query lies on. *)
Inductive side : Type := left | right.

(** [np.broadcast_to(k, t.shape)] for a one-dimensional [t] of length [n]. *)
Definition broadcast_to (k : kparam) (n : nat) : result (list R) :=
  match k with
  | Scalar v => Ok (repeat v n)
  | Array l =>
      if (length l =? n)%nat then Ok l
      else if (length l =? 1)%nat then Ok (repeat (hd 0 l) n)
      else Raise ValueError
  end.

(** The two operands of [t ** k] after numpy's broadcasting. *)
Definition broadcast_arrays (t : list R) (k : kparam)
  : result (list R * list R) :=
  match k with
  | Scalar v => Ok (t, repeat v (length t))
  | Array l =>
      if (length l =? length t)%nat then Ok (t, l)
      else if (length l =? 1)%nat then Ok (t, repeat (hd 0 l) (length t))
      else if (length t =? 1)%nat then Ok (repeat (hd 0 t) (length l), l)
      else Raise ValueError
  end.

(** [mapM] for [result]: the first failure wins. *)
Fixpoint mapM {A B : Type} (f : A -> result B) (l : list A)
  : result (list B) :=
  match l with
  | [] => Ok []
  | a :: l' => b <- f a ;; bs <- mapM f l' ;; Ok (b :: bs)
  end.

(** [a[idx]] for an integer index array; any index out of range raises. *)
Definition fancy {A : Type} (a : list A) (idx : list Z) : result (list A) :=
  mapM (np.getitem a) idx.

(** *** 0. Target slopes *)

Definition _estimate_slopes (x y : list R) : result (list R) :=
  let n := length x in
  if (n =? 2)%nat then
    let dx := nth 1 x 0 - nth 0 x 0 in
    let s := (nth 1 y 0 - nth 0 y 0) / (if 1e-12 <? Rabs dx then dx else 1) in
    Ok (np.full_like y s)
  else
    let dx := np.diff x in
    let dy := np.diff y in
    (* interior points: central differences *)
    let interior :=
      np.map2 Rdiv
        (np.map2 Rminus (skipn 2 y) (firstn (length y - 2) y))
        (np.map2 Rminus (skipn 2 x) (firstn (length x - 2) x)) in
    (* both ends: forward / backward differences *)
    dy0 <- np.getitem dy 0 ;;
    dx0 <- np.getitem dx 0 ;;
    let s0 := dy0 / (if 1e-12 <? Rabs dx0 then dx0 else 1) in
    dyl <- np.getitem dy (-1) ;;
    dxl <- np.getitem dx (-1) ;;
    let sl := dyl / (if 1e-12 <? Rabs dxl then dxl else 1) in
    Ok (s0 :: interior ++ [sl]).

(** *** 1. Shape functions *)

(** One element of the ["exp"] branch. *)
Definition exp_ratio (t k : R) : R :=
  if Rabs k <? 1e-9 then t
  else
    let denom := np.expm1 k in
    let denom := if Rabs denom <? 1e-12 then 1e-12 else denom in
    np.expm1 (k * t) / denom.

(** One element of the ["logistic"] branch. *)
Definition logistic_ratio (t s : R) : R :=
  let v0 := 1 / (1 + exp (0.5 * s)) in
  let v1 := 1 / (1 + exp (- 0.5 * s)) in
  let denom := v1 - v0 in
  if Rabs denom <? 1e-12 then t
  else
    let yv := 1 / (1 + exp (- s * (t - 0.5))) in
    (yv - v0) / denom.

Definition _curve_ratio (t : list R) (mode : string) (k : kparam)
  : result (list R) :=
  if String.eqb mode "linear" then Ok t
  else if String.eqb mode "power" then
    '(t, k) <- broadcast_arrays t k ;; Ok (np.map2 np.power t k)
  else if String.eqb mode "exp" then
    k_arr <- broadcast_to k (length t) ;; Ok (np.map2 exp_ratio t k_arr)
  else if String.eqb mode "logistic" then
    s_arr <- broadcast_to k (length t) ;; Ok (np.map2 logistic_ratio t s_arr)
  else if String.eqb mode "cos" then
    Ok (map (fun t => 0.5 - 0.5 * cos (PI * t)) t)
  else if String.eqb mode "sin" then
    Ok (map (fun t => sin (PI * t / 2)) t)
  else if String.eqb mode "poly2" then
    Ok (map (fun t => t * (2 - t)) t)
  else if String.eqb mode "poly3" then
    Ok (map (fun t => t ^ 2 * (3 - 2 * t)) t)
  else Raise ValueError.

(** *** 2. Cost of one segment *)

Definition _segment_cost (self : CurveInterpolator) (mode : string) (k : R)
  (y0 y1 span s_left s_right : R) : result R :=
  if span <? 1e-12 then Ok 1e9
  else
    let dy := y1 - y0 in
    let t_eps := 1e-3 in
    let dy_dx_at (t0 : R) : result R :=
      let t1 := np.clip (t0 + t_eps) 0 1 in
      let t2 := np.clip (t0 - t_eps) 0 1 in
      r1 <- (r <- _curve_ratio [t1] mode (Scalar k) ;; np.getitem r 0) ;;
      r2 <- (r <- _curve_ratio [t2] mode (Scalar k) ;; np.getitem r 0) ;;
      let dr_dt := (r1 - r2) / (t1 - t2 + 1e-12) in
      Ok (dy / span * dr_dt) in
    dy0 <- dy_dx_at 0 ;;
    dy1 <- dy_dx_at 1 ;;
    let cost := 0 in
    (* 1: closeness to the target slopes *)
    let cost := cost + (dy0 - s_left) ^ 2 in
    let cost := cost + (dy1 - s_right) ^ 2 in
    (* 2: smoothness inside the segment *)
    let cost := cost + 0.1 * (dy1 - dy0) ^ 2 in
    (* 3: dramatic shapes on small changes *)
    let change_ratio := Rabs dy / (Rabs y0 + 1e-9) in
    let cost :=
      if (String.eqb mode "exp" || String.eqb mode "logistic")
         && (change_ratio <? 0.2)
      then cost * 1.5 else cost in
    (* 4: monotonicity *)
    let cost :=
      if negb (self_monotonic_dir self =? 0)%Z then
        if (self_monotonic_dir self >? 0)%Z then
          if (dy0 <? - 1e-9) || (dy1 <? - 1e-9) then cost + 1e6 else cost
        else
          if (1e-9 <? dy0) || (1e-9 <? dy1) then cost + 1e6 else cost
      else cost in
    Ok cost.

(** *** 3. Best (mode, k) of one segment *)

Definition candidates : list (string * list R) :=
  [ ("linear",   [1]);
    ("power",    [0.5; 0.8; 1; 1.2; 1.5; 2]);
    ("exp",      [0.5; 1; 1.5; 2]);
    ("logistic", [2; 4; 6]);
    ("poly3",    [1]) ].

(** The pairs visited by the two nested loops, in visiting order. *)
Definition candidate_pairs : list (string * R) :=
  flat_map (fun mk => map (fun k => (fst mk, k)) (snd mk)) candidates.

(** The running minimum of the search: [best_mode], [best_k] and
    [best_cost], where [None] is the initial [float("inf")]. *)
Definition best_state : Type := (string * R * option R)%type.

Definition improves (c : R) (best_cost : option R) : bool :=
  match best_cost with
  | None => true
  | Some b => c <? b
  end.

(** The candidate loop over a cost oracle.  Next to the minimum it returns
    the pairs the oracle was called on, in call order. *)
Fixpoint search (cost : string -> R -> result R) (cands : list (string * R))
  (best : best_state) (calls : list (string * R))
  : result (best_state * list (string * R)) :=
  match cands with
  | [] => Ok (best, calls)
  | (mode, k) :: cands' =>
      c <- cost mode k ;;
      let best := if improves c (snd best) then (mode, k, Some c) else best in
      search cost cands' best (calls ++ [(mode, k)])
  end.

(** [_choose_best_segment] together with the list of the (mode, k) pairs on
    which [_segment_cost] was evaluated. *)
Definition _choose_best_segment_calls (self : CurveInterpolator) (i : nat)
  (y0 y1 span : R) : result ((string * R) * list (string * R)) :=
  s_left <- np.getitem (self_slopes self) (Z.of_nat i) ;;
  s_right <- np.getitem (self_slopes self) (Z.of_nat i + 1) ;;
  let dy := y1 - y0 in
  let change_ratio := Rabs dy / (Rabs y0 + 1e-9) in
  if change_ratio <? 0.05 then Ok (("linear", 1), [])
  else
    '(best, calls) <-
      search (fun mode k => _segment_cost self mode k y0 y1 span s_left s_right)
        candidate_pairs ("linear", 1, None) [] ;;
    Ok (fst best, calls).

Definition _choose_best_segment (self : CurveInterpolator) (i : nat)
  (y0 y1 span : R) : result (string * R) :=
  r <- _choose_best_segment_calls self i y0 y1 span ;; Ok (fst r).

(** *** Methods that update the instance

    [_auto_segments], [_multi_segment] and [__call__] write the caches of
    the instance; they are state transformers that may raise.  The state
    reached when an exception is raised is kept, as in Python. *)

Definition M (A : Type) : Type :=
  CurveInterpolator -> CurveInterpolator * result A.

Definition ret {A : Type} (a : A) : M A := fun self => (self, Ok a).

Definition lift {A : Type} (r : result A) : M A := fun self => (self, r).

Definition bindM {A B : Type} (m : M A) (f : A -> M B) : M B :=
  fun self =>
    match m self with
    | (self', Ok a) => f a self'
    | (self', Raise e) => (self', Raise e)
    end.

Definition get : M CurveInterpolator := fun self => (self, Ok self).

Definition put (s : CurveInterpolator) : M unit := fun _ => (s, Ok tt).

Notation "x <~ m ;; k" := (bindM m (fun x => k))
  (at level 61, m at next level, right associativity).

Definition set_auto_segments_cache (self : CurveInterpolator)
  (c : option seglist) : CurveInterpolator :=
  {| self_x := self_x self; self_y := self_y self; self_n := self_n self;
     self_auto_segments_cache := c;
     self_seg_modes_cached := self_seg_modes_cached self;
     self_seg_ks_cached := self_seg_ks_cached self;
     self_seg_cache_id := self_seg_cache_id self;
     self_slopes := self_slopes self;
     self_monotonic_dir := self_monotonic_dir self |}.

Definition set_seg_cache (self : CurveInterpolator) (modes : list string)
  (ks : list R) (id : nat) : CurveInterpolator :=
  {| self_x := self_x self; self_y := self_y self; self_n := self_n self;
     self_auto_segments_cache := self_auto_segments_cache self;
     self_seg_modes_cached := Some modes;
     self_seg_ks_cached := Some ks;
     self_seg_cache_id := Some id;
     self_slopes := self_slopes self;
     self_monotonic_dir := self_monotonic_dir self |}.

(** *** 4. Automatic segments, cached *)

(** The loop [for i in range(len(x) - 1)], appending to [segs]. *)
Fixpoint auto_segments_loop (self : CurveInterpolator) (range : list nat)
  (segs : list segment) : result (list segment) :=
  match range with
  | [] => Ok segs
  | i :: range' =>
      y0 <- np.getitem (self_y self) (Z.of_nat i) ;;
      y1 <- np.getitem (self_y self) (Z.of_nat i + 1) ;;
      xi1 <- np.getitem (self_x self) (Z.of_nat i + 1) ;;
      xi <- np.getitem (self_x self) (Z.of_nat i) ;;
      let span := xi1 - xi in
      '(mode_i, k_i) <- _choose_best_segment self i y0 y1 span ;;
      auto_segments_loop self range'
        (segs ++ [{| seg_mode := mode_i; seg_k := Some k_i |}])
  end.

(** [new_id] is the identity Python gives to the list built here. *)
Definition _auto_segments (new_id : nat) : M seglist :=
  self <~ get ;;
  match self_auto_segments_cache self with
  | Some segs => ret segs
  | None =>
      items <~ lift (auto_segments_loop self
                       (seq 0 (length (self_x self) - 1)) []) ;;
      let segs := {| seg_id := new_id; seg_items := items |} in
      _ <~ put (set_auto_segments_cache self (Some segs)) ;;
      ret segs
  end.

(** *** 6. One segment over the whole domain *)

(** The last line is the rescaling [y0 + (y1 - y0) * ratio].  Over the
    real numbers it is [y1] where the ratio is 1; the program rounds the
    difference, the product and the sum (see [binary64._single_segment]
    below). *)
Definition _single_segment (self : CurveInterpolator) (new_x : list R)
  (mode : string) (k : R) : result (list R) :=
  x0 <- np.getitem (self_x self) 0 ;;
  x1 <- np.getitem (self_x self) (-1) ;;
  y0 <- np.getitem (self_y self) 0 ;;
  y1 <- np.getitem (self_y self) (-1) ;;
  let span := x1 - x0 in
  if span <? 1e-12 then Ok (np.full_like new_x y0)
  else
    let t := map (fun q => np.clip ((q - x0) / span) 0 1) new_x in
    ratio <- _curve_ratio t mode (Scalar k) ;;
    Ok (map (fun r => y0 + (y1 - y0) * r) ratio).

(** *** 7. One segment per interval *)

(** [np.unique(mode_arr)], up to the order of the distinct modes (every
    failure of the loop below is a [ValueError], so the order does not
    show). *)
Definition unique (mode_arr : list string) : list string :=
  nodup string_dec mode_arr.

(** The loop [for m in np.unique(mode_arr)] filling [ratio]. *)
Fixpoint ratio_loop (modes : list string) (mode_arr : list string)
  (t k_arr ratio : list R) : result (list R) :=
  match modes with
  | [] => Ok ratio
  | m :: modes' =>
      let mask := map (fun m' => String.eqb m' m) mode_arr in
      r <- _curve_ratio (np.compress mask t) m (Array (np.compress mask k_arr)) ;;
      ratio_loop modes' mode_arr t k_arr (np.place mask r ratio)
  end.

Definition _multi_segment (new_x : list R) (segments : seglist) : M (list R) :=
  self <~ get ;;
  let x := self_x self in
  let y := self_y self in
  let nseg := (Z.of_nat (length x) - 1)%Z in
  (* the interval of each query: x[i] <= new_x < x[i+1] *)
  let idx := map (fun q => (Z.of_nat (np.searchsorted_right x q) - 1)%Z) new_x in
  let idx := map (fun i => np.clipZ i 0 (nseg - 1)) idx in
  x0 <~ lift (fancy x idx) ;;
  x1 <~ lift (fancy x (map (fun i => (i + 1)%Z) idx)) ;;
  y0 <~ lift (fancy y idx) ;;
  y1 <~ lift (fancy y (map (fun i => (i + 1)%Z) idx)) ;;
  (* the cache of the segments, keyed by the identity of the list *)
  _ <~ (if match self_seg_cache_id self with
           | Some id => negb (id =? seg_id segments)%nat
           | None => true
           end
        then put (set_seg_cache self
                    (map seg_mode (seg_items segments))
                    (map (fun s => match seg_k s with Some k => k | None => 1 end)
                       (seg_items segments))
                    (seg_id segments))
        else ret tt) ;;
  self <~ get ;;
  mode_arr <~ lift (match self_seg_modes_cached self with
                    | Some modes => fancy modes idx
                    | None => Raise TypeError
                    end) ;;
  k_arr <~ lift (match self_seg_ks_cached self with
                 | Some ks => fancy ks idx
                 | None => Raise TypeError
                 end) ;;
  let span := np.map2 Rminus x1 x0 in
  let span := map (fun s => if s <? 1e-12 then 1 else s) span in
  let t := np.map2 (fun d s => np.clip (d / s) 0 1)
             (np.map2 Rminus new_x x0) span in
  let ratio := map (fun _ => 0) t in
  ratio <~ lift (ratio_loop (unique mode_arr) mode_arr t k_arr ratio) ;;
  ret (np.map2 Rplus y0 (np.map2 Rmult (np.map2 Rminus y1 y0) ratio)).

(** *** 9. Extrapolation laws *)

Definition _manual_extrap (self : CurveInterpolator) (new_x : list R)
  (sd : side) (method : string) : result (list R) :=
  let x := self_x self in
  let y := self_y self in
  let '(idx0, idx1) :=
    match sd with left => (0, 1)%Z | right => (-2, -1)%Z end in
  x0 <- np.getitem x idx0 ;;
  x1 <- np.getitem x idx1 ;;
  y0 <- np.getitem y idx0 ;;
  y1 <- np.getitem y idx1 ;;
  if String.eqb method "edge" then
    Ok (np.full_like new_x (match sd with left => y0 | right => y1 end))
  else if String.eqb method "mirror" then
    let slope := (y1 - y0) / (x1 - x0) in
    match sd with
    | left => Ok (map (fun q => y0 + slope * (x0 - q)) new_x)
    | right => Ok (map (fun q => y1 - slope * (q - x1)) new_x)
    end
  else if String.eqb method "linear" then
    let slope := (y1 - y0) / (x1 - x0) in
    let '(ref_x, ref_y) :=
      match sd with left => (x0, y0) | right => (x1, y1) end in
    Ok (map (fun q => ref_y + slope * (q - ref_x)) new_x)
  else if String.eqb method "exp" then
    if (y0 <=? 0) || (y1 <=? 0) then Raise ValueError
    else
      let k := ln (y1 / y0) / (x1 - x0) in
      match sd with
      | left => Ok (map (fun q => y0 * exp (k * (q - x0))) new_x)
      | right => Ok (map (fun q => y1 * exp (k * (q - x1))) new_x)
      end
  else if String.eqb method "power" then
    if (x0 <=? 0) || (x1 <=? 0) || (y0 <=? 0) || (y1 <=? 0)
    then Raise ValueError
    else
      let p := ln (y1 / y0) / ln (x1 / x0) in
      match sd with
      | left => Ok (map (fun q => y0 * np.power (q / x0) p) new_x)
      | right => Ok (map (fun q => y1 * np.power (q / x1) p) new_x)
      end
  else Raise ValueError.

(** *** 8. Extrapolation with fallback *)

(** The loop [for m in [...]: try: return ... except Exception: continue],
    followed by the final ["edge"]. *)
Fixpoint try_methods (self : CurveInterpolator) (new_x : list R) (sd : side)
  (methods : list string) : result (list R) :=
  match methods with
  | [] => _manual_extrap self new_x sd "edge"
  | m :: methods' =>
      match _manual_extrap self new_x sd m with
      | Ok v => Ok v
      | Raise _ => try_methods self new_x sd methods'
      end
  end.

Definition _auto_extrap (self : CurveInterpolator) (new_x : list R)
  (sd : side) (method : string) : result (list R) :=
  if negb (String.eqb method "auto") then
    match _manual_extrap self new_x sd method with
    | Ok v => Ok v
    | Raise _ => _manual_extrap self new_x sd "linear"
    end
  else try_methods self new_x sd ["linear"; "power"; "exp"; "mirror"].

(** *** 5. Evaluation: interpolation and extrapolation *)

(** [np.empty_like(flat)] is an array of unspecified content; it is
    modelled by zeros.  A finite query satisfies exactly one of the three
    masks, so that every position is overwritten before the result is
    returned.  A [nan] query would satisfy none and keep the unspecified
    content: the queries of the model are real numbers, which leaves
    that case out. *)
Definition __call__ (new_id : nat) (new_x : list R) (mode : string) (k : R)
  (segments : option seglist) (extrapolate : string) : M (list R) :=
  self <~ get ;;
  let flat := new_x in
  let result := map (fun _ => 0) flat in
  x0 <~ lift (np.getitem (self_x self) 0) ;;
  x1 <~ lift (np.getitem (self_x self) (-1)) ;;
  let inside := map (fun q => (x0 <=? q) && (q <=? x1)) flat in
  let left_ := map (fun q => q <? x0) flat in
  let right_ := map (fun q => x1 <? q) flat in
  (* interpolation *)
  result <~
    (if existsb (fun b => b) inside then
       let x_in := np.compress inside flat in
       vals <~
         match segments with
         | Some segs => _multi_segment x_in segs
         | None =>
             if negb (String.eqb mode "auto") then
               lift (_single_segment self x_in mode k)
             else if (self_n self =? 2)%nat then
               lift (xa <- np.getitem (self_x self) 1 ;;
                     xb <- np.getitem (self_x self) 0 ;;
                     let span := xa - xb in
                     ya <- np.getitem (self_y self) 0 ;;
                     yb <- np.getitem (self_y self) 1 ;;
                     '(mode_auto, k_auto) <-
                        _choose_best_segment self 0 ya yb span ;;
                     _single_segment self x_in mode_auto k_auto)
             else
               auto_segs <~ _auto_segments new_id ;;
               _multi_segment x_in auto_segs
         end ;;
       ret (np.place inside vals result)
     else ret result) ;;
  (* extrapolation *)
  result <~
    (if existsb (fun b => b) left_ then
       vals <~ lift (_auto_extrap self (np.compress left_ flat) left
                       extrapolate) ;;
       ret (np.place left_ vals result)
     else ret result) ;;
  result <~
    (if existsb (fun b => b) right_ then
       vals <~ lift (_auto_extrap self (np.compress right_ flat) right
                       extrapolate) ;;
       ret (np.place right_ vals result)
     else ret result) ;;
  ret result.

(** ** Category configurations of the batch call *)

(** A key of a category configuration: missing, or present with a value
    that may be [None]. *)
Inductive entry (T : Type) : Type :=
| Absent
| Present (v : option T).

Arguments Absent {T}.
Arguments Present {T} v.

(** [cfg.get(key, default)]. *)
Definition cfg_get {T : Type} (e : entry T) (default : option T) : option T :=
  match e with
  | Absent => default
  | Present v => v
  end.

Definition get_or {T : Type} (o : option T) (default : T) : T :=
  match o with
  | Some v => v
  | None => default
  end.

(** A category configuration.  The options whose signature default is not
    [None] are either missing or set to a value of their type. *)
Record config : Type := {
  cfg_x : entry (list float64);
  cfg_y : entry (list float64);
  cfg_new_x : entry (list R);
  cfg_start : entry float64;
  cfg_end : entry float64;
  cfg_num : entry Z;
  cfg_mode : option string;
  cfg_k : option R;
  cfg_segments : entry seglist;
  cfg_extrapolate : option string
}.

(** A Python dict with string keys, in insertion order. *)
Definition dict (V : Type) : Type := list (string * V).

Fixpoint dict_set {V : Type} (d : dict V) (key : string) (v : V) : dict V :=
  match d with
  | [] => [(key, v)]
  | (k0, v0) :: d' =>
      if String.eqb k0 key then (k0, v) :: d'
      else (k0, v0) :: dict_set d' key v
  end.

Fixpoint dict_get {V : Type} (d : dict V) (key : string) : option V :=
  match d with
  | [] => None
  | (k0, v0) :: d' => if String.eqb k0 key then Some v0 else dict_get d' key
  end.

(** ** Construction and the two entry points *)

Section EntryPoints.

Context {A : Argsort}.

Definition __init__ (x y : list float64) : result CurveInterpolator :=
  '(x, y) <- _ensure_sorted_xy x y ;;
  let n := length x in
  if (n <? 2)%nat then Raise ValueError
  else
    slopes <- _estimate_slopes x y ;;
    let dy_all := np.diff y in
    let monotonic_dir :=
      if forallb (fun d => - 1e-12 <=? d) dy_all then 1%Z
      else if forallb (fun d => d <=? 1e-12) dy_all then (-1)%Z
      else 0%Z in
    Ok {| self_x := x; self_y := y; self_n := n;
          self_auto_segments_cache := None;
          self_seg_modes_cached := None;
          self_seg_ks_cached := None;
          self_seg_cache_id := None;
          self_slopes := slopes;
          self_monotonic_dir := monotonic_dir |}.

(** [interp_curve]; [end_] is the keyword argument [end]. *)
Definition interp_curve (x y : option (list float64)) (new_x : option (list R))
  (start end_ : option float64) (num : option Z)
  (mode : string) (k : R) (segments : option seglist) (extrapolate : string)
  (new_id : nat) : result (list R) :=
  (* the start / end / num form *)
  '(x, y, new_x) <-
    match start, end_, num with
    | Some s, Some e, Some n =>
        nx <- np.linspace 0 1 n ;;
        Ok (Some [Finite 0; Finite 1], Some [s; e], Some nx)
    | _, _, _ => Ok (x, y, new_x)
    end ;;
  (* input check *)
  match x, y, new_x with
  | Some x, Some y, Some new_x =>
      interp <- __init__ x y ;;
      snd (__call__ new_id new_x mode k segments extrapolate interp)
  | _, _, _ => Raise ValueError
  end.

(** *** Batch interpolation *)

(** The body of the main loop for one category. *)
Definition batch_category (cfg : config)
  (common_x : option (list float64)) (common_new_x : option (list R))
  (start end_ : option float64) (num : option Z)
  (mode : string) (k : R) (segments : option seglist) (extrapolate : string)
  (new_id : nat) : result (list R) :=
  (* 1) start / end / num *)
  let start_used := cfg_get (cfg_start cfg) start in
  let end_used := cfg_get (cfg_end cfg) end_ in
  let num_used := cfg_get (cfg_num cfg) num in
  match start_used, end_used, num_used with
  | Some s, Some e, Some n =>
      let seg_used := cfg_get (cfg_segments cfg) segments in
      interp_curve None None None (Some s) (Some e) (Some n)
        (get_or (cfg_mode cfg) mode) (get_or (cfg_k cfg) k) seg_used
        (get_or (cfg_extrapolate cfg) extrapolate) new_id
  | _, _, _ =>
      (* 2) x / y / new_x *)
      x_used <-
        match cfg_x cfg with
        | Present (Some x) => Ok x
        | _ => match common_x with
               | None => Raise ValueError
               | Some x => Ok x
               end
        end ;;
      y_used <-
        match cfg_y cfg with
        | Absent => Raise ValueError
        | Present (Some y) => Ok y
        | Present None => Raise TypeError
        end ;;
      if negb (length x_used =? length y_used)%nat then Raise ValueError
      else
        new_x_used <-
          match cfg_new_x cfg with
          | Present (Some nx) => Ok nx
          | _ => match common_new_x with
                 | None => Raise ValueError
                 | Some nx => Ok nx
                 end
          end ;;
        (* 3) mode / k / segments / extrapolate *)
        let mode_used := get_or (cfg_mode cfg) mode in
        let k_used := get_or (cfg_k cfg) k in
        let extrapolate_used := get_or (cfg_extrapolate cfg) extrapolate in
        let segments_used := cfg_get (cfg_segments cfg) segments in
        (* 4) the single-series call *)
        interp_curve (Some x_used) (Some y_used) (Some new_x_used)
          None None None mode_used k_used segments_used extrapolate_used
          new_id
  end.

Fixpoint batch_loop (data : dict config) (results : dict (list R))
  (common_x : option (list float64)) (common_new_x : option (list R))
  (start end_ : option float64) (num : option Z)
  (mode : string) (k : R) (segments : option seglist) (extrapolate : string)
  (new_id : nat) : result (dict (list R)) :=
  match data with
  | [] => Ok results
  | (category, cfg) :: data' =>
      r <- batch_category cfg common_x common_new_x start end_ num
             mode k segments extrapolate new_id ;;
      batch_loop data' (dict_set results category r)
        common_x common_new_x start end_ num mode k segments extrapolate
        new_id
  end.

Definition batch_interp_curve (data : dict config)
  (common_x : option (list float64)) (common_new_x : option (list R))
  (start end_ : option float64) (num : option Z)
  (mode : string) (k : R) (segments : option seglist) (extrapolate : string)
  (new_id : nat) : result (dict (list R)) :=
  batch_loop data [] common_x common_new_x start end_ num
    mode k segments extrapolate new_id.

End EntryPoints.

(** * Vocabulary of the specification *)

(** Consecutive elements differ by more than [1e-12]. *)
Definition gap (a b : R) : Prop := 1e-12 < b - a.

(** A Sample Set: as many [y] as [x], at least two points, strictly
    increasing [x] with gaps above [1e-12].  Finiteness is carried by the
    type [R]. *)
Definition sample_set (x y : list R) : Prop :=
  length x = length y /\ (2 <= length x)%nat /\ Sorted gap x.

(** An interpolator over a Sample Set: the attributes computed at
    construction agree with the samples. *)
Definition valid (self : CurveInterpolator) : Prop :=
  sample_set (self_x self) (self_y self) /\
  self_n self = length (self_x self) /\
  length (self_slopes self) = length (self_x self).

(** No segment list has been cached yet. *)
Definition fresh (self : CurveInterpolator) : Prop :=
  self_auto_segments_cache self = None /\ self_seg_cache_id self = None.

(** The first and the last sample. *)
Definition first (a : list R) : R := nth 0 a 0.
Definition final (a : list R) : R := nth (length a - 1) a 0.

(** The extrapolation names the interface documents. *)
Definition known_method (m : string) : bool :=
  existsb (String.eqb m) ["edge"; "linear"; "exp"; "power"; "mirror"; "auto"].

(** The values of the ["linear"] law on one side. *)
Definition linear_law (self : CurveInterpolator) (sd : side) (q : R) : R :=
  let x := self_x self in
  let y := self_y self in
  let n := length x in
  match sd with
  | left =>
      nth 0 y 0 + (nth 1 y 0 - nth 0 y 0) / (nth 1 x 0 - nth 0 x 0)
                  * (q - nth 0 x 0)
  | right =>
      nth (n - 1) y 0
      + (nth (n - 1) y 0 - nth (n - 2) y 0) / (nth (n - 1) x 0 - nth (n - 2) x 0)
        * (q - nth (n - 1) x 0)
  end.

(** The eight shape kinds. *)
Definition known_mode (m : string) : bool :=
  existsb (String.eqb m)
    ["linear"; "power"; "exp"; "logistic"; "cos"; "sin"; "poly2"; "poly3"].

(** The value of a shape kind at one point [t], with parameter [k]. *)
Definition shape (mode : string) (t k : R) : R :=
  if String.eqb mode "linear" then t
  else if String.eqb mode "power" then np.power t k
  else if String.eqb mode "exp" then exp_ratio t k
  else if String.eqb mode "logistic" then logistic_ratio t k
  else if String.eqb mode "cos" then 0.5 - 0.5 * cos (PI * t)
  else if String.eqb mode "sin" then sin (PI * t / 2)
  else if String.eqb mode "poly2" then t * (2 - t)
  else if String.eqb mode "poly3" then t ^ 2 * (3 - 2 * t)
  else 0.

(** The relative change of a segment. *)
Definition change_ratio (y0 y1 : R) : R := Rabs (y1 - y0) / (Rabs y0 + 1e-9).

(** A normalized easing: the shape maps 0 to 0 and 1 to 1 and does not
    decrease on the unit interval. *)
Definition easing (mode : string) (k : R) : Prop :=
  _curve_ratio [0; 1] mode (Scalar k) = Ok [0; 1] /\
  forall a b : R, 0 <= a -> a <= b -> b <= 1 ->
    exists ra rb : R,
      _curve_ratio [a; b] mode (Scalar k) = Ok [ra; rb] /\ ra <= rb.

(** The span [v1 - v0] of the sigmoid that the ["logistic"] shape
    normalizes by. *)
Definition logistic_span (s : R) : R :=
  1 / (1 + exp (- 0.5 * s)) - 1 / (1 + exp (0.5 * s)).


(** The sigmoid behind the ["logistic"] shape. *)
Definition sig (u : R) : R := 1 / (1 + exp (- u)).


(** Which of the two input forms of [interp_curve] is fully supplied. *)
Definition series_form (x y : option (list float64))
  (new_x : option (list R)) : bool :=
  match x, y, new_x with
  | Some _, Some _, Some _ => true
  | _, _, _ => false
  end.

Definition shorthand_form (start end_ : option float64) (num : option Z)
  : bool :=
  match start, end_, num with
  | Some _, Some _, Some _ => true
  | _, _, _ => false
  end.

(** The parameters of one single-series call. *)
Record call_params : Type := {
  p_x : option (list float64);
  p_y : option (list float64);
  p_new_x : option (list R);
  p_start : option float64;
  p_end : option float64;
  p_num : option Z;
  p_mode : string;
  p_k : R;
  p_segments : option seglist;
  p_extrapolate : string
}.

(** The value a category gives to a key, if it gives one. *)
Definition category_value {T : Type} (e : entry T) : option T :=
  match e with
  | Present (Some v) => Some v
  | _ => None
  end.

(** One option resolved through the layers, highest priority first: the
    category, then the batch level (which carries the defaults of the
    single-series call).  A key that a category sets, even to [None], is
    the category-level value. *)
Definition layered {T : Type} (category : entry T) (batch : option T)
  : option T :=
  match category with
  | Present v => v
  | Absent => batch
  end.

(** A shared series stands in for a series the category does not give. *)
Definition shared {T : Type} (category : entry T) (common : option T)
  : option T :=
  match category_value category with
  | Some v => Some v
  | None => common
  end.

(** The fully resolved parameters of a category, following the
    specification: category-level value, batch-level value, shared series
    ([x] and [new_x] only), defaults. *)
Definition resolve (cfg : config)
  (common_x : option (list float64)) (common_new_x : option (list R))
  (start end_ : option float64) (num : option Z)
  (mode : string) (k : R) (segments : option seglist) (extrapolate : string)
  : call_params :=
  {| p_x := shared (cfg_x cfg) common_x;
     p_y := category_value (cfg_y cfg);
     p_new_x := shared (cfg_new_x cfg) common_new_x;
     p_start := layered (cfg_start cfg) start;
     p_end := layered (cfg_end cfg) end_;
     p_num := layered (cfg_num cfg) num;
     p_mode := match cfg_mode cfg with Some m => m | None => mode end;
     p_k := match cfg_k cfg with Some v => v | None => k end;
     p_segments := layered (cfg_segments cfg) segments;
     p_extrapolate :=
       match cfg_extrapolate cfg with Some m => m | None => extrapolate end |}.

(** The single-series call made with resolved parameters. *)
Definition single_call {A : Argsort} (p : call_params) (new_id : nat)
  : result (list R) :=
  interp_curve (p_x p) (p_y p) (p_new_x p) (p_start p) (p_end p) (p_num p)
    (p_mode p) (p_k p) (p_segments p) (p_extrapolate p) new_id.

(** The resolved parameters make a complete single-series call. *)
Definition complete (p : call_params) : bool :=
  shorthand_form (p_start p) (p_end p) (p_num p)
  || series_form (p_x p) (p_y p) (p_new_x p).

(** Removal of the samples whose [x] lies within [1e-12] of the [x] that
    precedes them in the sorted sequence; [prev] is that preceding [x]. *)
Fixpoint drop_close (prev : R) (l : list (R * R)) : list (R * R) :=
  match l with
  | [] => []
  | p :: l' =>
      if 1e-12 <? fst p - prev then p :: drop_close (fst p) l'
      else drop_close (fst p) l'
  end.

(** The first sample is always kept. *)
Definition remove_close (l : list (R * R)) : list (R * R) :=
  match l with
  | [] => []
  | p :: l' => p :: drop_close (fst p) l'
  end.


(** The interval a query is assigned to: [searchsorted(x, q, "right") - 1],
    clipped to the range of the intervals. *)
Definition interval (x : list R) (q : R) : nat :=
  Z.to_nat (np.clipZ (Z.of_nat (np.searchsorted_right x q) - 1) 0
              (Z.of_nat (length x) - 1 - 1)).

(** The modes and parameters, by interval, read from a [segments] list. *)
Definition seg_modes (segments : seglist) : list string :=
  map seg_mode (seg_items segments).

Definition seg_ks (segments : seglist) : list R :=
  map (fun s => match seg_k s with Some k => k | None => 1 end)
    (seg_items segments).

(** The span used to normalize inside an interval. *)
Definition floored (span : R) : R := if span <? 1e-12 then 1 else span.

(** Multi-segment evaluation at one query: local normalization in the
    interval of the query, the shape of that interval, rescaling into the
    [y] range of the interval. *)
Definition segment_value (x y : list R) (modes : list string) (ks : list R)
  (q : R) : R :=
  let i := interval x q in
  let x0 := nth i x 0 in
  let x1 := nth (i + 1) x 0 in
  let y0 := nth i y 0 in
  let y1 := nth (i + 1) y 0 in
  let t := np.clip ((q - x0) / floored (x1 - x0)) 0 1 in
  y0 + (y1 - y0) * shape (nth i modes "") t (nth i ks 0).

(** The array [ratio] after the loop over the distinct modes has treated
    the modes [done]: the entries whose mode is among them hold the shape
    value, the others are as before. *)
Fixpoint fill (done : list string) (mode_arr : list string)
  (t k ratio : list R) : list R :=
  match mode_arr, t, k, ratio with
  | m :: mode_arr', t0 :: t', k0 :: k', r0 :: ratio' =>
      (if existsb (String.eqb m) done then shape m t0 k0 else r0)
      :: fill done mode_arr' t' k' ratio'
  | _, _, _, _ => []
  end.

(** A descriptor whose shape is a normalized easing. *)
Definition supported_descriptor (mode : string) (k : R) : Prop :=
  known_mode mode = true /\ (mode = "power" -> 0 < k).

Definition supported_segment (s : segment) : Prop :=
  supported_descriptor (seg_mode s)
    (match seg_k s with Some k => k | None => 1 end).


Definition linear_segments : seglist :=
  {| seg_id := 0; seg_items := [{| seg_mode := "linear"; seg_k := None |}] |}.

(** The call misses the segment cache: no list is cached, or a list of
    another identity. *)
Definition cache_miss (self : CurveInterpolator) (segments : seglist) : Prop :=
  self_seg_cache_id self <> Some (seg_id segments).

(** The descriptors a multi-segment call works with: the modes and
    parameters of the list it is given or, when the identity of that list
    is the cached one, the cached modes and parameters. *)
Definition descriptors_in_effect (self : CurveInterpolator)
  (segments : seglist) : option (list string * list R) :=
  if match self_seg_cache_id self with
     | Some id => negb (id =? seg_id segments)%nat
     | None => true
     end
  then Some (seg_modes segments, seg_ks segments)
  else match self_seg_modes_cached self, self_seg_ks_cached self with
       | Some modes, Some ks => Some (modes, ks)
       | _, _ => None
       end.


(** The sample at the boundary of one side, and the sample next to it:
    the two samples an extrapolation law is fitted to. *)
Definition boundary (a : list R) (sd : side) : R :=
  match sd with left => first a | right => final a end.

Definition inner (a : list R) (sd : side) : R :=
  match sd with left => nth 1 a 0 | right => nth (length a - 2) a 0 end.

(** ** Sample interpolators *)

(** [CurveInterpolator([1, 2], [0, 4])]. *)
Definition interp_12 : CurveInterpolator :=
  {| self_x := [1; 2]; self_y := [0; 4]; self_n := 2;
     self_auto_segments_cache := None;
     self_seg_modes_cached := None;
     self_seg_ks_cached := None;
     self_seg_cache_id := None;
     self_slopes := [4; 4];
     self_monotonic_dir := 1 |}.

(** [CurveInterpolator([0, 10, 20], [0, 5, 30])]. *)
Definition interp_3 : CurveInterpolator :=
  {| self_x := [0; 10; 20]; self_y := [0; 5; 30]; self_n := 3;
     self_auto_segments_cache := None;
     self_seg_modes_cached := None;
     self_seg_ks_cached := None;
     self_seg_cache_id := None;
     self_slopes := [0.5; 1.5; 2.5];
     self_monotonic_dir := 1 |}.

(** [interp_12] after a call with the list [linear_segments]. *)
Definition interp_12_cached : CurveInterpolator :=
  {| self_x := [1; 2]; self_y := [0; 4]; self_n := 2;
     self_auto_segments_cache := Some linear_segments;
     self_seg_modes_cached := Some ["linear"];
     self_seg_ks_cached := Some [1];
     self_seg_cache_id := Some 0%nat;
     self_slopes := [4; 4];
     self_monotonic_dir := 1 |}.

(** ** The rescaling on binary64 numbers *)

Module binary64.

Import PrimFloat.

(** [np.clip(v, lo, hi)], that is [minimum(maximum(v, lo), hi)], on
    numbers that are not [nan]. *)
Definition clip (v lo hi : float) : float :=
  let v := if ltb v lo then lo else v in
  if ltb hi v then hi else v.

(** [_single_segment(new_x, "linear", k)] in the arithmetic of the
    program, for an interpolator whose first sample is [(x0, y0)] and
    whose last sample is [(x1, y1)]: the ratio of the linear shape is the
    clipped coordinate itself. *)
Definition _single_segment (x0 x1 y0 y1 : float) (new_x : list float)
  : list float :=
  let span := sub x1 x0 in
  if ltb span 1e-12%float then map (fun _ => y0) new_x
  else
    let t := map (fun q => clip (div (sub q x0) span) 0%float 1%float) new_x in
    let ratio := t in
    map (fun r => add y0 (mul (sub y1 y0) r)) ratio.

End binary64.

(** * Properties *)

(** ** Comparisons *)

Lemma Rltb_true (a b : R) : a < b -> (a <? b) = true.
Proof. intros H. unfold Rltb. destruct (Rlt_dec a b); [reflexivity | contradiction]. Qed.

Lemma Rltb_false (a b : R) : b <= a -> (a <? b) = false.
Proof. intros H. unfold Rltb. destruct (Rlt_dec a b); [lra | reflexivity]. Qed.

Lemma Rleb_true (a b : R) : a <= b -> (a <=? b) = true.
Proof. intros H. unfold Rleb. destruct (Rle_dec a b); [reflexivity | contradiction]. Qed.

Lemma Rleb_false (a b : R) : b < a -> (a <=? b) = false.
Proof. intros H. unfold Rleb. destruct (Rle_dec a b); [lra | reflexivity]. Qed.

Lemma Reqb_true (a b : R) : a = b -> (a =? b) = true.
Proof. intros H. unfold Reqb. destruct (Req_dec_T a b); [reflexivity | contradiction]. Qed.

Lemma Reqb_false (a b : R) : a <> b -> (a =? b) = false.
Proof. intros H. unfold Reqb. destruct (Req_dec_T a b); [contradiction | reflexivity]. Qed.

Lemma Rltb_spec (a b : R) : (a <? b) = true <-> a < b.
Proof.
  unfold Rltb. destruct (Rlt_dec a b); split; intros; try assumption;
    try reflexivity; try discriminate; contradiction.
Qed.

Lemma Rleb_spec (a b : R) : (a <=? b) = true <-> a <= b.
Proof.
  unfold Rleb. destruct (Rle_dec a b); split; intros; try assumption;
    try reflexivity; try discriminate; contradiction.
Qed.

(** Decide the comparisons of concrete numbers that occur in the goal. *)
Ltac rdecide :=
  repeat match goal with
  | |- context [Rltb ?a ?b] =>
      first [ rewrite (Rltb_true a b) by lra | rewrite (Rltb_false a b) by lra ]
  | |- context [Rleb ?a ?b] =>
      first [ rewrite (Rleb_true a b) by lra | rewrite (Rleb_false a b) by lra ]
  | |- context [Reqb ?a ?b] =>
      first [ rewrite (Reqb_true a b) by lra | rewrite (Reqb_false a b) by lra ]
  end.

(** Evaluate a call on concrete numbers: reduce, then settle the
    comparisons, absolute values and clippings that show up. *)
Ltac rclip :=
  repeat match goal with
  | |- context [Rmax ?a ?b] =>
      first [ rewrite (Rmax_left a b) by lra | rewrite (Rmax_right a b) by lra ]
  | |- context [Rmin ?a ?b] =>
      first [ rewrite (Rmin_left a b) by lra | rewrite (Rmin_right a b) by lra ]
  | |- context [Rabs ?a] =>
      first [ rewrite (Rabs_pos_eq a) by lra | rewrite (Rabs_left1 a) by lra ]
  end.

Ltac rnat :=
  repeat match goal with
  | |- context [Pos.to_nat ?p] =>
      let n := eval compute in (Pos.to_nat p) in change (Pos.to_nat p) with n
  end.

Ltac reval :=
  repeat (progress (cbn -[IZR]; rnat; unfold np.clip; rclip; rdecide)).

(** ** Indexing *)

Lemma getitem_nth {A : Type} (a : list A) (i : nat) (d : A) :
  (i < length a)%nat -> np.getitem a (Z.of_nat i) = Ok (nth i a d).
Proof.
  intros H. unfold np.getitem.
  assert (E0 : (Z.of_nat i <? 0)%Z = false) by (apply Z.ltb_ge; lia).
  rewrite !E0, Nat2Z.id.
  destruct (nth_error a i) eqn:E.
  - erewrite nth_error_nth by eassumption. reflexivity.
  - apply nth_error_None in E. lia.
Qed.

Lemma getitem_neg {A : Type} (a : list A) (j : nat) (d : A) :
  (0 < j <= length a)%nat ->
  np.getitem a (- Z.of_nat j) = Ok (nth (length a - j) a d).
Proof.
  intros H. unfold np.getitem.
  assert (E0 : (- Z.of_nat j <? 0)%Z = true) by (apply Z.ltb_lt; lia).
  assert (E1 : (- Z.of_nat j + Z.of_nat (length a) <? 0)%Z = false)
    by (apply Z.ltb_ge; lia).
  rewrite E0, E1.
  replace (Z.to_nat (- Z.of_nat j + Z.of_nat (length a)))
    with (length a - j)%nat by lia.
  destruct (nth_error a (length a - j)) eqn:E.
  - erewrite nth_error_nth by eassumption. reflexivity.
  - apply nth_error_None in E. lia.
Qed.

Lemma getitem_error {A : Type} (a : list A) (i : Z) (e : exn) :
  np.getitem a i = Raise e -> e = IndexError.
Proof.
  unfold np.getitem. intros H.
  destruct ((if (i <? 0)%Z then (i + Z.of_nat (length a))%Z else i) <? 0)%Z;
    [congruence |].
  destruct (nth_error a _); congruence.
Qed.

Lemma getitem_0 {A : Type} (a : list A) (d : A) :
  (0 < length a)%nat -> np.getitem a 0 = Ok (nth 0 a d).
Proof. intros H. apply (getitem_nth a 0 d H). Qed.

Lemma getitem_1 {A : Type} (a : list A) (d : A) :
  (1 < length a)%nat -> np.getitem a 1 = Ok (nth 1 a d).
Proof. intros H. apply (getitem_nth a 1 d H). Qed.

Lemma getitem_m1 {A : Type} (a : list A) (d : A) :
  (0 < length a)%nat -> np.getitem a (-1) = Ok (nth (length a - 1) a d).
Proof. intros H. apply (getitem_neg a 1 d). lia. Qed.

Lemma getitem_m2 {A : Type} (a : list A) (d : A) :
  (1 < length a)%nat -> np.getitem a (-2) = Ok (nth (length a - 2) a d).
Proof. intros H. apply (getitem_neg a 2 d). lia. Qed.

(** ** The sample interpolators are Sample Sets *)

Lemma interp_12_valid : valid interp_12.
Proof.
  unfold valid, sample_set, interp_12; simpl.
  repeat split; try lia.
  repeat constructor. unfold gap. lra.
Qed.

(** ** Extrapolation *)

Section Extrapolation.

Variable self : CurveInterpolator.
Variable q : list R.
Variable sd : side.

(** On a Sample Set the ["linear"] law always has a value. *)
Lemma manual_linear_valid :
  valid self ->
  _manual_extrap self q sd "linear" = Ok (map (linear_law self sd) q).
Proof.
  intros [(Hlen & Hn & _) _]. unfold _manual_extrap, linear_law.
  destruct sd.
  - rewrite (getitem_0 (self_x self) 0), (getitem_1 (self_x self) 0),
      (getitem_0 (self_y self) 0), (getitem_1 (self_y self) 0) by lia.
    reflexivity.
  - rewrite (getitem_m2 (self_x self) 0), (getitem_m1 (self_x self) 0),
      (getitem_m2 (self_y self) 0), (getitem_m1 (self_y self) 0) by lia.
    rewrite <- Hlen. reflexivity.
Qed.

(** When ["linear"] raises, it is on the boundary lookups, and then every
    method raises the same exception. *)
Lemma manual_raise_all (e : exn) :
  _manual_extrap self q sd "linear" = Raise e ->
  forall m, _manual_extrap self q sd m = Raise e.
Proof.
  unfold _manual_extrap. intros H m.
  destruct sd;
  repeat match goal with
  | H : context [bind (np.getitem ?a ?i) _] |- _ =>
      destruct (np.getitem a i); simpl in H |- *; try assumption
  end; discriminate.
Qed.

Lemma auto_is_linear :
  _auto_extrap self q sd "auto" = _auto_extrap self q sd "linear".
Proof.
  unfold _auto_extrap. simpl.
  destruct (_manual_extrap self q sd "linear") eqn:E; [reflexivity |].
  rewrite !(manual_raise_all _ E). reflexivity.
Qed.

Lemma unknown_method_cases (m : string) :
  known_method m = false ->
  String.eqb m "edge" = false /\ String.eqb m "linear" = false /\
  String.eqb m "exp" = false /\ String.eqb m "power" = false /\
  String.eqb m "mirror" = false /\ String.eqb m "auto" = false.
Proof.
  unfold known_method. simpl. intros H.
  repeat (apply orb_false_elim in H; destruct H as [? H]).
  repeat split; assumption.
Qed.

Lemma unknown_is_linear (m : string) :
  known_method m = false ->
  _auto_extrap self q sd m = _auto_extrap self q sd "linear".
Proof.
  intros Hm. apply unknown_method_cases in Hm.
  destruct Hm as (He & Hl & Hx & Hp & Hmi & Ha).
  unfold _auto_extrap. rewrite Ha. simpl.
  destruct (_manual_extrap self q sd "linear") eqn:E.
  - destruct (_manual_extrap self q sd m) eqn:E'; [| reflexivity].
    exfalso. revert E'. unfold _manual_extrap.
    destruct sd; repeat match goal with
    | |- context [bind (np.getitem ?a ?i) _] =>
      destruct (np.getitem a i); simpl; try discriminate
    end; rewrite He, Hl, Hx, Hp, Hmi; discriminate.
  - rewrite (manual_raise_all _ E). reflexivity.
Qed.

(** C3.  When an extrapolation method other than ["auto"] is requested and
    its evaluation raises, the caller does not see the exception: the
    out-of-range queries get the values of the ["linear"] law, taken from
    the same two boundary samples. *)
Theorem failed_method_downgrades_to_linear (method : string) (e : exn) :
  valid self ->
  method <> "auto" ->
  _manual_extrap self q sd method = Raise e ->
  _auto_extrap self q sd method = Ok (map (linear_law self sd) q).
Proof.
  intros Hv Hm Hfail. unfold _auto_extrap.
  destruct (String.eqb_spec method "auto") as [-> | _]; [congruence |].
  simpl. rewrite Hfail. apply manual_linear_valid, Hv.
Qed.

(** An undocumented name raises inside [_manual_extrap] only. *)
Lemma unknown_method_values (method : string) :
  valid self ->
  known_method method = false ->
  _manual_extrap self q sd method = Raise ValueError /\
  _auto_extrap self q sd method = Ok (map (linear_law self sd) q).
Proof.
  intros Hv Hm. split.
  - pose proof (manual_linear_valid Hv) as Hl. revert Hl.
    apply unknown_method_cases in Hm.
    destruct Hm as (He & Hl & Hx & Hp & Hmi & Ha).
    unfold _manual_extrap.
    destruct sd; repeat match goal with
    | |- context [bind (np.getitem ?a ?i) _] =>
      destruct (np.getitem a i); simpl; try discriminate
    end; rewrite He, Hl, Hx, Hp, Hmi; reflexivity.
  - rewrite (unknown_is_linear _ Hm). unfold _auto_extrap. simpl.
    rewrite (manual_linear_valid Hv). reflexivity.
Qed.

End Extrapolation.

(** The extrapolation name reaches the result of a call through
    [_auto_extrap] only. *)
Lemma call_extrap_ext (m1 m2 : string) :
  (forall self q sd, _auto_extrap self q sd m1 = _auto_extrap self q sd m2) ->
  forall new_id new_x mode k segments self,
    __call__ new_id new_x mode k segments m1 self
    = __call__ new_id new_x mode k segments m2 self.
Proof.
  intros H new_id new_x mode k segments self.
  unfold __call__, bindM, get, lift, ret.
  destruct (np.getitem (self_x self) 0); [| reflexivity].
  destruct (np.getitem (self_x self) (-1)); [| reflexivity].
  rewrite !H. reflexivity.
Qed.

Lemma interp_curve_extrap_ext {A : Argsort} (m1 m2 : string) :
  (forall self q sd, _auto_extrap self q sd m1 = _auto_extrap self q sd m2) ->
  forall x y new_x start end_ num mode k segments new_id,
    interp_curve x y new_x start end_ num mode k segments m1 new_id
    = interp_curve x y new_x start end_ num mode k segments m2 new_id.
Proof.
  intros H x y new_x start end_ num mode k segments new_id.
  unfold interp_curve.
  destruct (match start, end_, num with
            | Some s, Some e, Some n =>
                nx <- np.linspace 0 1 n ;;
                Ok (Some [Finite 0; Finite 1], Some [s; e], Some nx)
            | _, _, _ => Ok (x, y, new_x)
            end) as [[[x' y'] nx'] | e]; [| reflexivity].
  simpl. destruct x', y', nx'; try reflexivity.
  destruct (__init__ l l0); [| reflexivity]. simpl.
  rewrite (call_extrap_ext m1 m2 H). reflexivity.
Qed.

(** C9.  On an interpolator over a Sample Set, ["auto"] extrapolation is
    ["linear"] extrapolation: the ["linear"] law, first in the preference
    order, has a value for every query, so no later law and no ["edge"]
    fallback is reached, and a call with [extrapolate="auto"] returns what
    the call with [extrapolate="linear"] returns. *)
Theorem auto_extrapolation_is_linear (self : CurveInterpolator) :
  valid self ->
  (forall q sd,
      _manual_extrap self q sd "linear" = Ok (map (linear_law self sd) q) /\
      _auto_extrap self q sd "auto" = Ok (map (linear_law self sd) q)) /\
  (forall new_id new_x mode k segments,
      __call__ new_id new_x mode k segments "auto" self
      = __call__ new_id new_x mode k segments "linear" self).
Proof.
  intros Hv. split.
  - intros q sd. split; [apply manual_linear_valid, Hv |].
    unfold _auto_extrap. simpl.
    rewrite (manual_linear_valid self q sd Hv). reflexivity.
  - intros. apply call_extrap_ext. intros. apply auto_is_linear.
Qed.

(** C10.  An extrapolation name outside edge, linear, exp, power, mirror
    and auto does not make the public call fail: the "unknown method"
    exception of [_manual_extrap] is caught in [_auto_extrap], which
    returns the values of the ["linear"] law, so [interp_curve] returns
    what it returns for [extrapolate="linear"]. *)
Theorem unknown_method_downgrades_to_linear {A : Argsort} (method : string) :
  known_method method = false ->
  (forall self q sd,
      valid self ->
      _manual_extrap self q sd method = Raise ValueError /\
      _auto_extrap self q sd method = Ok (map (linear_law self sd) q)) /\
  (forall x y new_x start end_ num mode k segments new_id,
      interp_curve x y new_x start end_ num mode k segments method new_id
      = interp_curve x y new_x start end_ num mode k segments "linear" new_id).
Proof.
  intros Hm. split.
  - intros self q sd Hv. apply unknown_method_values; assumption.
  - apply interp_curve_extrap_ext. intros. apply unknown_is_linear, Hm.
Qed.

(** [x=[1,2]], [y=[0,4]], query [0], ["exp"]: the left boundary value is
    not positive, the law raises, and the value is the linear [-4]. *)
Lemma failed_method_downgrades_to_linear_witness :
  _manual_extrap interp_12 [0] left "exp" = Raise ValueError /\
  _auto_extrap interp_12 [0] left "exp" = Ok [-4].
Proof.
  assert (Hfail : _manual_extrap interp_12 [0] left "exp" = Raise ValueError).
  { unfold _manual_extrap. cbn. rdecide. reflexivity. }
  split; [exact Hfail |].
  rewrite (failed_method_downgrades_to_linear interp_12 [0] left "exp"
             ValueError interp_12_valid).
  - cbn. do 2 f_equal. lra.
  - discriminate.
  - exact Hfail.
Defined.

Lemma auto_extrapolation_is_linear_witness :
  _auto_extrap interp_12 [0] left "auto" = Ok [-4] /\
  __call__ 0 [0; 3] "linear" 1 None "auto" interp_12
  = __call__ 0 [0; 3] "linear" 1 None "linear" interp_12.
Proof.
  destruct (auto_extrapolation_is_linear interp_12 interp_12_valid)
    as [Hlaw Hcall].
  split.
  - rewrite (proj2 (Hlaw [0] left)). cbn. do 2 f_equal. lra.
  - apply Hcall.
Defined.

Lemma unknown_method_downgrades_to_linear_witness :
  _manual_extrap interp_12 [3] right "cubic" = Raise ValueError /\
  _auto_extrap interp_12 [3] right "cubic" = Ok [8].
Proof.
  destruct (@unknown_method_downgrades_to_linear insertion_argsort "cubic"
              eq_refl) as [Hlaw _].
  destruct (Hlaw interp_12 [3] right interp_12_valid) as [Hraise Hval].
  split; [exact Hraise |].
  rewrite Hval. cbn. do 2 f_equal. lra.
Defined.

(** ** Shape kinds *)

Lemma known_mode_cases (m : string) :
  known_mode m = true ->
  m = "linear" \/ m = "power" \/ m = "exp" \/ m = "logistic" \/
  m = "cos" \/ m = "sin" \/ m = "poly2" \/ m = "poly3".
Proof.
  unfold known_mode. simpl. intros H.
  repeat (apply orb_prop in H; destruct H as [H | H];
          [apply String.eqb_eq in H; tauto |]).
  discriminate.
Qed.

Lemma map2_repeat {A B C : Type} (f : A -> B -> C) (l : list A) (b : B) :
  np.map2 f l (repeat b (length l)) = map (fun a => f a b) l.
Proof. induction l; simpl; [reflexivity | now rewrite IHl]. Qed.

Lemma map2_map_l {A B C : Type} (f : A -> C) (l : list A) (l' : list B) :
  length l = length l' -> np.map2 (fun a _ => f a) l l' = map f l.
Proof.
  revert l'. induction l; intros [| b l'] H; simpl in *; try reflexivity; try discriminate.
  f_equal. apply IHl. lia.
Qed.

Lemma map2_fst {A B : Type} (l : list A) (l' : list B) :
  length l = length l' -> np.map2 (fun a _ => a) l l' = l.
Proof.
  revert l'. induction l; intros [| b l'] H; simpl in *; try reflexivity; try discriminate.
  f_equal. apply IHl. lia.
Qed.

Lemma curve_ratio_scalar (ts : list R) (m : string) (k : R) :
  known_mode m = true ->
  _curve_ratio ts m (Scalar k) = Ok (map (fun t => shape m t k) ts).
Proof.
  intros H. apply known_mode_cases in H.
  unfold _curve_ratio, shape.
  repeat (destruct H as [-> | H]); try subst m; simpl;
    rewrite ?map2_repeat, ?map_id; reflexivity.
Qed.

Lemma curve_ratio_array (ts ks : list R) (m : string) :
  known_mode m = true -> length ks = length ts ->
  _curve_ratio ts m (Array ks) = Ok (np.map2 (shape m) ts ks).
Proof.
  intros H Hlen. apply known_mode_cases in H.
  unfold _curve_ratio, shape, broadcast_to, broadcast_arrays.
  rewrite Hlen, Nat.eqb_refl.
  repeat (destruct H as [-> | H]); try subst m; simpl;
    rewrite ?map2_map_l by congruence; rewrite ?map_id; reflexivity.
Qed.

Lemma curve_ratio_unknown (ts : list R) (m : string) (k : kparam) :
  known_mode m = false -> _curve_ratio ts m k = Raise ValueError.
Proof.
  unfold known_mode. simpl. intros H.
  repeat (apply orb_false_elim in H; destruct H as [? H]).
  unfold _curve_ratio.
  repeat match goal with E : String.eqb m _ = false |- _ => rewrite E; clear E end.
  reflexivity.
Qed.

Lemma segment_cost_ok (self : CurveInterpolator) (m : string) (k y0 y1 span sl sr : R) :
  known_mode m = true ->
  exists c, _segment_cost self m k y0 y1 span sl sr = Ok c.
Proof.
  intros H. unfold _segment_cost.
  destruct (span <? 1e-12); [eexists; reflexivity |].
  rewrite !(curve_ratio_scalar _ m k H). simpl.
  eexists; reflexivity.
Qed.

Lemma search_calls cost cands : forall best calls r calls',
  search cost cands best calls = Ok (r, calls') ->
  calls' = (calls ++ cands)%list.
Proof.
  induction cands as [| [m k] cands IH]; intros best calls r calls' H; simpl in H.
  - inversion H. now rewrite app_nil_r.
  - destruct (cost m k); simpl in H; [| discriminate].
    apply IH in H. rewrite H, <- app_assoc. reflexivity.
Qed.

Lemma search_ok cost cands :
  (forall m k, In (m, k) cands -> exists c, cost m k = Ok c) ->
  forall best calls, exists best',
    search cost cands best calls = Ok (best', (calls ++ cands)%list) /\
    (fst best' = fst best \/ In (fst best') cands).
Proof.
  induction cands as [| [m k] cands IH]; intros Hc best calls; simpl.
  - exists best. rewrite app_nil_r. auto.
  - destruct (Hc m k (or_introl eq_refl)) as [c ->]. cbn [bind].
    edestruct IH as [best' [E Hin]];
      [intros m' k' Hin; apply Hc; right; exact Hin |].
    exists best'. split.
    + etransitivity; [exact E |]. rewrite <- app_assoc. reflexivity.
    + destruct Hin as [Hin | Hin]; [| auto].
      destruct (improves c (snd best)); simpl in Hin; [| auto].
      right. left. symmetry. exact Hin.
Qed.

Lemma candidate_pairs_known (m : string) (k : R) :
  In (m, k) candidate_pairs -> known_mode m = true /\ 0 < k.
Proof.
  unfold candidate_pairs, candidates. simpl.
  intros H. repeat (destruct H as [H | H]; [inversion H; subst; split; [reflexivity | lra] |]).
  contradiction.
Qed.

(** ** Segment selection *)

(** On a segment that is not flat every candidate is costed, in table
    order, and the choice is one of the candidates. *)
Lemma choose_best_segment_searches (self : CurveInterpolator) (i : nat)
  (y0 y1 span : R) :
  (i + 1 < length (self_slopes self))%nat ->
  0.05 <= change_ratio y0 y1 ->
  exists m k,
    _choose_best_segment_calls self i y0 y1 span = Ok ((m, k), candidate_pairs)
    /\ In (m, k) candidate_pairs.
Proof.
  intros Hi Hflat. unfold _choose_best_segment_calls.
  rewrite (getitem_nth (self_slopes self) i 0) by lia. cbn [bind].
  replace (Z.of_nat i + 1)%Z with (Z.of_nat (i + 1)) by lia.
  rewrite (getitem_nth (self_slopes self) (i + 1) 0) by lia. cbn [bind].
  fold (change_ratio y0 y1). rewrite Rltb_false by assumption.
  edestruct (search_ok
               (fun mode k => _segment_cost self mode k y0 y1 span
                                (nth i (self_slopes self) 0)
                                (nth (i + 1) (self_slopes self) 0))
               candidate_pairs) as [[[m k] c] [E Hin]].
  - intros m k Hin. apply segment_cost_ok.
    apply (candidate_pairs_known m k Hin).
  - rewrite E. cbn [bind fst app]. exists m, k. split; [reflexivity |].
    destruct Hin as [Hin | Hin]; [| exact Hin].
    simpl in Hin. rewrite Hin. left. reflexivity.
Qed.

(** A flat segment is settled before the candidate loop. *)
Lemma choose_best_flat (self : CurveInterpolator) (i : nat) (y0 y1 span : R) :
  (i + 1 < length (self_slopes self))%nat ->
  change_ratio y0 y1 < 0.05 ->
  _choose_best_segment_calls self i y0 y1 span = Ok (("linear", 1), []).
Proof.
  intros Hi Hflat. unfold _choose_best_segment_calls.
  rewrite (getitem_nth (self_slopes self) i 0) by lia. cbn [bind].
  replace (Z.of_nat i + 1)%Z with (Z.of_nat (i + 1)) by lia.
  rewrite (getitem_nth (self_slopes self) (i + 1) 0) by lia. cbn [bind].
  fold (change_ratio y0 y1). rewrite Rltb_true by assumption. reflexivity.
Qed.

(** C7.  A segment whose relative change [|y1 - y0| / (|y0| + 1e-9)] is
    below [0.05] gets [("linear", 1.0)] at once: [_segment_cost] is not
    evaluated on any candidate (the list of evaluated pairs is empty). *)
Theorem flat_segment_is_linear (self : CurveInterpolator) (i : nat)
  (y0 y1 span : R) :
  (i + 1 < length (self_slopes self))%nat ->
  change_ratio y0 y1 < 0.05 ->
  _choose_best_segment_calls self i y0 y1 span = Ok (("linear", 1), []) /\
  _choose_best_segment self i y0 y1 span = Ok ("linear", 1).
Proof.
  intros Hi Hflat.
  pose proof (choose_best_flat self i y0 y1 span Hi Hflat) as E.
  split; [exact E |].
  unfold _choose_best_segment. rewrite E. reflexivity.
Qed.

Lemma flat_segment_is_linear_witness :
  change_ratio 100 101 < 0.05 /\
  _choose_best_segment_calls interp_12 0 100 101 1 = Ok (("linear", 1), []).
Proof.
  assert (H : change_ratio 100 101 < 0.05).
  { unfold change_ratio. rewrite !Rabs_pos_eq by lra. lra. }
  split; [exact H |].
  apply (flat_segment_is_linear interp_12 0 100 101 1); [simpl; lia | exact H].
Defined.

(** ** The shapes are normalized and monotone *)

Lemma expm1_away (k : R) : 1e-9 <= Rabs k -> 1e-12 <= Rabs (np.expm1 k).
Proof.
  intros Hk. unfold np.expm1.
  destruct (Rle_lt_dec 0 k) as [Hpos | Hneg].
  - rewrite Rabs_pos_eq in Hk by assumption.
    pose proof (exp_ineq1_le k).
    rewrite Rabs_pos_eq by lra. lra.
  - rewrite Rabs_left in Hk by assumption.
    pose proof (exp_ineq1_le (- k)) as H1.
    pose proof (exp_pos k) as H2.
    assert (H3 : exp k * exp (- k) = 1).
    { rewrite <- exp_plus. replace (k + - k) with 0 by lra. apply exp_0. }
    assert (H4 : exp k * (1 + 1e-9) <= 1) by nra.
    rewrite Rabs_left by lra. lra.
Qed.

Lemma exp_ratio_formula (t k : R) :
  1e-9 <= Rabs k -> exp_ratio t k = (exp (k * t) - 1) / (exp k - 1).
Proof.
  intros Hk. unfold exp_ratio.
  rewrite Rltb_false by assumption.
  rewrite Rltb_false by (apply expm1_away, Hk).
  reflexivity.
Qed.

Lemma exp_ratio_mono (k a b : R) : a <= b -> exp_ratio a k <= exp_ratio b k.
Proof.
  intros Hab. destruct (Rlt_le_dec (Rabs k) 1e-9) as [Hs | Hk].
  - unfold exp_ratio. rewrite Rltb_true by assumption. exact Hab.
  - rewrite !exp_ratio_formula by assumption.
    pose proof (expm1_away k Hk) as Hd. unfold np.expm1 in Hd.
    destruct (Rle_lt_dec 0 k) as [Hpos | Hneg].
    + rewrite Rabs_pos_eq in Hk by assumption.
      assert (Hexp : exp (k * a) <= exp (k * b)).
      { destruct (Req_dec (k * a) (k * b)) as [-> | Hne]; [lra |].
        left. apply exp_increasing. nra. }
      pose proof (exp_ineq1_le k).
      apply Rmult_le_compat_r; [| lra].
      left. apply Rinv_0_lt_compat. lra.
    + assert (Hexp : exp (k * b) <= exp (k * a)).
      { destruct (Req_dec (k * a) (k * b)) as [-> | Hne]; [lra |].
        left. apply exp_increasing. nra. }
      assert (Hlt : exp k < 1).
      { rewrite <- exp_0. apply exp_increasing. assumption. }
      unfold Rdiv.
      assert (Hi : / (exp k - 1) < 0) by (apply Rinv_lt_0_compat; lra).
      nra.
Qed.

Lemma exp_ratio_0 (k : R) : exp_ratio 0 k = 0.
Proof.
  destruct (Rlt_le_dec (Rabs k) 1e-9) as [Hs | Hk].
  - unfold exp_ratio. rewrite Rltb_true by assumption. reflexivity.
  - rewrite exp_ratio_formula by assumption.
    rewrite Rmult_0_r, exp_0. unfold Rdiv. lra.
Qed.

Lemma exp_ratio_1 (k : R) : exp_ratio 1 k = 1.
Proof.
  destruct (Rlt_le_dec (Rabs k) 1e-9) as [Hs | Hk].
  - unfold exp_ratio. rewrite Rltb_true by assumption. reflexivity.
  - rewrite exp_ratio_formula by assumption.
    rewrite Rmult_1_r.
    pose proof (expm1_away k Hk) as Hd. unfold np.expm1 in Hd.
    apply Rdiv_diag. intros E. rewrite E, Rabs_R0 in Hd. lra.
Qed.

(** The sigmoid is increasing. *)
Lemma sig_mono (u v : R) : u <= v -> sig u <= sig v.
Proof.
  intros Huv. unfold sig.
  assert (Hexp : exp (- v) <= exp (- u)).
  { destruct (Req_dec u v) as [-> | Hne]; [lra |].
    left. apply exp_increasing. lra. }
  pose proof (exp_pos (- v)). pose proof (exp_pos (- u)).
  unfold Rdiv. rewrite !Rmult_1_l.
  apply Rinv_le_contravar; lra.
Qed.

Lemma logistic_ratio_sig (t s : R) :
  logistic_ratio t s =
  if Rabs (sig (s * (1 - 0.5)) - sig (s * (0 - 0.5))) <? 1e-12 then t
  else (sig (s * (t - 0.5)) - sig (s * (0 - 0.5)))
       / (sig (s * (1 - 0.5)) - sig (s * (0 - 0.5))).
Proof.
  unfold logistic_ratio, sig.
  replace (- (s * (1 - 0.5))) with (- 0.5 * s) by lra.
  replace (- (s * (0 - 0.5))) with (0.5 * s) by lra.
  replace (- (s * (t - 0.5))) with (- s * (t - 0.5)) by lra.
  reflexivity.
Qed.

Lemma logistic_ratio_mono (s a b : R) :
  a <= b -> logistic_ratio a s <= logistic_ratio b s.
Proof.
  intros Hab. rewrite !logistic_ratio_sig.
  set (D := sig (s * (1 - 0.5)) - sig (s * (0 - 0.5))).
  destruct (Rlt_le_dec (Rabs D) 1e-12) as [Hs | Hd].
  - rewrite Rltb_true by assumption. exact Hab.
  - rewrite Rltb_false by assumption.
    destruct (Rle_lt_dec 0 s) as [Hpos | Hneg].
    + assert (H1 : sig (s * (a - 0.5)) <= sig (s * (b - 0.5)))
        by (apply sig_mono; nra).
      assert (H2 : 0 <= D) by (unfold D; pose proof (sig_mono (s * (0 - 0.5)) (s * (1 - 0.5))); nra).
      rewrite Rabs_pos_eq in Hd by assumption.
      assert (Hi : 0 < / D) by (apply Rinv_0_lt_compat; lra).
      unfold Rdiv. nra.
    + assert (H1 : sig (s * (b - 0.5)) <= sig (s * (a - 0.5)))
        by (apply sig_mono; nra).
      assert (H2 : D <= 0) by (unfold D; pose proof (sig_mono (s * (1 - 0.5)) (s * (0 - 0.5))); nra).
      assert (H3 : D < 0).
      { destruct H2 as [H2 | H2]; [exact H2 |]. rewrite H2, Rabs_R0 in Hd. lra. }
      assert (Hi : / D < 0) by (apply Rinv_lt_0_compat; lra).
      unfold Rdiv. nra.
Qed.

Lemma logistic_ratio_0 (s : R) : logistic_ratio 0 s = 0.
Proof.
  rewrite logistic_ratio_sig.
  destruct (_ <? _); [reflexivity |]. unfold Rdiv. lra.
Qed.

Lemma logistic_ratio_1 (s : R) : logistic_ratio 1 s = 1.
Proof.
  rewrite logistic_ratio_sig.
  set (D := sig (s * (1 - 0.5)) - sig (s * (0 - 0.5))).
  destruct (Rlt_le_dec (Rabs D) 1e-12) as [Hs | Hd].
  - rewrite Rltb_true by assumption. reflexivity.
  - rewrite Rltb_false by assumption.
    apply Rdiv_diag. intros E. rewrite E, Rabs_R0 in Hd. lra.
Qed.

Lemma power_mono (k a b : R) :
  0 < k -> 0 <= a -> a <= b -> np.power a k <= np.power b k.
Proof.
  intros Hk Ha Hab. unfold np.power.
  rewrite Reqb_false by lra.
  destruct (Rle_lt_dec a 0) as [Ha0 | Hapos].
  - rewrite (Rltb_false 0 a) by lra.
    destruct (Rle_lt_dec b 0) as [Hb0 | Hbpos].
    + rewrite (Rltb_false 0 b) by lra. lra.
    + rewrite (Rltb_true 0 b) by lra. left. apply exp_pos.
  - rewrite (Rltb_true 0 a), (Rltb_true 0 b) by lra.
    apply Rle_Rpower_l; lra.
Qed.

Lemma power_0 (k : R) : 0 < k -> np.power 0 k = 0.
Proof.
  intros Hk. unfold np.power.
  rewrite Reqb_false by lra. rewrite Rltb_false by lra. reflexivity.
Qed.

Lemma power_1 (k : R) : np.power 1 k = 1.
Proof.
  unfold np.power. destruct (k =? 0); [reflexivity |].
  rewrite Rltb_true by lra.
  unfold Rpower. rewrite ln_1, Rmult_0_r. apply exp_0.
Qed.

Lemma shape_0 (m : string) (k : R) :
  known_mode m = true -> (m = "power" -> 0 < k) -> shape m 0 k = 0.
Proof.
  intros H Hk. apply known_mode_cases in H. unfold shape.
  repeat (destruct H as [H | H]); subst m; simpl.
  - reflexivity.
  - apply power_0. auto.
  - apply exp_ratio_0.
  - apply logistic_ratio_0.
  - rewrite Rmult_0_r, cos_0. lra.
  - replace (PI * 0 / 2) with 0 by lra. apply sin_0.
  - lra.
  - lra.
Qed.

Lemma shape_1 (m : string) (k : R) :
  known_mode m = true -> shape m 1 k = 1.
Proof.
  intros H. apply known_mode_cases in H. unfold shape.
  repeat (destruct H as [H | H]); subst m; simpl.
  - reflexivity.
  - apply power_1.
  - apply exp_ratio_1.
  - apply logistic_ratio_1.
  - rewrite Rmult_1_r, cos_PI. lra.
  - replace (PI * 1 / 2) with (PI / 2) by lra. apply sin_PI2.
  - lra.
  - lra.
Qed.

Lemma shape_mono (m : string) (k a b : R) :
  known_mode m = true -> (m = "power" -> 0 < k) ->
  0 <= a -> a <= b -> b <= 1 -> shape m a k <= shape m b k.
Proof.
  intros H Hk Ha Hab Hb. apply known_mode_cases in H. unfold shape.
  pose proof PI_RGT_0 as Hpi.
  repeat (destruct H as [H | H]); subst m; simpl.
  - exact Hab.
  - apply power_mono; auto.
  - apply exp_ratio_mono, Hab.
  - apply logistic_ratio_mono, Hab.
  - assert (cos (PI * b) <= cos (PI * a)) by (apply cos_decr_1; nra).
    lra.
  - apply sin_incr_1; nra.
  - nra.
  - assert (H1 : a * a <= a) by nra.
    assert (H2 : b * b <= b) by nra.
    assert (H3 : a * b <= a) by nra.
    assert (HP : 0 <= (b - a) * (3 * (a + b) - 2 * (a * a + a * b + b * b)))
      by (apply Rmult_le_pos; lra).
    simpl. lra.
Qed.

Lemma curve_ratio_pair (m : string) (k a b : R) :
  known_mode m = true ->
  _curve_ratio [a; b] m (Scalar k) = Ok [shape m a k; shape m b k].
Proof. intros H. rewrite (curve_ratio_scalar _ m k H). reflexivity. Qed.

(** C6, as the code has it.  In exact arithmetic every shape kind maps 0
    to 0 and 1 to 1 and is non-decreasing on the unit interval, provided
    the parameter of ["power"] is positive and the parameter of ["exp"]
    is at most 709; with a near-zero parameter ["exp"] is the linear
    shape, and so is ["logistic"] when its sigmoid span collapses.  (On
    binary64 numbers [np.expm1 k] is [inf] from about [k = 709.78] on,
    and the ["exp"] shape is then [nan] at [t = 1]: hence the bound,
    which the proof in exact arithmetic does not need.) *)
Theorem shapes_are_easings (mode : string) (k : R) :
  known_mode mode = true ->
  (mode = "power" -> 0 < k) ->
  (mode = "exp" -> k <= 709) ->
  easing mode k /\
  (forall t, mode = "exp" -> Rabs k < 1e-9 ->
     _curve_ratio t mode (Scalar k) = _curve_ratio t "linear" (Scalar k)) /\
  (forall t, mode = "logistic" -> Rabs (logistic_span k) < 1e-12 ->
     _curve_ratio t mode (Scalar k) = _curve_ratio t "linear" (Scalar k)).
Proof.
  intros Hm Hk _. split; [split |].
  - rewrite (curve_ratio_pair mode k 0 1 Hm).
    rewrite (shape_0 mode k Hm Hk), (shape_1 mode k Hm). reflexivity.
  - intros a b Ha Hab Hb. exists (shape mode a k), (shape mode b k).
    split; [apply curve_ratio_pair, Hm |].
    apply shape_mono; assumption.
  - split; intros t -> Hsmall.
    + rewrite !curve_ratio_scalar by reflexivity.
      f_equal. apply map_ext. intros u. unfold shape. simpl.
      unfold exp_ratio. rewrite Rltb_true by assumption. reflexivity.
    + rewrite !curve_ratio_scalar by reflexivity.
      f_equal. apply map_ext. intros u. unfold shape. simpl.
      unfold logistic_ratio. fold (logistic_span k).
      rewrite Rltb_true by assumption. reflexivity.
Qed.

Lemma shapes_are_easings_witness : easing "poly3" 1.
Proof.
  apply (shapes_are_easings "poly3" 1);
    [reflexivity | discriminate | discriminate].
Defined.

(** With parameter [0] the ["power"] shape is the constant [1], so it does
    not map 0 to 0; with parameter [-1] it decreases. *)
Lemma power_zero_is_not_an_easing :
  known_mode "power" = true /\
  _curve_ratio [0; 1] "power" (Scalar 0) = Ok [1; 1] /\
  ~ easing "power" 0 /\
  _curve_ratio [0.5; 1] "power" (Scalar (-1)) = Ok [2; 1].
Proof.
  assert (E : _curve_ratio [0; 1] "power" (Scalar 0) = Ok [1; 1]).
  { rewrite curve_ratio_pair by reflexivity. unfold shape, np.power. simpl.
    rewrite !Reqb_true by reflexivity. reflexivity. }
  split; [reflexivity |]. split; [exact E |]. split.
  - intros [H _]. rewrite E in H. inversion H. lra.
  - rewrite curve_ratio_pair by reflexivity. unfold shape, np.power. simpl.
    rewrite !Reqb_false by lra. rewrite !Rltb_true by lra.
    replace (Rpower 0.5 (-1)) with (Rpower 0.5 (- (1))) by (f_equal; lra).
    replace (Rpower 1 (-1)) with (Rpower 1 (- (1))) by (f_equal; lra).
    rewrite !Rpower_Ropp, !Rpower_1 by lra.
    do 2 f_equal; [lra | f_equal; lra].
Qed.

(** ** The two input forms of [interp_curve] *)

Section InputForms.

Context {A : Argsort}.

(** C2, as the code has it.  A call in which neither input form is fully
    supplied fails with an input error.  A call with the [start], [end],
    [num] form fully supplied uses that form and ignores [x], [y] and
    [new_x], whether they are supplied or not. *)
Theorem input_forms (x y : option (list float64)) (new_x : option (list R))
  (start end_ : option float64) (num : option Z)
  (mode : string) (k : R) (segments : option seglist) (extrapolate : string)
  (new_id : nat) :
  (shorthand_form start end_ num = false ->
   series_form x y new_x = false ->
   interp_curve x y new_x start end_ num mode k segments extrapolate new_id
   = Raise ValueError) /\
  (shorthand_form start end_ num = true ->
   interp_curve x y new_x start end_ num mode k segments extrapolate new_id
   = interp_curve None None None start end_ num mode k segments extrapolate
       new_id).
Proof.
  split.
  - intros Hs Hx. unfold interp_curve.
    destruct start, end_, num; try discriminate; cbn [bind];
      destruct x, y, new_x; try discriminate; reflexivity.
  - intros Hs. unfold interp_curve.
    destruct start, end_, num; try discriminate. reflexivity.
Qed.

End InputForms.

Lemma input_forms_witness :
  interp_curve (A := insertion_argsort) (Some [Finite 0; Finite 1]) None
    (Some [0]) (Some (Finite 100)) None (Some 5%Z) "linear" 1 None "edge" 0
  = Raise ValueError /\
  interp_curve (A := insertion_argsort) (Some [Finite 0; Finite 1])
    (Some [Finite 0; Finite 1]) (Some [0])
    (Some (Finite 100)) (Some (Finite 40)) (Some 5%Z) "linear" 1 None "edge" 0
  = interp_curve (A := insertion_argsort) None None None
      (Some (Finite 100)) (Some (Finite 40)) (Some 5%Z) "linear" 1 None "edge" 0.
Proof.
  split.
  - apply (proj1 (input_forms (A := insertion_argsort)
                    (Some [Finite 0; Finite 1]) None (Some [0])
                    (Some (Finite 100)) None (Some 5%Z)
                    "linear" 1 None "edge" 0%nat)); reflexivity.
  - apply (proj2 (input_forms (A := insertion_argsort)
                    (Some [Finite 0; Finite 1]) (Some [Finite 0; Finite 1])
                    (Some [0]) (Some (Finite 100)) (Some (Finite 40))
                    (Some 5%Z) "linear" 1 None "edge" 0%nat)); reflexivity.
Defined.

(** Both forms at once: [x=[0,1]], [y=[0,1]], [new_x=[0]] together with
    [start=100], [end=40], [num=5].  The call returns the five values of
    the shorthand form. *)
Lemma both_forms_return :
  series_form (Some [Finite 0; Finite 1]) (Some [Finite 0; Finite 1])
    (Some [0]) = true /\
  shorthand_form (Some (Finite 100)) (Some (Finite 40)) (Some 5%Z) = true /\
  interp_curve (A := insertion_argsort) (Some [Finite 0; Finite 1])
    (Some [Finite 0; Finite 1]) (Some [0])
    (Some (Finite 100)) (Some (Finite 40)) (Some 5%Z) "linear" 1 None "edge" 0
  = Ok [100; 85; 70; 55; 40].
Proof.
  split; [reflexivity |]. split; [reflexivity |].
  unfold interp_curve, __init__, _ensure_sorted_xy, _estimate_slopes.
  reval.
  unfold __call__, bindM, get, lift, ret, _single_segment. reval.
  repeat f_equal; lra.
Qed.

(** ** The batch call *)

Section Batch.
Context {A : Argsort}.

Lemma interp_curve_length_mismatch (x y : list float64) (new_x : list R)
  (start end_ : option float64) (num : option Z)
  (mode : string) (k : R) (segments : option seglist) (extrapolate : string)
  (new_id : nat) :
  shorthand_form start end_ num = false ->
  (length x =? length y)%nat = false ->
  interp_curve (Some x) (Some y) (Some new_x) start end_ num mode k segments
    extrapolate new_id = Raise ValueError.
Proof.
  intros Hs Hlen. unfold interp_curve.
  replace (match start, end_, num with
           | Some s, Some e, Some n =>
               nx <- np.linspace 0 1 n ;;
               Ok (Some [Finite 0; Finite 1], Some [s; e], Some nx)
           | _, _, _ => Ok (Some x, Some y, Some new_x)
           end) with (Ok (Some x, Some y, Some new_x)).
  - cbn [bind]. unfold __init__, _ensure_sorted_xy. rewrite Hlen. reflexivity.
  - destruct start, end_, num; try discriminate; reflexivity.
Qed.

Lemma interp_curve_partial_shorthand (x y : option (list float64)) (new_x : option (list R))
  (start end_ : option float64) (num : option Z)
  (mode : string) (k : R) (segments : option seglist) (extrapolate : string)
  (new_id : nat) :
  shorthand_form start end_ num = false ->
  interp_curve x y new_x start end_ num mode k segments extrapolate new_id
  = interp_curve x y new_x None None None mode k segments extrapolate new_id.
Proof.
  intros Hs. unfold interp_curve.
  destruct start, end_, num; try discriminate; reflexivity.
Qed.

Lemma batch_category_single (cfg : config)
  (common_x : option (list float64)) (common_new_x : option (list R))
  (start end_ : option float64) (num : option Z)
  (mode : string) (k : R) (segments : option seglist) (extrapolate : string)
  (new_id : nat) :
  let p := resolve cfg common_x common_new_x start end_ num mode k segments
             extrapolate in
  complete p = true ->
  batch_category cfg common_x common_new_x start end_ num mode k segments
    extrapolate new_id
  = single_call p new_id.
Proof.
  intros p Hc. unfold complete in Hc. unfold single_call.
  unfold batch_category. subst p. cbn [resolve p_x p_y p_new_x p_start p_end p_num p_mode p_k p_segments p_extrapolate] in *.
  change (cfg_get (cfg_start cfg) start) with (layered (cfg_start cfg) start).
  change (cfg_get (cfg_end cfg) end_) with (layered (cfg_end cfg) end_).
  change (cfg_get (cfg_num cfg) num) with (layered (cfg_num cfg) num).
  change (cfg_get (cfg_segments cfg) segments) with (layered (cfg_segments cfg) segments).
  unfold get_or.
  destruct (shorthand_form (layered (cfg_start cfg) start)
              (layered (cfg_end cfg) end_) (layered (cfg_num cfg) num)) eqn:Hs.
  - (* the shorthand form wins *)
    destruct (layered (cfg_start cfg) start) as [s |],
             (layered (cfg_end cfg) end_) as [e |],
             (layered (cfg_num cfg) num) as [n |]; try discriminate.
    reflexivity.
  - simpl in Hc.
    rewrite interp_curve_partial_shorthand by exact Hs.
    assert (Hx : exists x y nx,
               shared (cfg_x cfg) common_x = Some x /\
               category_value (cfg_y cfg) = Some y /\
               shared (cfg_new_x cfg) common_new_x = Some nx).
    { destruct (shared (cfg_x cfg) common_x) as [x |],
        (category_value (cfg_y cfg)) as [y |],
        (shared (cfg_new_x cfg) common_new_x) as [nx |]; try discriminate.
      exists x, y, nx. auto. }
    destruct Hx as (x & y & nx & Ex & Ey & Enx). rewrite Ex, Ey, Enx.
    assert (Ex' : match cfg_x cfg with
                  | Present (Some x) => Ok x
                  | _ => match common_x with
                         | None => Raise ValueError
                         | Some x => Ok x
                         end
                  end = Ok x).
    { unfold shared, category_value in Ex.
      destruct (cfg_x cfg) as [| [x' |]], common_x; congruence. }
    assert (Enx' : match cfg_new_x cfg with
                   | Present (Some nx) => Ok nx
                   | _ => match common_new_x with
                          | None => Raise ValueError
                          | Some nx => Ok nx
                          end
                   end = Ok nx).
    { unfold shared, category_value in Enx.
      destruct (cfg_new_x cfg) as [| [nx' |]], common_new_x; congruence. }
    assert (Ey' : match cfg_y cfg with
                  | Absent => Raise ValueError
                  | Present (Some y) => Ok y
                  | Present None => Raise TypeError
                  end = Ok y).
    { unfold category_value in Ey.
      destruct (cfg_y cfg) as [| [y' |]]; congruence. }
    assert (Hbody :
      (x_used <- Ok x ;; y_used <- Ok y ;;
       if negb (length x_used =? length y_used)%nat then Raise ValueError
       else new_x_used <- Ok nx ;;
            interp_curve (Some x_used) (Some y_used) (Some new_x_used)
              None None None
              match cfg_mode cfg with Some v => v | None => mode end
              match cfg_k cfg with Some v => v | None => k end
              (layered (cfg_segments cfg) segments)
              match cfg_extrapolate cfg with Some v => v | None => extrapolate end
              new_id)
      = interp_curve (Some x) (Some y) (Some nx) None None None
          match cfg_mode cfg with Some m => m | None => mode end
          match cfg_k cfg with Some v => v | None => k end
          (layered (cfg_segments cfg) segments)
          match cfg_extrapolate cfg with Some m => m | None => extrapolate end
          new_id).
    { cbn [bind]. destruct (length x =? length y)%nat eqn:Hlen; cbn [negb].
      - reflexivity.
      - symmetry. apply interp_curve_length_mismatch; [reflexivity | exact Hlen]. }
    rewrite <- Hbody, <- Ex', <- Ey', <- Enx'.
    destruct (layered (cfg_start cfg) start),
      (layered (cfg_end cfg) end_), (layered (cfg_num cfg) num);
      try discriminate; reflexivity.
Qed.

(** C8.  For a category whose configuration resolves into a complete
    single-series call, the batch call on that one category returns, under
    the category's name, what [interp_curve] returns on the resolved
    parameters, and it fails when that call fails. *)
Theorem batch_single_equivalence (name : string) (cfg : config)
  (common_x : option (list float64)) (common_new_x : option (list R))
  (start end_ : option float64) (num : option Z)
  (mode : string) (k : R) (segments : option seglist) (extrapolate : string)
  (new_id : nat) :
  let p := resolve cfg common_x common_new_x start end_ num mode k segments
             extrapolate in
  complete p = true ->
  batch_interp_curve [(name, cfg)] common_x common_new_x start end_ num
    mode k segments extrapolate new_id
  = (r <- single_call p new_id ;; Ok [(name, r)]) /\
  (forall r, single_call p new_id = Ok r ->
     exists d, batch_interp_curve [(name, cfg)] common_x common_new_x
                 start end_ num mode k segments extrapolate new_id = Ok d /\
               dict_get d name = Some r).
Proof.
  intros p Hc.
  assert (E : batch_interp_curve [(name, cfg)] common_x common_new_x
                start end_ num mode k segments extrapolate new_id
              = (r <- single_call p new_id ;; Ok [(name, r)])).
  { unfold batch_interp_curve. cbn [batch_loop].
    rewrite (batch_category_single cfg common_x common_new_x start end_ num
               mode k segments extrapolate new_id Hc).
    reflexivity. }
  split; [exact E |].
  intros r Hr. rewrite E, Hr. cbn [bind].
  exists [(name, r)]. split; [reflexivity |].
  cbn [dict_get]. rewrite String.eqb_refl. reflexivity.
Qed.
End Batch.

(** Category ["A"] gives [start=100] and [mode="linear"]; the batch level
    gives [end=40] and [num=5]. *)
Lemma batch_single_equivalence_witness :
  let cfg := {| cfg_x := Absent; cfg_y := Absent; cfg_new_x := Absent;
                cfg_start := Present (Some (Finite 100));
                cfg_end := Absent; cfg_num := Absent;
                cfg_mode := Some "linear"; cfg_k := None;
                cfg_segments := Absent; cfg_extrapolate := None |} in
  batch_interp_curve (A := insertion_argsort) [("A", cfg)] None None
    None (Some (Finite 40)) (Some 5%Z) "auto" 1 None "edge" 0
  = (r <- interp_curve (A := insertion_argsort) None None None
            (Some (Finite 100)) (Some (Finite 40)) (Some 5%Z)
            "linear" 1 None "edge" 0 ;;
     Ok [("A", r)]).
Proof.
  intros cfg.
  apply (proj1 (batch_single_equivalence (A := insertion_argsort) "A" cfg
                  None None None (Some (Finite 40)) (Some 5%Z)
                  "auto" 1 None "edge" 0%nat eq_refl)).
Defined.

(** ** Preprocessing *)

Lemma diff_cons (a b : R) (l : list R) :
  np.diff (a :: b :: l) = (b - a) :: np.diff (b :: l).
Proof. reflexivity. Qed.

Lemma diff_length (a : list R) : length (np.diff a) = (length a - 1)%nat.
Proof.
  induction a as [| a0 [| a1 l] IH]; try reflexivity.
  rewrite diff_cons. cbn [length] in *. rewrite IH. lia.
Qed.

Lemma Rle_trans' : Relations_1.Transitive Rle.
Proof. intros a b c. apply Rle_trans. Qed.

(** No negative difference: the array is ascending. *)
Lemma no_negative_diff (a : list R) :
  existsb (fun d => d <? 0) (np.diff a) = false <-> StronglySorted Rle a.
Proof.
  split.
  - intros H. apply Sorted_StronglySorted; [exact Rle_trans' |].
    induction a as [| a0 [| a1 l] IH]; try (repeat constructor; fail).
    rewrite diff_cons in H. cbn [existsb] in H.
    apply orb_false_elim in H. destruct H as [H0 H].
    constructor; [apply IH, H |]. constructor.
    unfold Rltb in H0. destruct (Rlt_dec (a1 - a0) 0); [discriminate | lra].
  - intros H. apply StronglySorted_Sorted in H.
    induction a as [| a0 [| a1 l] IH]; try reflexivity.
    rewrite diff_cons. cbn [existsb].
    inversion H as [| ? ? Hs Hh]; subst.
    rewrite (IH Hs), orb_false_r.
    inversion Hh; subst. apply Rltb_false. lra.
Qed.

Lemma take_length (a : list R) (idx : list nat) :
  length (np.take a idx) = length idx.
Proof. unfold np.take. apply length_map. Qed.

Lemma combine_take (a b : list R) (idx : list nat) :
  combine (np.take a idx) (np.take b idx)
  = map (fun i => (nth i a 0, nth i b 0)) idx.
Proof. unfold np.take. induction idx; simpl; [reflexivity | now rewrite IHidx]. Qed.

Lemma combine_seq (a b : list R) :
  length a = length b ->
  map (fun i => (nth i a 0, nth i b 0)) (seq 0 (length a)) = combine a b.
Proof.
  revert b. induction a as [| a0 a IH]; intros [| b0 b] H; try discriminate.
  - reflexivity.
  - cbn [length seq map combine nth]. f_equal.
    rewrite <- seq_shift, map_map. apply IH. simpl in H. lia.
Qed.

Lemma map_fst_combine {X Y : Type} (a : list X) (b : list Y) :
  length a = length b -> map fst (combine a b) = a.
Proof.
  revert b. induction a; intros [| b0 b] H; simpl in *; try discriminate; try reflexivity.
  f_equal. apply IHa. lia.
Qed.

Lemma map_snd_combine {X Y : Type} (a : list X) (b : list Y) :
  length a = length b -> map snd (combine a b) = b.
Proof.
  revert b. induction a; intros [| b0 b] H; simpl in *; try discriminate; try reflexivity.
  f_equal. apply IHa. lia.
Qed.

(** The mask of step 4 selects what [drop_close] keeps. *)
Lemma compress_drop_close (prev : R) (sx sy : list R) :
  length sx = length sy ->
  let mask := map (fun d => 1e-12 <? d) (np.diff (prev :: sx)) in
  np.compress mask sx = map fst (drop_close prev (combine sx sy)) /\
  np.compress mask sy = map snd (drop_close prev (combine sx sy)).
Proof.
  revert prev sy. induction sx as [| x0 sx IH]; intros prev [| y0 sy] H;
    try discriminate.
  - split; reflexivity.
  - cbn zeta. rewrite diff_cons. cbn [map np.compress combine drop_close fst].
    destruct (IH x0 sy) as [IHx IHy]; [simpl in H; lia |]. cbn zeta in IHx, IHy.
    destruct (1e-12 <? x0 - prev); cbn [map fst snd]; rewrite IHx, IHy;
      split; reflexivity.
Qed.

Lemma compress_remove_close (sx sy : list R) :
  length sx = length sy ->
  let mask := true :: map (fun d => 1e-12 <? d) (np.diff sx) in
  np.compress mask sx = map fst (remove_close (combine sx sy)) /\
  np.compress mask sy = map snd (remove_close (combine sx sy)).
Proof.
  destruct sx as [| x0 sx], sy as [| y0 sy]; intros H; try discriminate.
  - split; reflexivity.
  - cbn zeta. cbn [np.compress combine remove_close map fst snd].
    destruct (compress_drop_close x0 sx sy) as [Ex Ey]; [simpl in H; lia |].
    cbn zeta in Ex, Ey. rewrite Ex, Ey. split; reflexivity.
Qed.

Lemma compress_all_true {X : Type} (mask : list bool) (a : list X) :
  forallb (fun b => b) mask = true -> length mask = length a ->
  np.compress mask a = a.
Proof.
  revert a. induction mask as [| m mask IH]; intros [| a0 a] Hall Hlen;
    try discriminate; try reflexivity.
  cbn [forallb] in Hall. apply andb_prop in Hall. destruct Hall as [-> Hall].
  cbn [np.compress]. f_equal. apply IH; [exact Hall | simpl in Hlen; lia].
Qed.

(** What is kept after an ascending prefix is more than [1e-12] above it. *)
Lemma drop_close_gap (prev : R) (l : list (R * R)) :
  StronglySorted Rle (prev :: map fst l) ->
  Sorted gap (map fst (drop_close prev l)) /\
  forall b, b <= prev -> HdRel gap b (map fst (drop_close prev l)).
Proof.
  revert prev. induction l as [| [x0 y0] l IH]; intros prev Hs.
  - split; [constructor | intros; constructor].
  - cbn [drop_close fst map] in *.
    inversion Hs as [| ? ? Hs' Hall]; subst.
    destruct (IH x0 Hs') as [IHs IHh].
    inversion Hall as [| ? ? Hle Hall']; subst.
    destruct (Rlt_dec 1e-12 (x0 - prev)) as [Hgap | Hclose].
    + rewrite Rltb_true by exact Hgap. cbn [map fst]. split.
      * constructor; [exact IHs | apply IHh; lra].
      * intros b Hb. constructor. unfold gap. lra.
    + rewrite Rltb_false by lra. split; [exact IHs |].
      intros b Hb. apply IHh. lra.
Qed.

Lemma remove_close_gap (l : list (R * R)) :
  StronglySorted Rle (map fst l) -> Sorted gap (map fst (remove_close l)).
Proof.
  destruct l as [| [x0 y0] l]; intros Hs; [constructor |].
  cbn [remove_close map fst].
  destruct (drop_close_gap x0 l Hs) as [Hsorted Hhd].
  constructor; [exact Hsorted | apply Hhd; lra].
Qed.

Lemma map2_length {X Y Z : Type} (f : X -> Y -> Z) (a : list X) (b : list Y) :
  length (np.map2 f a b) = Nat.min (length a) (length b).
Proof.
  revert b. induction a; intros [| b0 b]; simpl; try reflexivity.
  now rewrite IHa.
Qed.

Lemma estimate_slopes_ok (x y : list R) :
  length x = length y -> (2 <= length x)%nat ->
  exists s, _estimate_slopes x y = Ok s /\ length s = length x.
Proof.
  intros Hlen Hn. unfold _estimate_slopes.
  destruct (length x =? 2)%nat eqn:E.
  - eexists. split; [reflexivity |]. unfold np.full_like.
    rewrite length_map. congruence.
  - apply Nat.eqb_neq in E.
    rewrite (getitem_0 (np.diff y) 0) by (rewrite diff_length; lia).
    rewrite (getitem_0 (np.diff x) 0) by (rewrite diff_length; lia).
    rewrite (getitem_m1 (np.diff y) 0) by (rewrite diff_length; lia).
    rewrite (getitem_m1 (np.diff x) 0) by (rewrite diff_length; lia).
    cbn [bind]. eexists. split; [reflexivity |].
    cbn [length]. rewrite length_app, !map2_length, !length_skipn, !length_firstn.
    cbn [length]. lia.
Qed.

Section Preprocessing.
Context {A : Argsort}.
Hypothesis argsort_ok : argsort_spec A.

Lemma ensure_sorted_spec (x y : list float64) :
  length x = length y ->
  forallb isfinite x = true -> forallb isfinite y = true ->
  exists sorted : list (R * R),
    Permutation sorted (combine (map to_R x) (map to_R y)) /\
    StronglySorted Rle (map fst sorted) /\
    (StronglySorted Rle (map to_R x) ->
     sorted = combine (map to_R x) (map to_R y)) /\
    _ensure_sorted_xy x y
    = Ok (map fst (remove_close sorted), map snd (remove_close sorted)).
Proof.
  intros Hlen Hfx Hfy.
  assert (Hlen' : length (map to_R x) = length (map to_R y))
    by (rewrite !length_map; exact Hlen).
  unfold _ensure_sorted_xy.
  rewrite Hlen, Nat.eqb_refl, Hfx, Hfy. cbn [negb orb].
  set (xs := map to_R x) in *. set (ys := map to_R y) in *.
  assert (Hfinal : forall sx sy, length sx = length sy ->
    (let valid_mask := true :: map (fun d => 1e-12 <? d) (np.diff sx) in
     if negb (forallb (fun b => b) valid_mask)
     then Ok (np.compress valid_mask sx, np.compress valid_mask sy)
     else Ok (sx, sy))
    = Ok (map fst (remove_close (combine sx sy)),
          map snd (remove_close (combine sx sy)))).
  { intros sx sy Hl. cbn zeta.
    destruct (compress_remove_close sx sy Hl) as [Ex Ey]. cbn zeta in Ex, Ey.
    destruct (forallb (fun b => b)
                (true :: map (fun d => 1e-12 <? d) (np.diff sx))) eqn:Hall;
      cbn [negb].
    - rewrite <- Ex, <- Ey.
      destruct sx as [| x0 sx], sy as [| y0 sy]; try discriminate;
        [reflexivity |].
      rewrite !compress_all_true; try reflexivity; try exact Hall;
        cbn [length]; rewrite length_map, diff_length; cbn [length];
        simpl in Hl; lia.
    - rewrite Ex, Ey. reflexivity. }
  destruct (existsb (fun d => d <? 0) (np.diff xs)) eqn:Hneg.
  - exists (combine (np.take xs (argsort xs)) (np.take ys (argsort xs))).
    destruct (argsort_ok xs) as [Hperm Hsorted].
    assert (Hl : length (np.take xs (argsort xs))
                 = length (np.take ys (argsort xs)))
      by (rewrite !take_length; reflexivity).
    repeat split.
    + rewrite combine_take, <- (combine_seq xs ys Hlen').
      apply Permutation_map, Hperm.
    + rewrite map_fst_combine by exact Hl. exact Hsorted.
    + intros Hs. apply no_negative_diff in Hs. congruence.
    + apply Hfinal, Hl.
  - exists (combine xs ys). repeat split.
    + apply Permutation_refl.
    + rewrite map_fst_combine by exact Hlen'. apply no_negative_diff, Hneg.
    + apply Hfinal, Hlen'.
Qed.

End Preprocessing.

(** ** Construction *)

Section Construction.
Context {A : Argsort}.
Hypothesis argsort_ok : argsort_spec A.

(** What the constructor does with equal-length finite arrays. *)
Lemma construction_spec (x y : list float64) :
  length x = length y ->
  forallb isfinite x = true -> forallb isfinite y = true ->
  exists sorted : list (R * R),
    Permutation sorted (combine (map to_R x) (map to_R y)) /\
    StronglySorted Rle (map fst sorted) /\
    (StronglySorted Rle (map to_R x) ->
     sorted = combine (map to_R x) (map to_R y)) /\
    let kept := remove_close sorted in
    _ensure_sorted_xy x y = Ok (map fst kept, map snd kept) /\
    Sorted gap (map fst kept) /\
    ((length kept < 2)%nat /\ __init__ x y = Raise ValueError \/
     (2 <= length kept)%nat /\
     exists self, __init__ x y = Ok self /\
                  self_x self = map fst kept /\ self_y self = map snd kept /\
                  valid self /\ fresh self).
Proof.
  intros Hlen Hfx Hfy.
  destruct (ensure_sorted_spec argsort_ok x y Hlen Hfx Hfy)
    as (sorted & Hperm & Hsorted & Hsame & E).
  exists sorted.
  split; [exact Hperm |]. split; [exact Hsorted |]. split; [exact Hsame |].
  cbn zeta. split; [exact E |].
  pose proof (remove_close_gap sorted Hsorted) as Hgap.
  split; [exact Hgap |].
  unfold __init__. rewrite E. cbn [bind]. rewrite !length_map.
  destruct (length (remove_close sorted) <? 2)%nat eqn:Hn.
  - left. apply Nat.ltb_lt in Hn. split; [exact Hn | reflexivity].
  - right. apply Nat.ltb_ge in Hn. split; [exact Hn |].
    destruct (estimate_slopes_ok (map fst (remove_close sorted))
                (map snd (remove_close sorted))) as (s & Es & Hs);
      [rewrite !length_map; reflexivity | rewrite length_map; exact Hn |].
    rewrite Es. cbn [bind]. eexists. split; [reflexivity |].
    cbn [self_x self_y]. repeat split; cbn; rewrite ?length_map; try assumption;
      try reflexivity.
    rewrite Hs, length_map. reflexivity.
Qed.

Lemma init_valid (x y : list float64) (self : CurveInterpolator) :
  __init__ x y = Ok self -> valid self /\ fresh self.
Proof.
  intros E.
  destruct (length x =? length y)%nat eqn:Hlen;
    [| unfold __init__, _ensure_sorted_xy in E; rewrite Hlen in E; discriminate].
  apply Nat.eqb_eq in Hlen.
  destruct (forallb isfinite x) eqn:Hfx;
    [| unfold __init__, _ensure_sorted_xy in E;
       rewrite Hlen, Nat.eqb_refl, Hfx in E; discriminate].
  destruct (forallb isfinite y) eqn:Hfy;
    [| unfold __init__, _ensure_sorted_xy in E;
       rewrite Hlen, Nat.eqb_refl, Hfx, Hfy in E; discriminate].
  destruct (construction_spec x y Hlen Hfx Hfy)
    as (sorted & _ & _ & _ & _ & _ & [[_ Hr] | [_ (self' & E' & _ & _ & Hv & Hf)]]).
  - congruence.
  - assert (self' = self) by congruence. subst. auto.
Qed.

(** C4.  For equal-length finite arrays, preprocessing pairs the samples,
    sorts the pairs by [x] when [x] is not already ascending (the pairs
    stay together; ascending input is left as it is), then removes every
    sample whose [x] is within [1e-12] of the [x] preceding it in the
    sorted sequence, the first sample being kept.  The result has strictly
    increasing [x] with consecutive differences above [1e-12]; the
    constructor raises an input error when fewer than two samples remain
    and otherwise yields an interpolator over that Sample Set. *)
Theorem preprocessing_yields_sample_set (x y : list float64) :
  length x = length y ->
  forallb isfinite x = true -> forallb isfinite y = true ->
  exists sorted : list (R * R),
    Permutation sorted (combine (map to_R x) (map to_R y)) /\
    StronglySorted Rle (map fst sorted) /\
    (StronglySorted Rle (map to_R x) ->
     sorted = combine (map to_R x) (map to_R y)) /\
    let kept := remove_close sorted in
    _ensure_sorted_xy x y = Ok (map fst kept, map snd kept) /\
    Sorted gap (map fst kept) /\
    ((length kept < 2)%nat /\ __init__ x y = Raise ValueError \/
     (2 <= length kept)%nat /\
     exists self, __init__ x y = Ok self /\
                  self_x self = map fst kept /\ self_y self = map snd kept /\
                  valid self /\ fresh self).
Proof. apply construction_spec. Qed.

End Construction.

(** Insertion argsort meets the contract. *)
Lemma insert_index_perm (a : list R) (i : nat) (idx : list nat) :
  Permutation (insert_index a i idx) (i :: idx).
Proof.
  induction idx as [| j idx IH]; cbn [insert_index]; [reflexivity |].
  destruct (nth i a 0 <? nth j a 0); [reflexivity |].
  rewrite IH. apply perm_swap.
Qed.

Lemma insert_index_sorted (a : list R) (i : nat) (idx : list nat) :
  StronglySorted Rle (np.take a idx) ->
  StronglySorted Rle (np.take a (insert_index a i idx)).
Proof.
  unfold np.take. induction idx as [| j idx IH]; intros Hs; cbn [insert_index map].
  - repeat constructor.
  - inversion Hs as [| ? ? Hs' Hall]; subst.
    destruct (Rlt_dec (nth i a 0) (nth j a 0)) as [Hlt | Hge].
    + rewrite Rltb_true by exact Hlt. cbn [map].
      constructor; [exact Hs |].
      constructor; [lra |].
      eapply Forall_impl; [| exact Hall]. intros; cbn in *; lra.
    + rewrite Rltb_false by lra. cbn [map].
      constructor; [apply IH, Hs' |].
      assert (Hp : Permutation (map (fun i0 => nth i0 a 0) (insert_index a i idx))
                     (nth i a 0 :: map (fun i0 => nth i0 a 0) idx)).
      { change (nth i a 0 :: map (fun i0 => nth i0 a 0) idx)
          with (map (fun i0 => nth i0 a 0) (i :: idx)).
        apply Permutation_map, insert_index_perm. }
      eapply Permutation_Forall; [symmetry; exact Hp |].
      constructor; [lra | exact Hall].
Qed.

Lemma insertion_fold (a : list R) (l acc : list nat) :
  StronglySorted Rle (np.take a acc) ->
  Permutation (fold_left (fun idx i => insert_index a i idx) l acc) (l ++ acc)
  /\ StronglySorted Rle
       (np.take a (fold_left (fun idx i => insert_index a i idx) l acc)).
Proof.
  revert acc. induction l as [| i l IH]; intros acc Hs; cbn [fold_left app].
  - split; [reflexivity | exact Hs].
  - destruct (IH (insert_index a i acc) (insert_index_sorted a i acc Hs))
      as [Hp Hs'].
    split; [| exact Hs'].
    rewrite Hp. rewrite insert_index_perm. symmetry. apply Permutation_middle.
Qed.

Lemma insertion_argsort_ok : argsort_spec insertion_argsort.
Proof.
  intros a. unfold argsort, insertion_argsort.
  destruct (insertion_fold a (seq 0 (length a)) []) as [Hp Hs];
    [constructor |].
  split; [| exact Hs]. rewrite Hp, app_nil_r. reflexivity.
Qed.

(** [x = [3, 1, 1, 2]], [y = [30, 10, 11, 20]]: the samples are sorted and
    the second sample at [x = 1] is dropped. *)
Lemma preprocessing_example :
  _ensure_sorted_xy (A := insertion_argsort)
    [Finite 3; Finite 1; Finite 1; Finite 2]
    [Finite 30; Finite 10; Finite 11; Finite 20]
  = Ok ([1; 2; 3], [10; 20; 30]).
Proof.
  unfold _ensure_sorted_xy, argsort, insertion_argsort, np.take. reval.
  reflexivity.
Qed.

Lemma preprocessing_yields_sample_set_witness :
  exists sorted : list (R * R),
    Permutation sorted (combine [3; 1; 1; 2] [30; 10; 11; 20]) /\
    StronglySorted Rle (map fst sorted) /\
    Sorted gap (map fst (remove_close sorted)) /\
    _ensure_sorted_xy (A := insertion_argsort)
      [Finite 3; Finite 1; Finite 1; Finite 2]
      [Finite 30; Finite 10; Finite 11; Finite 20]
    = Ok (map fst (remove_close sorted), map snd (remove_close sorted)).
Proof.
  destruct (preprocessing_yields_sample_set (A := insertion_argsort)
              insertion_argsort_ok
              [Finite 3; Finite 1; Finite 1; Finite 2]
              [Finite 30; Finite 10; Finite 11; Finite 20]
              eq_refl eq_refl eq_refl)
    as (sorted & Hperm & Hsorted & _ & E & Hgap & _).
  exists sorted. repeat split; assumption.
Defined.

(** ** Multi-segment evaluation *)

Lemma mapM_map_ok {X Y Z : Type} (f : Y -> result Z) (g : X -> Y) (h : X -> Z)
  (l : list X) :
  (forall a, In a l -> f (g a) = Ok (h a)) ->
  mapM f (map g l) = Ok (map h l).
Proof.
  induction l as [| a l IH]; intros H; [reflexivity |].
  cbn [map mapM]. rewrite (H a (or_introl eq_refl)). cbn [bind].
  rewrite IH by (intros; apply H; right; assumption). reflexivity.
Qed.

Lemma map2_map {X Y Z W : Type} (f : Y -> Z -> W) (g : X -> Y) (h : X -> Z)
  (l : list X) :
  np.map2 f (map g l) (map h l) = map (fun a => f (g a) (h a)) l.
Proof. induction l; simpl; [reflexivity | now rewrite IHl]. Qed.

Lemma compress_length_eq {X Y : Type} (mask : list bool) (a : list X) (b : list Y) :
  length a = length b ->
  length (np.compress mask a) = length (np.compress mask b).
Proof.
  revert a b. induction mask as [| m mask IH]; intros [| a0 a] [| b0 b] H;
    try discriminate; try reflexivity.
  cbn [np.compress]. destruct m; cbn [length]; rewrite (IH a b); auto.
Qed.

Lemma place_fill (m : string) (mode_arr : list string) (t k ratio : list R) :
  length t = length mode_arr -> length k = length mode_arr ->
  length ratio = length mode_arr ->
  let mask := map (fun m' => String.eqb m' m) mode_arr in
  np.place mask (np.map2 (shape m) (np.compress mask t) (np.compress mask k))
    ratio
  = fill [m] mode_arr t k ratio.
Proof.
  revert t k ratio.
  induction mode_arr as [| m' mode_arr IH]; intros [| t0 t] [| k0 k] [| r0 ratio];
    intros Ht Hk Hr; try discriminate; try reflexivity.
  cbn zeta. cbn [map np.compress fill existsb].
  destruct (String.eqb_spec m' m) as [-> | Hne]; cbn [orb].
  - cbn [np.map2 np.place]. f_equal.
    apply IH; simpl in *; lia.
  - cbn [np.place]. f_equal. apply IH; simpl in *; lia.
Qed.

Lemma fill_length (done mode_arr : list string) (t k ratio : list R) :
  length t = length mode_arr -> length k = length mode_arr ->
  length ratio = length mode_arr ->
  length (fill done mode_arr t k ratio) = length mode_arr.
Proof.
  revert t k ratio.
  induction mode_arr as [| m' mode_arr IH]; intros [| t0 t] [| k0 k] [| r0 ratio];
    intros Ht Hk Hr; try discriminate; try reflexivity.
  cbn [fill length]. f_equal. apply IH; simpl in *; lia.
Qed.

Lemma fill_fill (m : string) (done mode_arr : list string) (t k ratio : list R) :
  length t = length mode_arr -> length k = length mode_arr ->
  length ratio = length mode_arr ->
  fill done mode_arr t k (fill [m] mode_arr t k ratio)
  = fill (m :: done) mode_arr t k ratio.
Proof.
  revert t k ratio.
  induction mode_arr as [| m' mode_arr IH]; intros [| t0 t] [| k0 k] [| r0 ratio];
    intros Ht Hk Hr; try discriminate; try reflexivity.
  cbn [fill existsb]. f_equal.
  - destruct (String.eqb_spec m' m) as [-> | Hne]; cbn [orb].
    + destruct (existsb (String.eqb m) done); reflexivity.
    + reflexivity.
  - apply IH; simpl in *; lia.
Qed.

Lemma fill_nil (mode_arr : list string) (t k ratio : list R) :
  length t = length mode_arr -> length k = length mode_arr ->
  length ratio = length mode_arr ->
  fill [] mode_arr t k ratio = ratio.
Proof.
  revert t k ratio.
  induction mode_arr as [| m' mode_arr IH]; intros [| t0 t] [| k0 k] [| r0 ratio];
    intros Ht Hk Hr; try discriminate; try reflexivity.
  cbn [fill existsb]. f_equal. apply IH; simpl in *; lia.
Qed.

Lemma ratio_loop_spec (modes mode_arr : list string) (t k ratio : list R) :
  length t = length mode_arr -> length k = length mode_arr ->
  length ratio = length mode_arr ->
  (forall m, In m modes -> known_mode m = true) ->
  ratio_loop modes mode_arr t k ratio = Ok (fill modes mode_arr t k ratio).
Proof.
  revert ratio. induction modes as [| m modes IH]; intros ratio Ht Hk Hr Hknown.
  - cbn [ratio_loop]. rewrite fill_nil by assumption. reflexivity.
  - cbn [ratio_loop].
    rewrite curve_ratio_array;
      [| apply Hknown; left; reflexivity
       | apply compress_length_eq; congruence ].
    cbn [bind]. rewrite place_fill by assumption.
    rewrite IH.
    + rewrite fill_fill by assumption. reflexivity.
    + exact Ht.
    + exact Hk.
    + apply fill_length; assumption.
    + intros m' Hin. apply Hknown. right. exact Hin.
Qed.

Lemma fill_map {X : Type} (done : list string) (gm : X -> string)
  (gt gk gr : X -> R) (l : list X) :
  fill done (map gm l) (map gt l) (map gk l) (map gr l)
  = map (fun a => if existsb (String.eqb (gm a)) done
                  then shape (gm a) (gt a) (gk a) else gr a) l.
Proof. induction l; cbn [map fill]; [reflexivity | now rewrite IHl]. Qed.

Lemma existsb_unique (m : string) (mode_arr : list string) :
  In m mode_arr -> existsb (String.eqb m) (unique mode_arr) = true.
Proof.
  intros Hin. apply existsb_exists. exists m. split.
  - unfold unique. apply nodup_In. exact Hin.
  - apply String.eqb_refl.
Qed.

(** The loop over the distinct modes computes, entry by entry, the shape of
    the mode of the entry. *)
Lemma ratio_loop_map {X : Type} (gm : X -> string) (gt gk : X -> R)
  (l : list X) :
  (forall a, In a l -> known_mode (gm a) = true) ->
  ratio_loop (unique (map gm l)) (map gm l) (map gt l) (map gk l)
    (map (fun _ => 0) (map gt l))
  = Ok (map (fun a => shape (gm a) (gt a) (gk a)) l).
Proof.
  intros Hknown. rewrite map_map.
  rewrite ratio_loop_spec; rewrite ?length_map; try reflexivity.
  - rewrite fill_map. f_equal. apply map_ext_in. intros a Hin.
    rewrite existsb_unique; [reflexivity |]. apply in_map, Hin.
  - intros m Hin. unfold unique in Hin. apply nodup_In in Hin.
    apply in_map_iff in Hin. destruct Hin as (a & <- & Hin). apply Hknown, Hin.
Qed.

Lemma interval_bound (x : list R) (q : R) :
  (2 <= length x)%nat -> (interval x q + 1 < length x)%nat.
Proof. intros H. unfold interval, np.clipZ. lia. Qed.

Lemma interval_index (x : list R) (q : R) :
  (2 <= length x)%nat ->
  np.clipZ (Z.of_nat (np.searchsorted_right x q) - 1) 0
    (Z.of_nat (length x) - 1 - 1)
  = Z.of_nat (interval x q).
Proof. intros H. unfold interval, np.clipZ. lia. Qed.

Lemma fancy_nth {X : Type} (a : list X) (d : X) {Q : Type} (g : Q -> nat)
  (l : list Q) :
  (forall q, In q l -> (g q < length a)%nat) ->
  fancy a (map (fun q => Z.of_nat (g q)) l) = Ok (map (fun q => nth (g q) a d) l).
Proof.
  intros H. unfold fancy. apply mapM_map_ok.
  intros q Hin. apply getitem_nth, H, Hin.
Qed.

Lemma map2_map_r {X Z W : Type} (f : X -> Z -> W) (h : X -> Z) (l : list X) :
  np.map2 f l (map h l) = map (fun a => f a (h a)) l.
Proof. induction l; simpl; [reflexivity | now rewrite IHl]. Qed.

Section MultiSegment.

Variable self : CurveInterpolator.
Variable segments : seglist.
Variable new_x : list R.

Let x := self_x self.
Let y := self_y self.

Hypothesis same_length : length x = length y.
Hypothesis two_points : (2 <= length x)%nat.
Hypothesis miss : cache_miss self segments.
Hypothesis enough : (length x - 1 <= length (seg_items segments))%nat.
Hypothesis known :
  forall q, In q new_x ->
    known_mode (nth (interval x q) (seg_modes segments) "") = true.

Lemma multi_segment_spec :
  _multi_segment new_x segments self
  = (set_seg_cache self (seg_modes segments) (seg_ks segments)
       (seg_id segments),
     Ok (map (segment_value x y (seg_modes segments) (seg_ks segments)) new_x)).
Proof.
  unfold _multi_segment, bindM, get, lift, put, ret.
  fold x y.
  assert (Hidx :
    map (fun i => np.clipZ i 0 (Z.of_nat (length x) - 1 - 1))
      (map (fun q => (Z.of_nat (np.searchsorted_right x q) - 1)%Z) new_x)
    = map (fun q => Z.of_nat (interval x q)) new_x).
  { rewrite map_map. apply map_ext. intros q. apply interval_index, two_points. }
  rewrite Hidx.
  assert (Hidx1 :
    map (fun i => (i + 1)%Z) (map (fun q => Z.of_nat (interval x q)) new_x)
    = map (fun q => Z.of_nat (interval x q + 1)) new_x).
  { rewrite map_map. apply map_ext. intros q. lia. }
  rewrite Hidx1.
  rewrite (fancy_nth x 0 (fun q => interval x q))
    by (intros q _; pose proof (interval_bound x q two_points); lia).
  rewrite (fancy_nth x 0 (fun q => (interval x q + 1)%nat))
    by (intros q _; pose proof (interval_bound x q two_points); lia).
  rewrite (fancy_nth y 0 (fun q => interval x q))
    by (intros q _; pose proof (interval_bound x q two_points); lia).
  rewrite (fancy_nth y 0 (fun q => (interval x q + 1)%nat))
    by (intros q _; pose proof (interval_bound x q two_points); lia).
  assert (Hmiss : match self_seg_cache_id self with
                  | Some id => negb (id =? seg_id segments)%nat
                  | None => true
                  end = true).
  { unfold cache_miss in miss. destruct (self_seg_cache_id self) as [id |];
      [| reflexivity].
    destruct (Nat.eqb_spec id (seg_id segments)); [congruence | reflexivity]. }
  rewrite Hmiss. cbn [set_seg_cache self_seg_modes_cached self_seg_ks_cached].
  fold (seg_modes segments). fold (seg_ks segments).
  rewrite (fancy_nth (seg_modes segments) "" (fun q => interval x q)).
  2:{ intros q _. pose proof (interval_bound x q two_points).
      unfold seg_modes. rewrite length_map. lia. }
  rewrite (fancy_nth (seg_ks segments) 0 (fun q => interval x q)).
  2:{ intros q _. pose proof (interval_bound x q two_points).
      unfold seg_ks. rewrite length_map. lia. }
  rewrite !map2_map, !map2_map_r, !map_map, !map2_map.
  rewrite (ratio_loop_map
             (fun q => nth (interval x q) (seg_modes segments) "")
             (fun q => np.clip
                         ((q - nth (interval x q) x 0)
                          / (if nth (interval x q + 1) x 0
                                - nth (interval x q) x 0 <? 1e-12
                             then 1
                             else nth (interval x q + 1) x 0
                                  - nth (interval x q) x 0)) 0 1)
             (fun q => nth (interval x q) (seg_ks segments) 0)
             new_x known).
  rewrite !map2_map. reflexivity.
Qed.
End MultiSegment.

(** ** Intervals *)

Lemma searchsorted_le_length (x : list R) (q : R) :
  (np.searchsorted_right x q <= length x)%nat.
Proof.
  induction x as [| a x IH]; cbn [np.searchsorted_right length]; [lia |].
  destruct (a <=? q); lia.
Qed.

Lemma searchsorted_prefix (x : list R) (q : R) (j : nat) :
  (j < np.searchsorted_right x q)%nat -> nth j x 0 <= q.
Proof.
  revert j. induction x as [| a x IH]; intros j Hj;
    cbn [np.searchsorted_right] in Hj; [lia |].
  destruct (Rle_dec a q) as [Hle | Hgt].
  - rewrite Rleb_true in Hj by exact Hle.
    destruct j as [| j]; cbn [nth]; [exact Hle | apply IH; lia].
  - rewrite Rleb_false in Hj by lra. lia.
Qed.

Lemma searchsorted_stop (x : list R) (q : R) :
  (np.searchsorted_right x q < length x)%nat ->
  q < nth (np.searchsorted_right x q) x 0.
Proof.
  induction x as [| a x IH]; cbn [np.searchsorted_right length]; [lia |].
  destruct (Rle_dec a q) as [Hle | Hgt].
  - rewrite Rleb_true by exact Hle. intros H. cbn [nth]. apply IH. lia.
  - rewrite Rleb_false by lra. intros _. cbn [nth]. lra.
Qed.

Lemma searchsorted_all (x : list R) (q : R) :
  (forall a, In a x -> a <= q) -> np.searchsorted_right x q = length x.
Proof.
  induction x as [| a x IH]; intros H; cbn [np.searchsorted_right length];
    [reflexivity |].
  rewrite Rleb_true by (apply H; left; reflexivity).
  f_equal. apply IH. intros; apply H; right; assumption.
Qed.

(** The interval of an in-range query: [x[i] <= q < x[i+1]], the last
    interval taking its right end as well. *)
Lemma interval_spec (x : list R) (q : R) :
  (2 <= length x)%nat -> first x <= q -> q <= final x ->
  nth (interval x q) x 0 <= q /\
  (q < nth (interval x q + 1) x 0 \/
   (interval x q + 2 = length x)%nat /\ q = final x).
Proof.
  intros Hn Hlo Hhi. unfold first, final in *.
  pose proof (searchsorted_le_length x q) as Hc.
  assert (Hc1 : (1 <= np.searchsorted_right x q)%nat).
  { destruct x as [| a x]; [simpl in Hn; lia |].
    cbn [np.searchsorted_right nth] in *. rewrite Rleb_true by exact Hlo. lia. }
  destruct (Nat.eq_dec (np.searchsorted_right x q) (length x)) as [Hall | Hlt].
  - assert (Hi : interval x q = (length x - 2)%nat)
      by (unfold interval, np.clipZ; lia).
    rewrite Hi. split.
    + apply searchsorted_prefix. lia.
    + right. split; [lia |].
      apply Rle_antisym; [exact Hhi |]. apply searchsorted_prefix. lia.
  - assert (Hi : interval x q = (np.searchsorted_right x q - 1)%nat)
      by (unfold interval, np.clipZ; lia).
    rewrite Hi. split.
    + apply searchsorted_prefix. lia.
    + left. replace (np.searchsorted_right x q - 1 + 1)%nat
        with (np.searchsorted_right x q) by lia.
      apply searchsorted_stop. lia.
Qed.

Lemma gap_trans : Relations_1.Transitive gap.
Proof. intros a b c. unfold gap. lra. Qed.

Lemma strongly_sorted_nth {X : Type} (Rel : X -> X -> Prop) (l : list X) (d : X) :
  StronglySorted Rel l ->
  forall i j, (i < j < length l)%nat -> Rel (nth i l d) (nth j l d).
Proof.
  induction 1 as [| a l Hs IH Hall]; intros i j Hij; [simpl in Hij; lia |].
  destruct j as [| j]; [lia |]. cbn [nth length] in *.
  destruct i as [| i].
  - rewrite Forall_forall in Hall. apply Hall, nth_In. lia.
  - apply IH. lia.
Qed.

Lemma sample_gap (x : list R) (i j : nat) :
  Sorted gap x -> (i < j < length x)%nat -> 1e-12 < nth j x 0 - nth i x 0.
Proof.
  intros Hs Hij. apply Sorted_StronglySorted in Hs; [| exact gap_trans].
  exact (strongly_sorted_nth gap x 0 Hs i j Hij).
Qed.


Lemma interval_final (x : list R) :
  Sorted gap x -> (2 <= length x)%nat ->
  interval x (final x) = (length x - 2)%nat.
Proof.
  intros Hs Hn. unfold interval.
  rewrite searchsorted_all; [unfold np.clipZ; lia |].
  intros a Hin. apply (In_nth _ _ 0) in Hin. destruct Hin as (i & Hi & <-).
  unfold final.
  destruct (Nat.eq_dec i (length x - 1)) as [-> | Hne]; [lra |].
  pose proof (sample_gap x i (length x - 1) Hs ltac:(lia)). lra.
Qed.

(** ** Values at the boundary samples *)

Lemma clip_0 : np.clip 0 0 1 = 0.
Proof. unfold np.clip. rewrite Rmax_left, Rmin_left; lra. Qed.

Lemma clip_1 : np.clip 1 0 1 = 1.
Proof. unfold np.clip. rewrite Rmax_left, Rmin_left; lra. Qed.

Lemma first_le_final (x : list R) :
  Sorted gap x -> (2 <= length x)%nat -> 1e-12 < final x - first x.
Proof.
  intros Hs Hn. unfold first, final. apply sample_gap; [exact Hs | lia].
Qed.

Section Boundary.

Variables x y : list R.
Variable modes : list string.
Variable ks : list R.

Hypothesis samples : sample_set x y.


Lemma segment_value_final :
  supported_descriptor (nth (length x - 2) modes "") (nth (length x - 2) ks 0) ->
  segment_value x y modes ks (final x) = final y.
Proof.
  destruct samples as (Hlen & Hn & Hs). intros [Hk Hp].
  unfold segment_value. rewrite (interval_final x Hs Hn).
  replace (length x - 2 + 1)%nat with (length x - 1)%nat by lia.
  pose proof (sample_gap x (length x - 2) (length x - 1) Hs ltac:(lia)) as Hg.
  unfold final, floored. rewrite Rltb_false by lra.
  rewrite Rdiv_diag by lra. rewrite clip_1, shape_1 by assumption.
  rewrite <- Hlen. lra.
Qed.

End Boundary.

Lemma single_segment_spec (self : CurveInterpolator) (qs : list R)
  (mode : string) (k : R) :
  valid self -> known_mode mode = true ->
  _single_segment self qs mode k
  = Ok (map (fun q =>
               first (self_y self)
               + (final (self_y self) - first (self_y self))
                 * shape mode
                     (np.clip ((q - first (self_x self))
                               / (final (self_x self) - first (self_x self)))
                        0 1) k) qs).
Proof.
  intros [(Hlen & Hn & Hs) _] Hm. unfold _single_segment.
  rewrite (getitem_0 (self_x self) 0), (getitem_m1 (self_x self) 0),
    (getitem_0 (self_y self) 0), (getitem_m1 (self_y self) 0) by lia.
  cbn [bind]. fold (first (self_x self)) (final (self_x self))
    (first (self_y self)) (final (self_y self)).
  pose proof (first_le_final (self_x self) Hs Hn).
  rewrite Rltb_false by lra.
  rewrite (curve_ratio_scalar _ mode k Hm). cbn [bind].
  rewrite !map_map. reflexivity.
Qed.


(** ** Automatic descriptors *)

Lemma choose_best_supported (self : CurveInterpolator) (i : nat) (y0 y1 span : R) :
  (i + 1 < length (self_slopes self))%nat ->
  exists m k, _choose_best_segment self i y0 y1 span = Ok (m, k) /\
              supported_descriptor m k.
Proof.
  intros Hi. unfold _choose_best_segment.
  destruct (Rlt_le_dec (change_ratio y0 y1) 0.05) as [Hflat | Hnot].
  - rewrite (choose_best_flat self i y0 y1 span Hi Hflat). cbn [bind fst].
    exists "linear", 1. split; [reflexivity |]. split; [reflexivity | intros; lra].
  - destruct (choose_best_segment_searches self i y0 y1 span Hi Hnot)
      as (m & k & E & Hin).
    rewrite E. cbn [bind fst]. exists m, k. split; [reflexivity |].
    destruct (candidate_pairs_known m k Hin) as [Hm Hk].
    split; [exact Hm | intros _; exact Hk].
Qed.

Lemma auto_segments_loop_spec (self : CurveInterpolator) :
  length (self_x self) = length (self_y self) ->
  length (self_slopes self) = length (self_x self) ->
  forall range segs,
    (forall i, In i range -> (i + 1 < length (self_x self))%nat) ->
    Forall supported_segment segs ->
    exists items,
      auto_segments_loop self range segs = Ok items /\
      length items = (length segs + length range)%nat /\
      Forall supported_segment items.
Proof.
  intros Hlen Hsl range. induction range as [| i range IH]; intros segs Hr Hsegs.
  - exists segs. cbn. repeat split; [lia | exact Hsegs].
  - cbn [auto_segments_loop].
    assert (Hi : (i + 1 < length (self_x self))%nat) by (apply Hr; left; reflexivity).
    rewrite (getitem_nth (self_y self) i 0) by lia. cbn [bind].
    replace (Z.of_nat i + 1)%Z with (Z.of_nat (i + 1)) by lia.
    rewrite (getitem_nth (self_y self) (i + 1) 0) by lia. cbn [bind].
    rewrite (getitem_nth (self_x self) (i + 1) 0) by lia. cbn [bind].
    rewrite (getitem_nth (self_x self) i 0) by lia. cbn [bind].
    destruct (choose_best_supported self i (nth i (self_y self) 0)
                (nth (i + 1) (self_y self) 0)
                (nth (i + 1) (self_x self) 0 - nth i (self_x self) 0))
      as (m & k & E & Hsup); [lia |].
    rewrite E. cbn [bind].
    destruct (IH (segs ++ [{| seg_mode := m; seg_k := Some k |}])%list)
      as (items & Ei & Hl & Hall).
    + intros j Hj. apply Hr. right. exact Hj.
    + apply Forall_app. split; [exact Hsegs |]. constructor; [exact Hsup | constructor].
    + exists items. split; [exact Ei |]. split; [| exact Hall].
      rewrite Hl, length_app. cbn [length]. lia.
Qed.

(** ** Boundary exactness *)

Lemma supported_nth (items : list segment) (i : nat) :
  Forall supported_segment items -> (i < length items)%nat ->
  supported_descriptor
    (nth i (map seg_mode items) "")
    (nth i (map (fun s => match seg_k s with Some k => k | None => 1 end)
              items) 0).
Proof.
  intros Hall Hi.
  set (d := {| seg_mode := ""; seg_k := None |}).
  set (f := fun s => match seg_k s with Some k => k | None => 1 end).
  replace (nth i (map seg_mode items) "") with (seg_mode (nth i items d))
    by (symmetry; exact (map_nth seg_mode items d i)).
  replace (nth i (map f items) 0) with (f (nth i items d)).
  - rewrite Forall_forall in Hall. apply Hall, nth_In, Hi.
  - rewrite <- (map_nth f items d i). apply nth_indep. rewrite length_map. exact Hi.
Qed.



Lemma interp_12_fresh : fresh interp_12.
Proof. split; reflexivity. Qed.



Section Binary64Rounding.

Import PrimFloat.

(** On binary64 numbers the value at the last sample is the rounded sum
    [y0 + (y1 - y0)], not the last [y] itself.  With [x = [0, 1]] and the
    linear shape: [y = [1.1, 0.1]] gives [1.1] at the first sample and
    [0.10000000000000009] at the last; [y = [5.1, 30.3]] gives
    [30.300000000000004] at the last sample, above both end values. *)
Lemma last_sample_is_rounded :
  binary64._single_segment 0 1 1.1 0.1 [0%float; 1%float]
  = [1.1%float; 0.10000000000000009%float] /\
  PrimFloat.eqb 0.10000000000000009 0.1 = false /\
  binary64._single_segment 0 1 5.1 30.3 [1%float]
  = [30.300000000000004%float] /\
  PrimFloat.ltb 30.3 30.300000000000004 = true.
Proof. repeat split; vm_compute; reflexivity. Qed.

End Binary64Rounding.

(** The same evaluation when the identity of the list is the cached
    one: the cached modes and parameters are used. *)
Section MultiSegmentHit.

Variable self : CurveInterpolator.
Variable segments : seglist.
Variable new_x : list R.
Variable modes : list string.
Variable ks : list R.

Let x := self_x self.
Let y := self_y self.

Hypothesis same_length : length x = length y.
Hypothesis two_points : (2 <= length x)%nat.
Hypothesis hit : self_seg_cache_id self = Some (seg_id segments).
Hypothesis cached_modes : self_seg_modes_cached self = Some modes.
Hypothesis cached_ks : self_seg_ks_cached self = Some ks.
Hypothesis enough_modes : (length x - 1 <= length modes)%nat.
Hypothesis enough_ks : (length x - 1 <= length ks)%nat.
Hypothesis known :
  forall q, In q new_x -> known_mode (nth (interval x q) modes "") = true.

Lemma multi_segment_hit_spec :
  _multi_segment new_x segments self
  = (self, Ok (map (segment_value x y modes ks) new_x)).
Proof.
  unfold _multi_segment, bindM, get, lift, put, ret.
  fold x y.
  assert (Hidx :
    map (fun i => np.clipZ i 0 (Z.of_nat (length x) - 1 - 1))
      (map (fun q => (Z.of_nat (np.searchsorted_right x q) - 1)%Z) new_x)
    = map (fun q => Z.of_nat (interval x q)) new_x).
  { rewrite map_map. apply map_ext. intros q. apply interval_index, two_points. }
  rewrite Hidx.
  assert (Hidx1 :
    map (fun i => (i + 1)%Z) (map (fun q => Z.of_nat (interval x q)) new_x)
    = map (fun q => Z.of_nat (interval x q + 1)) new_x).
  { rewrite map_map. apply map_ext. intros q. lia. }
  rewrite Hidx1.
  rewrite (fancy_nth x 0 (fun q => interval x q))
    by (intros q _; pose proof (interval_bound x q two_points); lia).
  rewrite (fancy_nth x 0 (fun q => (interval x q + 1)%nat))
    by (intros q _; pose proof (interval_bound x q two_points); lia).
  rewrite (fancy_nth y 0 (fun q => interval x q))
    by (intros q _; pose proof (interval_bound x q two_points); lia).
  rewrite (fancy_nth y 0 (fun q => (interval x q + 1)%nat))
    by (intros q _; pose proof (interval_bound x q two_points); lia).
  rewrite hit, Nat.eqb_refl. cbn [negb]. rewrite cached_modes, cached_ks.
  rewrite (fancy_nth modes "" (fun q => interval x q))
    by (intros q _; pose proof (interval_bound x q two_points); lia).
  rewrite (fancy_nth ks 0 (fun q => interval x q))
    by (intros q _; pose proof (interval_bound x q two_points); lia).
  rewrite !map2_map, !map2_map_r, !map_map, !map2_map.
  rewrite (ratio_loop_map
             (fun q => nth (interval x q) modes "")
             (fun q => np.clip
                         ((q - nth (interval x q) x 0)
                          / (if nth (interval x q + 1) x 0
                                - nth (interval x q) x 0 <? 1e-12
                             then 1
                             else nth (interval x q + 1) x 0
                                  - nth (interval x q) x 0)) 0 1)
             (fun q => nth (interval x q) ks 0)
             new_x known).
  rewrite !map2_map. reflexivity.
Qed.

End MultiSegmentHit.

Section MultiSegmentClaim.

Variable self : CurveInterpolator.
Variable segments : seglist.
Variable new_x : list R.
Variable modes : list string.
Variable ks : list R.

Let x := self_x self.
Let y := self_y self.

(** C5.  In multi-segment evaluation an in-range query [q] is assigned to
    the interval [i] with [x[i] <= q < x[i+1]], the last interval taking
    its right end as well; [q] is normalized by the span of that
    interval, a span below [1e-12] being replaced by 1, clipped to the
    unit interval, shaped by the descriptor in effect for the interval
    (the one of the list or, on a cache hit, the cached one) and rescaled
    into [y[i], y[i+1]].  On a Sample Set, which is all the constructor
    ever stores, no span is below [1e-12]: no span is replaced there, and
    a segment with a replaced span, which the replacement is meant to
    keep at its left [y], does not occur. *)
Theorem multi_segment_evaluation :
  length x = length y -> (2 <= length x)%nat ->
  descriptors_in_effect self segments = Some (modes, ks) ->
  (length x - 1 <= length modes)%nat -> (length x - 1 <= length ks)%nat ->
  (forall q, In q new_x -> first x <= q <= final x) ->
  (forall q, In q new_x ->
     known_mode (nth (interval x q) modes "") = true) ->
  snd (_multi_segment new_x segments self)
  = Ok (map (segment_value x y modes ks) new_x)
  /\
  (forall q, In q new_x ->
     nth (interval x q) x 0 <= q /\
     (q < nth (interval x q + 1) x 0 \/
      (interval x q + 2 = length x)%nat /\ q = final x)) /\
  (forall span, span < 1e-12 -> floored span = 1) /\
  (Sorted gap x ->
   forall i, (i + 1 < length x)%nat ->
     ~ nth (i + 1) x 0 - nth i x 0 < 1e-12 /\
     floored (nth (i + 1) x 0 - nth i x 0) = nth (i + 1) x 0 - nth i x 0).
Proof.
  intros Hlen Hn Heff Hmodes Hks Hrange Hknown. split; [| split; [| split]].
  - subst x y. revert Heff. unfold descriptors_in_effect.
    destruct (self_seg_cache_id self) as [id |] eqn:Eid.
    + destruct (Nat.eqb_spec id (seg_id segments)) as [E | E]; cbn [negb].
      * destruct (self_seg_modes_cached self) as [cm |] eqn:Em; [| discriminate].
        destruct (self_seg_ks_cached self) as [ck |] eqn:Ek; [| discriminate].
        intros H. injection H as -> ->.
        rewrite (multi_segment_hit_spec self segments new_x modes ks);
          try assumption; [reflexivity |].
        rewrite Eid, E. reflexivity.
      * intros H. injection H as <- <-.
        rewrite multi_segment_spec; try assumption; [reflexivity | |].
        -- unfold cache_miss. rewrite Eid. congruence.
        -- unfold seg_modes in Hmodes. rewrite length_map in Hmodes. exact Hmodes.
    + intros H. injection H as <- <-.
      rewrite multi_segment_spec; try assumption; [reflexivity | |].
      * unfold cache_miss. rewrite Eid. discriminate.
      * unfold seg_modes in Hmodes. rewrite length_map in Hmodes. exact Hmodes.
  - intros q Hq. destruct (Hrange q Hq). apply interval_spec; assumption.
  - intros span Hspan. unfold floored. rewrite Rltb_true by exact Hspan.
    reflexivity.
  - intros Hs i Hi. unfold floored.
    pose proof (sample_gap x i (i + 1) Hs ltac:(lia)).
    split; [lra |]. rewrite Rltb_false by lra. reflexivity.
Qed.

End MultiSegmentClaim.

(** [x = [1, 2]], [y = [0, 4]], one linear segment, evaluated at both
    samples and in between, on a fresh interpolator. *)
Lemma multi_segment_evaluation_witness :
  snd (_multi_segment [1; 1.5; 2] linear_segments interp_12)
  = Ok (map (segment_value [1; 2] [0; 4] ["linear"] [1]) [1; 1.5; 2]).
Proof.
  apply (proj1 (multi_segment_evaluation interp_12 linear_segments [1; 1.5; 2]
                  ["linear"] [1]
                  eq_refl (le_n 2) eq_refl (le_n 1) (le_n 1)
                  ltac:(cbn; intros q [<- | [<- | [<- | []]]]; unfold first, final; cbn; lra)
                  ltac:(intros q _; unfold interval;
                        cbn [interp_12 self_x length];
                        match goal with |- context [Z.to_nat ?z] =>
                          assert (Hz : Z.to_nat z = 0%nat)
                            by (unfold np.clipZ; cbn [length]; lia);
                          rewrite Hz
                        end; reflexivity))).
Defined.

(** * Further properties of the code *)

(** ** Samples and intervals *)

(** On an ascending array the scan counts the elements that are [<= v], as
    the binary search of numpy does. *)
Lemma searchsorted_right_count (a : list R) (v : R) :
  StronglySorted Rle a ->
  np.searchsorted_right a v = length (filter (fun e => e <=? v) a).
Proof.
  induction 1 as [| a0 a Hs IH Hall]; [reflexivity |].
  cbn [np.searchsorted_right filter].
  destruct (Rle_dec a0 v) as [Hle | Hgt].
  - rewrite Rleb_true by exact Hle. cbn [length]. now rewrite IH.
  - rewrite Rleb_false by lra.
    assert (E : filter (fun e => e <=? v) a = []).
    { clear IH Hs. induction a as [| a1 a IHa]; [reflexivity |].
      inversion Hall as [| ? ? H1 Hrest]; subst. cbn [filter].
      rewrite Rleb_false by lra. apply IHa, Hrest. }
    rewrite E. reflexivity.
Qed.

Lemma interval_sample (x : list R) (j : nat) :
  Sorted gap x -> (j + 1 < length x)%nat -> interval x (nth j x 0) = j.
Proof.
  intros Hs Hj. set (q := nth j x 0).
  pose proof (searchsorted_le_length x q) as Hc.
  assert (Hlo : (j < np.searchsorted_right x q)%nat).
  { destruct (Nat.lt_ge_cases j (np.searchsorted_right x q)) as [H | H];
      [exact H | exfalso].
    pose proof (searchsorted_stop x q ltac:(lia)) as Hstop.
    destruct (Nat.eq_dec (np.searchsorted_right x q) j) as [E | E].
    - rewrite E in Hstop. unfold q in Hstop. lra.
    - pose proof (sample_gap x (np.searchsorted_right x q) j Hs ltac:(lia)).
      unfold q in *. lra. }
  assert (Hhi : (np.searchsorted_right x q <= j + 1)%nat).
  { destruct (Nat.le_gt_cases (np.searchsorted_right x q) (j + 1)) as [H | H];
      [exact H | exfalso].
    pose proof (searchsorted_prefix x q (j + 1) H).
    pose proof (sample_gap x j (j + 1) Hs ltac:(lia)). unfold q in *. lra. }
  unfold interval, np.clipZ. lia.
Qed.

Lemma segment_value_sample (x y : list R) (modes : list string) (ks : list R)
  (j : nat) :
  sample_set x y -> (j + 1 < length x)%nat ->
  supported_descriptor (nth j modes "") (nth j ks 0) ->
  segment_value x y modes ks (nth j x 0) = nth j y 0.
Proof.
  intros (Hlen & Hn & Hs) Hj [Hk Hp].
  unfold segment_value. rewrite (interval_sample x j Hs Hj).
  replace (nth j x 0 - nth j x 0) with 0 by lra.
  unfold Rdiv. rewrite Rmult_0_l, clip_0, shape_0 by assumption. lra.
Qed.

Lemma mask_inside (lo hi : R) (l : list R) :
  (forall q, In q l -> lo <= q <= hi) ->
  map (fun q => (lo <=? q) && (q <=? hi)) l = map (fun _ => true) l.
Proof.
  intros H. apply map_ext_in. intros q Hq. destruct (H q Hq).
  rewrite !Rleb_true by assumption. reflexivity.
Qed.

Lemma mask_left (lo hi : R) (l : list R) :
  (forall q, In q l -> lo <= q <= hi) ->
  map (fun q => q <? lo) l = map (fun _ => false) l.
Proof.
  intros H. apply map_ext_in. intros q Hq. destruct (H q Hq).
  rewrite Rltb_false by assumption. reflexivity.
Qed.

Lemma mask_right (lo hi : R) (l : list R) :
  (forall q, In q l -> lo <= q <= hi) ->
  map (fun q => hi <? q) l = map (fun _ => false) l.
Proof.
  intros H. apply map_ext_in. intros q Hq. destruct (H q Hq).
  rewrite Rltb_false by assumption. reflexivity.
Qed.

Lemma existsb_all_false {X : Type} (l : list X) :
  existsb (fun b => b) (map (fun _ => false) l) = false.
Proof. induction l; [reflexivity | exact IHl]. Qed.

Lemma existsb_all_true {X : Type} (l : list X) :
  l <> [] -> existsb (fun b => b) (map (fun _ => true) l) = true.
Proof. destruct l; [congruence | reflexivity]. Qed.

Lemma compress_true {X : Type} (l : list X) :
  np.compress (map (fun _ => true) l) l = l.
Proof. induction l; cbn; [reflexivity | now rewrite IHl]. Qed.

Lemma place_true {X Y : Type} (l : list X) (vals zeros : list Y) :
  length vals = length l -> length zeros = length l ->
  np.place (map (fun _ => true) l) vals zeros = vals.
Proof.
  revert vals zeros. induction l as [| a l IH]; intros [| v vals] [| z zeros] Hv Hz;
    try discriminate; try reflexivity.
  cbn [map np.place]. f_equal. apply IH; simpl in *; lia.
Qed.

(** Every sample lies in the sampled domain. *)
Lemma samples_in_range (x : list R) (q : R) :
  Sorted gap x -> In q x -> first x <= q <= final x.
Proof.
  intros Hs Hq. apply (In_nth _ _ 0) in Hq. destruct Hq as (j & Hj & <-).
  unfold first, final. split.
  - destruct (Nat.eq_dec j 0) as [-> | Hne]; [lra |].
    pose proof (sample_gap x 0 j Hs ltac:(lia)). lra.
  - destruct (Nat.eq_dec j (length x - 1)) as [-> | Hne]; [lra |].
    pose proof (sample_gap x j (length x - 1) Hs ltac:(lia)). lra.
Qed.

(** Evaluated at the samples, a list of supported descriptors reproduces
    every sample. *)
Lemma multi_segment_samples (self : CurveInterpolator) (segs : seglist) :
  valid self -> cache_miss self segs ->
  length (seg_items segs) = (length (self_x self) - 1)%nat ->
  Forall supported_segment (seg_items segs) ->
  snd (_multi_segment (self_x self) segs self) = Ok (self_y self).
Proof.
  intros [Hss _] Hmiss Hlen Hall.
  pose proof Hss as (Hl & Hn & Hs).
  assert (Hsup : forall j, (j + 1 < length (self_x self))%nat ->
            supported_descriptor (nth j (seg_modes segs) "")
              (nth j (seg_ks segs) 0))
    by (intros j Hj; apply supported_nth; [exact Hall | lia]).
  assert (Hval : forall j, (j < length (self_x self))%nat ->
            segment_value (self_x self) (self_y self) (seg_modes segs)
              (seg_ks segs) (nth j (self_x self) 0)
            = nth j (self_y self) 0
            /\ known_mode (nth (interval (self_x self) (nth j (self_x self) 0))
                             (seg_modes segs) "") = true).
  { intros j Hj.
    destruct (Nat.eq_dec j (length (self_x self) - 1)) as [-> | Hne].
    - fold (final (self_x self)). split.
      + rewrite segment_value_final; [| exact Hss | apply Hsup; lia].
        unfold final. rewrite Hl. reflexivity.
      + rewrite interval_final by assumption. apply Hsup. lia.
    - split.
      + apply segment_value_sample; [exact Hss | lia | apply Hsup; lia].
      + rewrite interval_sample by (assumption || lia). apply Hsup. lia. }
  rewrite multi_segment_spec; try assumption; try lia.
  - cbn [snd]. f_equal. apply (nth_ext _ _ 0 0).
    + rewrite length_map. exact Hl.
    + intros j Hj. rewrite length_map in Hj.
      rewrite (nth_indep _ 0
                 (segment_value (self_x self) (self_y self) (seg_modes segs)
                    (seg_ks segs) 0)) by (rewrite length_map; exact Hj).
      rewrite map_nth. apply Hval, Hj.
  - intros q Hq. apply (In_nth _ _ 0) in Hq. destruct Hq as (j & Hj & <-).
    apply Hval, Hj.
Qed.

(** With more than two samples, automatic mode reproduces every sample. *)
Lemma auto_mode_reproduces_samples (self : CurveInterpolator) (new_id : nat)
  (k : R) (extrapolate : string) :
  valid self -> fresh self -> (2 < length (self_x self))%nat ->
  snd (__call__ new_id (self_x self) "auto" k None extrapolate self)
  = Ok (self_y self).
Proof.
  intros Hv [Hauto Hcache] Hn3.
  pose proof Hv as [(Hl & Hn & Hs) [Hself_n Hslopes]].
  assert (Hrange : forall q, In q (self_x self) ->
                     first (self_x self) <= q <= final (self_x self))
    by (intros q; apply samples_in_range, Hs).
  unfold __call__, bindM, get, lift, ret.
  rewrite (getitem_0 (self_x self) 0), (getitem_m1 (self_x self) 0) by lia.
  fold (first (self_x self)) (final (self_x self)).
  rewrite (mask_inside _ _ _ Hrange), (mask_left _ _ _ Hrange),
    (mask_right _ _ _ Hrange).
  rewrite existsb_all_false, existsb_all_true, compress_true
    by (destruct (self_x self); [simpl in Hn; lia | discriminate]).
  cbn [String.eqb Ascii.eqb Bool.eqb negb].
  destruct (Nat.eqb_spec (self_n self) 2) as [H2 | _]; [lia |].
  unfold _auto_segments, bindM, get, lift, put, ret. rewrite Hauto.
  destruct (auto_segments_loop_spec self Hl Hslopes
              (seq 0 (length (self_x self) - 1)) [])
    as (items & Ei & Hlen & Hall).
  { intros i Hi. apply in_seq in Hi. lia. }
  { constructor. }
  rewrite Ei.
  set (segs := {| seg_id := new_id; seg_items := items |}).
  set (self' := set_auto_segments_cache self (Some segs)).
  pose proof (multi_segment_samples self' segs) as Hm.
  change (self_x self') with (self_x self) in Hm.
  change (self_y self') with (self_y self) in Hm.
  destruct (_multi_segment (self_x self) segs self') as [s' r].
  cbn [snd] in Hm. rewrite Hm.
  - cbn [snd]. rewrite place_true; [reflexivity | congruence |].
    apply length_map.
  - exact Hv.
  - unfold cache_miss. cbn. rewrite Hcache. discriminate.
  - cbn [seg_items segs]. rewrite Hlen, length_seq. reflexivity.
  - exact Hall.
Qed.

(** ** Clean input *)

Lemma sorted_gap_diff (a : list R) :
  Sorted gap a -> Forall (fun d => 1e-12 < d) (np.diff a).
Proof.
  induction 1 as [| a0 a Hs IH Hhd]; [constructor |].
  destruct a as [| a1 a]; [constructor |].
  rewrite diff_cons. constructor; [| exact IH].
  inversion Hhd; subst. assumption.
Qed.

Lemma sorted_gap_ascending (a : list R) :
  Sorted gap a -> existsb (fun d => d <? 0) (np.diff a) = false.
Proof.
  intros H. apply sorted_gap_diff in H.
  induction H as [| d l Hd _ IH]; [reflexivity |].
  cbn [existsb]. rewrite Rltb_false by lra. exact IH.
Qed.

Lemma sorted_gap_mask (a : list R) :
  Sorted gap a ->
  forallb (fun b => b) (true :: map (fun d => 1e-12 <? d) (np.diff a)) = true.
Proof.
  intros H. apply sorted_gap_diff in H. cbn [forallb andb].
  induction H as [| d l Hd _ IH]; [reflexivity |].
  cbn [map forallb]. rewrite Rltb_true by lra. exact IH.
Qed.

Lemma ensure_sorted_clean {A : Argsort} (x y : list float64) :
  length x = length y ->
  forallb isfinite x = true -> forallb isfinite y = true ->
  Sorted gap (map to_R x) ->
  _ensure_sorted_xy x y = Ok (map to_R x, map to_R y).
Proof.
  intros Hl Hx Hy Hs. unfold _ensure_sorted_xy.
  rewrite Hl, Nat.eqb_refl, Hx, Hy. cbn [negb orb].
  rewrite (sorted_gap_ascending _ Hs), (sorted_gap_mask _ Hs). reflexivity.
Qed.

(** X1.  Data that is already clean passes through preprocessing
    unchanged: finite series of one length whose [x] increases by more
    than [1e-12] at every step are returned as they are, whatever the
    sort. *)
Theorem clean_input_is_unchanged {A : Argsort} (x y : list float64) :
  length x = length y ->
  forallb isfinite x = true -> forallb isfinite y = true ->
  Sorted gap (map to_R x) ->
  _ensure_sorted_xy x y = Ok (map to_R x, map to_R y).
Proof. exact (ensure_sorted_clean x y). Qed.

Lemma clean_input_is_unchanged_witness :
  _ensure_sorted_xy (A := insertion_argsort)
    [Finite 0; Finite 10; Finite 20] [Finite 0; Finite 5; Finite 30]
  = Ok ([0; 10; 20], [0; 5; 30]).
Proof.
  apply (clean_input_is_unchanged (A := insertion_argsort)
           [Finite 0; Finite 10; Finite 20] [Finite 0; Finite 5; Finite 30]);
    try reflexivity.
  cbn [map to_R]. repeat constructor; unfold gap; lra.
Defined.

(** What a successful preprocessing tells about its input. *)
Lemma ensure_sorted_ok_inv {A : Argsort} (x y : list float64) (r : list R * list R) :
  _ensure_sorted_xy x y = Ok r ->
  length x = length y /\ forallb isfinite x = true /\ forallb isfinite y = true.
Proof.
  unfold _ensure_sorted_xy. intros H.
  destruct (Nat.eqb_spec (length x) (length y)) as [E | E]; [| discriminate].
  destruct (forallb isfinite x); [| discriminate].
  destruct (forallb isfinite y); [| discriminate].
  auto.
Qed.

Lemma map_to_R_Finite (l : list R) : map to_R (map Finite l) = l.
Proof. rewrite map_map. cbn. apply map_id. Qed.

Lemma forallb_isfinite_Finite (l : list R) : forallb isfinite (map Finite l) = true.
Proof. induction l; [reflexivity | exact IHl]. Qed.

Lemma ensure_sorted_twice {A : Argsort} (x y : list float64) (cx cy : list R) :
  argsort_spec A ->
  _ensure_sorted_xy x y = Ok (cx, cy) ->
  _ensure_sorted_xy (map Finite cx) (map Finite cy) = Ok (cx, cy).
Proof.
  intros HA H.
  destruct (ensure_sorted_ok_inv x y _ H) as (Hl & Hx & Hy).
  destruct (ensure_sorted_spec HA x y Hl Hx Hy) as (sorted & _ & Hs & _ & E).
  rewrite E in H. injection H as <- <-.
  rewrite (ensure_sorted_clean (map Finite _) (map Finite _)).
  - now rewrite !map_to_R_Finite.
  - now rewrite !length_map.
  - apply forallb_isfinite_Finite.
  - apply forallb_isfinite_Finite.
  - rewrite map_to_R_Finite. apply remove_close_gap, Hs.
Qed.

(** X2.  Preprocessing is idempotent: applied to its own output it changes
    nothing. *)
Theorem preprocessing_is_idempotent {A : Argsort} (x y : list float64)
  (cx cy : list R) :
  argsort_spec A ->
  _ensure_sorted_xy x y = Ok (cx, cy) ->
  _ensure_sorted_xy (map Finite cx) (map Finite cy) = Ok (cx, cy).
Proof. exact (ensure_sorted_twice x y cx cy). Qed.

Lemma preprocessing_is_idempotent_witness :
  _ensure_sorted_xy (A := insertion_argsort)
    (map Finite [1; 2; 3]) (map Finite [10; 20; 30])
  = Ok ([1; 2; 3], [10; 20; 30]).
Proof.
  apply (preprocessing_is_idempotent (A := insertion_argsort)
           [Finite 3; Finite 1; Finite 1; Finite 2]
           [Finite 30; Finite 10; Finite 11; Finite 20]).
  - exact insertion_argsort_ok.
  - exact preprocessing_example.
Defined.

(** ** Failures of preprocessing and construction *)

Lemma ensure_sorted_lengths {A : Argsort} (x y : list float64) (cx cy : list R) :
  _ensure_sorted_xy x y = Ok (cx, cy) -> length cx = length cy.
Proof.
  intros H. destruct (ensure_sorted_ok_inv x y _ H) as (Hl & Hx & Hy).
  revert H. unfold _ensure_sorted_xy.
  rewrite Hl, Nat.eqb_refl, Hx, Hy. cbn [negb orb].
  set (p := if existsb _ _ then _ else _).
  assert (Hp : length (fst p) = length (snd p)).
  { unfold p. destruct (existsb _ _); cbn [fst snd].
    - now rewrite !take_length.
    - now rewrite !length_map. }
  destruct p as [sx sy]. cbn [fst snd] in Hp.
  destruct (negb _); intros H; injection H as <- <-.
  - exact (compress_length_eq
             (true :: map (fun d => 1e-12 <? d) (np.diff sx)) sx sy Hp).
  - exact Hp.
Qed.

Lemma ensure_sorted_raises {A : Argsort} (x y : list float64) :
  ((exists e, _ensure_sorted_xy x y = Raise e) <->
   length x <> length y \/
   forallb isfinite x = false \/ forallb isfinite y = false) /\
  (forall e, _ensure_sorted_xy x y = Raise e -> e = ValueError).
Proof.
  unfold _ensure_sorted_xy.
  destruct (Nat.eqb_spec (length x) (length y)) as [E | E]; cbn [negb].
  2:{ split; [| intros e H; congruence].
      split; [auto | intros _; now exists ValueError]. }
  destruct (forallb isfinite x); cbn [negb orb].
  2:{ split; [| intros e H; congruence].
      split; [auto | intros _; now exists ValueError]. }
  destruct (forallb isfinite y); cbn [negb orb].
  2:{ split; [| intros e H; congruence].
      split; [auto | intros _; now exists ValueError]. }
  set (p := if existsb _ _ then _ else _). destruct p as [sx sy].
  destruct (negb _); (split; [| intros e H; discriminate]);
    (split; [intros [e H]; discriminate
            | intros [H | [H | H]]; [contradiction | discriminate..]]).
Qed.

Lemma init_raises {A : Argsort} (x y : list float64) (e : exn) :
  __init__ x y = Raise e -> e = ValueError.
Proof.
  unfold __init__. destruct (_ensure_sorted_xy x y) as [[cx cy] | e0] eqn:E;
    cbn [bind].
  - destruct (Nat.ltb_spec (length cx) 2) as [Hn | Hn]; [congruence |].
    destruct (estimate_slopes_ok cx cy (ensure_sorted_lengths x y cx cy E) Hn)
      as (s & Es & _).
    rewrite Es. cbn [bind]. discriminate.
  - intros H. injection H as <-. now apply (ensure_sorted_raises x y).
Qed.

(** X3.  Preprocessing fails exactly when the two series differ in length
    or hold a value that is not finite, and the constructor, which adds
    the failure on fewer than two remaining points, raises nothing but
    [ValueError]. *)
Theorem constructor_raises_value_errors {A : Argsort} (x y : list float64) :
  ((exists e, _ensure_sorted_xy x y = Raise e) <->
   length x <> length y \/
   forallb isfinite x = false \/ forallb isfinite y = false) /\
  (forall e, _ensure_sorted_xy x y = Raise e -> e = ValueError) /\
  (forall cx cy, _ensure_sorted_xy x y = Ok (cx, cy) ->
     ((length cx < 2)%nat <-> __init__ x y = Raise ValueError)) /\
  (forall e, __init__ x y = Raise e -> e = ValueError).
Proof.
  destruct (ensure_sorted_raises x y) as [H1 H2].
  repeat split; try apply H1; try exact H2; try (apply init_raises).
  - intros Hn. unfold __init__. rewrite H. cbn [bind].
    destruct (Nat.ltb_spec (length cx) 2); [reflexivity | lia].
  - unfold __init__. rewrite H. cbn [bind].
    destruct (Nat.ltb_spec (length cx) 2) as [Hn | Hn]; [auto |].
    destruct (estimate_slopes_ok cx cy (ensure_sorted_lengths x y cx cy H) Hn)
      as (s & Es & _).
    rewrite Es. cbn [bind]. discriminate.
Qed.

(** ** Target slopes *)

Lemma diff_nth (a : list R) (i : nat) :
  (i + 1 < length a)%nat ->
  nth i (np.diff a) 0 = nth (i + 1) a 0 - nth i a 0.
Proof.
  revert i. induction a as [| a0 a IH]; intros i Hi; [simpl in Hi; lia |].
  destruct a as [| a1 a]; [simpl in Hi; lia |].
  rewrite diff_cons. destruct i as [| i]; [reflexivity |].
  cbn [nth Nat.add]. rewrite IH by (simpl in *; lia). reflexivity.
Qed.

Lemma map2_nth {X Y Z : Type} (f : X -> Y -> Z) (a : list X) (b : list Y)
  (i : nat) (dx : X) (dy : Y) (dz : Z) :
  (i < length a)%nat -> (i < length b)%nat ->
  nth i (np.map2 f a b) dz = f (nth i a dx) (nth i b dy).
Proof.
  revert b i. induction a as [| a0 a IH]; intros [| b0 b] i Ha Hb;
    try (simpl in *; lia).
  destruct i as [| i]; [reflexivity |].
  cbn [np.map2 nth]. apply IH; simpl in *; lia.
Qed.

Lemma guarded_step (d : R) : 1e-12 < d -> (if 1e-12 <? Rabs d then d else 1) = d.
Proof. intros H. rewrite Rabs_pos_eq by lra. now rewrite Rltb_true. Qed.

(** The slope at sample [i] is the difference quotient between its two
    neighbours, the neighbours of the end samples being the end samples
    themselves. *)
Lemma estimate_slopes_spec (x y : list R) :
  length x = length y -> (2 <= length x)%nat -> Sorted gap x ->
  exists s, _estimate_slopes x y = Ok s /\ length s = length x /\
    forall i, (i < length x)%nat ->
      nth i s 0
      = (nth (Nat.min (i + 1) (length x - 1)) y 0 - nth (i - 1) y 0)
        / (nth (Nat.min (i + 1) (length x - 1)) x 0 - nth (i - 1) x 0).
Proof.
  intros Hl Hn Hs. unfold _estimate_slopes.
  destruct (Nat.eqb_spec (length x) 2) as [E2 | E2].
  - destruct x as [| x0 [| x1 [| ? ?]]]; try discriminate.
    destruct y as [| y0 [| y1 [| ? ?]]]; try discriminate.
    pose proof (sample_gap [x0; x1] 0 1 Hs ltac:(simpl; lia)) as Hg.
    cbn [nth] in Hg |- *. rewrite guarded_step by exact Hg.
    eexists. split; [reflexivity |]. split; [reflexivity |].
    intros [| [| i]] Hi; try (simpl in Hi; lia); reflexivity.
  - assert (Hdx : length (np.diff x) = (length x - 1)%nat) by apply diff_length.
    assert (Hdy : length (np.diff y) = (length x - 1)%nat)
      by (rewrite diff_length; lia).
    rewrite (getitem_0 (np.diff y) 0), (getitem_0 (np.diff x) 0),
      (getitem_m1 (np.diff y) 0), (getitem_m1 (np.diff x) 0) by lia.
    cbn [bind]. rewrite Hdx, Hdy.
    rewrite !diff_nth by lia.
    replace (length x - 1 - 1 + 1)%nat with (length x - 1)%nat by lia.
    pose proof (sample_gap x 0 1 Hs ltac:(lia)) as Hg0.
    pose proof (sample_gap x (length x - 1 - 1) (length x - 1) Hs ltac:(lia)) as Hg1.
    cbn [Nat.add] in *.
    rewrite !guarded_step by assumption.
    set (interior := np.map2 Rdiv _ _).
    assert (Hli : length interior = (length x - 2)%nat).
    { unfold interior. rewrite !map2_length, !length_skipn, !length_firstn. lia. }
    eexists. split; [reflexivity |]. split.
    { cbn [length]. rewrite length_app, Hli. cbn [length]. lia. }
    intros i Hi. destruct i as [| i].
    + cbn [nth Nat.sub Nat.add]. replace (Nat.min 1 (length x - 1)) with 1%nat by lia.
      reflexivity.
    + cbn [nth]. destruct (Nat.eq_dec i (length x - 2)) as [-> | Hne].
      * rewrite app_nth2 by lia. rewrite Hli, Nat.sub_diag. cbn [nth].
        replace (Nat.min (S (length x - 2) + 1) (length x - 1))
          with (length x - 1)%nat by lia.
        replace (S (length x - 2) - 1)%nat with (length x - 1 - 1)%nat by lia.
        reflexivity.
      * rewrite app_nth1 by lia. unfold interior.
        rewrite (map2_nth Rdiv _ _ i 0 0 0)
          by (rewrite !map2_length, !length_skipn, !length_firstn; lia).
        rewrite !(map2_nth Rminus _ _ i 0 0 0)
          by (rewrite ?length_skipn, ?length_firstn; lia).
        rewrite !nth_skipn, !nth_firstn.
        destruct (Nat.ltb_spec i (length y - 2)) as [_ | ?]; [| lia].
        destruct (Nat.ltb_spec i (length x - 2)) as [_ | ?]; [| lia].
        replace (Nat.min (S i + 1) (length x - 1)) with (2 + i)%nat by lia.
        replace (S i - 1)%nat with i by lia. reflexivity.
Qed.

(** X4.  The target slopes are difference quotients of the samples:
    forward at the first sample, backward at the last, central in
    between. *)
Theorem estimate_slopes_are_difference_quotients (x y : list R) :
  length x = length y -> (2 <= length x)%nat -> Sorted gap x ->
  exists s, _estimate_slopes x y = Ok s /\ length s = length x /\
    forall i, (i < length x)%nat ->
      nth i s 0
      = (nth (Nat.min (i + 1) (length x - 1)) y 0 - nth (i - 1) y 0)
        / (nth (Nat.min (i + 1) (length x - 1)) x 0 - nth (i - 1) x 0).
Proof. exact (estimate_slopes_spec x y). Qed.

Lemma estimate_slopes_are_difference_quotients_witness :
  exists s, _estimate_slopes [0; 10; 20] [0; 5; 30] = Ok s /\
    length s = 3%nat /\
    forall i, (i < 3)%nat ->
      nth i s 0
      = (nth (Nat.min (i + 1) 2) [0; 5; 30] 0 - nth (i - 1) [0; 5; 30] 0)
        / (nth (Nat.min (i + 1) 2) [0; 10; 20] 0 - nth (i - 1) [0; 10; 20] 0).
Proof.
  apply (estimate_slopes_are_difference_quotients [0; 10; 20] [0; 5; 30]).
  - reflexivity.
  - simpl; lia.
  - repeat constructor; unfold gap; lra.
Defined.

(** X5.  On samples that lie on one line, every target slope is the slope
    of the line. *)
Theorem collinear_samples_have_the_slope_of_the_line (x y : list R) (a b : R) :
  length x = length y -> (2 <= length x)%nat -> Sorted gap x ->
  (forall i, (i < length x)%nat -> nth i y 0 = a * nth i x 0 + b) ->
  _estimate_slopes x y = Ok (repeat a (length x)).
Proof.
  intros Hl Hn Hs Hline.
  destruct (estimate_slopes_spec x y Hl Hn Hs) as (s & E & Hls & Hnth).
  rewrite E. f_equal. apply (nth_ext _ _ 0 a).
  - now rewrite repeat_length.
  - intros i Hi. rewrite Hls in Hi. rewrite nth_repeat_lt by exact Hi.
    rewrite (Hnth i Hi), !Hline by lia.
    assert (Hg : 1e-12 < nth (Nat.min (i + 1) (length x - 1)) x 0 - nth (i - 1) x 0)
      by (apply sample_gap; [exact Hs | lia]).
    field. lra.
Qed.

Lemma collinear_samples_have_the_slope_of_the_line_witness :
  _estimate_slopes [0; 1; 3] [1; 3; 7] = Ok (repeat 2 3).
Proof.
  apply (collinear_samples_have_the_slope_of_the_line [0; 1; 3] [1; 3; 7] 2 1).
  - reflexivity.
  - simpl; lia.
  - repeat constructor; unfold gap; lra.
  - intros [| [| [| i]]] Hi; simpl in *; try lra; lia.
Defined.

(** ** The range of the shapes *)

Lemma shape_range (m : string) (k t : R) :
  known_mode m = true -> (m = "power" -> 0 < k) ->
  0 <= t <= 1 -> 0 <= shape m t k <= 1.
Proof.
  intros Hm Hk [H0 H1]. split.
  - rewrite <- (shape_0 m k Hm Hk). apply shape_mono; assumption || lra.
  - rewrite <- (shape_1 m k Hm). apply shape_mono; assumption || lra.
Qed.

(** X6.  The shapes map the unit interval into the unit interval: for a
    supported kind (the parameter of ["power"] positive) and normalized
    coordinates in [[0, 1]], [_curve_ratio] returns as many ratios, all in
    [[0, 1]]. *)
Theorem shapes_stay_in_the_unit_interval (ts : list R) (mode : string) (k : R) :
  known_mode mode = true -> (mode = "power" -> 0 < k) ->
  Forall (fun t => 0 <= t <= 1) ts ->
  exists r, _curve_ratio ts mode (Scalar k) = Ok r /\
            length r = length ts /\ Forall (fun v => 0 <= v <= 1) r.
Proof.
  intros Hm Hk Ht. exists (map (fun t => shape mode t k) ts).
  split; [apply curve_ratio_scalar, Hm |]. split; [apply length_map |].
  apply Forall_map. revert Ht. apply Forall_impl.
  intros t Ht. apply shape_range; assumption.
Qed.

Lemma shapes_stay_in_the_unit_interval_witness :
  exists r, _curve_ratio [0; 0.5; 1] "exp" (Scalar 2) = Ok r /\
            length r = 3%nat /\ Forall (fun v => 0 <= v <= 1) r.
Proof.
  apply (shapes_stay_in_the_unit_interval [0; 0.5; 1] "exp" 2).
  - reflexivity.
  - discriminate.
  - repeat constructor; lra.
Defined.

(** ** The cost of a segment *)

Lemma segment_cost_known (self : CurveInterpolator) (m : string)
  (k y0 y1 span sl sr : R) :
  known_mode m = true ->
  exists c, _segment_cost self m k y0 y1 span sl sr = Ok c /\ 0 <= c.
Proof.
  intros H. unfold _segment_cost.
  destruct (span <? 1e-12); [exists 1e9; split; [reflexivity | lra] |].
  rewrite !(curve_ratio_scalar _ m k H). cbn [map bind np.getitem length].
  cbn -[Rmult Rplus Rminus Rdiv pow IZR np.clip shape String.eqb].
  eexists. split; [reflexivity |].
  set (dy0 := _ / span * _). set (dy1 := _ / span * _).
  assert (Hc : 0 <= 0 + (dy0 - sl) ^ 2 + (dy1 - sr) ^ 2 + 0.1 * (dy1 - dy0) ^ 2).
  { pose proof (pow2_ge_0 (dy0 - sl)). pose proof (pow2_ge_0 (dy1 - sr)).
    pose proof (pow2_ge_0 (dy1 - dy0)). lra. }
  set (c0 := 0 + (dy0 - sl) ^ 2 + (dy1 - sr) ^ 2 + 0.1 * (dy1 - dy0) ^ 2) in *.
  repeat match goal with
         | |- context [if ?b then _ else _] => destruct b
         end; lra.
Qed.

(** X7.  In exact arithmetic the cost of a segment with a known shape,
    the parameter of ["power"] not being negative, is never negative; on
    a span below [1e-12] the cost is the constant [1e9] whatever the
    shape, so that an unknown shape name is only refused on a longer
    span.  (A negative parameter of ["power"] makes the program raise 0
    to a negative power, which is [inf]; that case is left out.) *)
Theorem segment_cost_range (self : CurveInterpolator) (mode : string)
  (k y0 y1 span s_left s_right : R) :
  (span < 1e-12 ->
   _segment_cost self mode k y0 y1 span s_left s_right = Ok 1e9) /\
  (known_mode mode = true -> (mode = "power" -> 0 <= k) ->
   exists c, _segment_cost self mode k y0 y1 span s_left s_right = Ok c /\
             0 <= c) /\
  (known_mode mode = false -> 1e-12 <= span ->
   _segment_cost self mode k y0 y1 span s_left s_right = Raise ValueError).
Proof.
  split; [| split].
  - intros H. unfold _segment_cost. now rewrite Rltb_true.
  - intros Hm _. apply segment_cost_known, Hm.
  - intros Hm H. unfold _segment_cost. rewrite Rltb_false by exact H.
    rewrite !(curve_ratio_unknown _ mode _ Hm). reflexivity.
Qed.

(** ** The candidate loop keeps the first minimum *)

Section SearchLoop.

Variable cost : string -> R -> result R.

Let cost_of (p : string * R) : result R := cost (fst p) (snd p).

(** What the loop knows of its running minimum after the calls [calls]:
    it is the first of the least-cost pairs called so far. *)
Let first_minimum (best : best_state) (calls : list (string * R)) : Prop :=
  match snd best with
  | None => calls = []
  | Some c =>
      exists before after,
        calls = (before ++ fst best :: after)%list /\
        cost_of (fst best) = Ok c /\
        (forall p, In p before -> exists c', cost_of p = Ok c' /\ c < c') /\
        (forall p, In p after -> exists c', cost_of p = Ok c' /\ c <= c')
  end.

Lemma search_first_minimum (cands : list (string * R)) :
  forall best calls best' calls',
    first_minimum best calls ->
    search cost cands best calls = Ok (best', calls') ->
    first_minimum best' calls'.
Proof.
  induction cands as [| [m k] cands IH]; intros best calls best' calls' Hinv H;
    cbn [search] in H.
  - injection H as <- <-. exact Hinv.
  - destruct (cost m k) as [c |] eqn:Ec; cbn [bind] in H; [| discriminate].
    apply IH in H; [exact H |]. clear H IH.
    unfold first_minimum in *. destruct best as [bp [b |]]; cbn [snd fst] in *.
    + destruct Hinv as (before & after & -> & Eb & Hbefore & Hafter).
      unfold improves. destruct (Rlt_dec c b) as [Hlt | Hge].
      * rewrite Rltb_true by exact Hlt. cbn [snd fst].
        exists (before ++ bp :: after)%list, []. split; [reflexivity |].
        split; [exact Ec |]. split; [| intros p []].
        intros p Hp. apply in_app_or in Hp. destruct Hp as [Hp | [<- | Hp]].
        -- destruct (Hbefore p Hp) as (c' & E' & Hc'). exists c'. split; [exact E' | lra].
        -- exists b. split; [exact Eb | lra].
        -- destruct (Hafter p Hp) as (c' & E' & Hc'). exists c'. split; [exact E' | lra].
      * rewrite Rltb_false by lra. cbn [snd fst].
        exists before, (after ++ [(m, k)])%list.
        split; [now rewrite <- app_assoc |].
        split; [exact Eb |]. split; [exact Hbefore |].
        intros p Hp. apply in_app_or in Hp. destruct Hp as [Hp | [<- | []]].
        -- apply Hafter, Hp.
        -- exists c. split; [exact Ec | lra].
    + subst calls. cbn [improves snd fst app].
      exists [], []. split; [reflexivity |]. split; [exact Ec |].
      split; intros p [].
Qed.

Lemma search_from_nothing (cands : list (string * R)) (m0 : string) (k0 : R)
  (best' : best_state) (calls' : list (string * R)) :
  cands <> [] ->
  search cost cands (m0, k0, None) [] = Ok (best', calls') ->
  exists c before after,
    cands = (before ++ fst best' :: after)%list /\
    cost_of (fst best') = Ok c /\
    (forall p, In p before -> exists c', cost_of p = Ok c' /\ c < c') /\
    (forall p, In p after -> exists c', cost_of p = Ok c' /\ c <= c').
Proof.
  intros Hne H.
  pose proof (search_calls _ _ _ _ _ _ H) as Ecalls. cbn [app] in Ecalls.
  pose proof (search_first_minimum cands (m0, k0, None) [] best' calls'
                eq_refl H) as Hinv.
  unfold first_minimum in Hinv. subst calls'.
  destruct (snd best') as [c |]; [| contradiction].
  destruct Hinv as (before & after & E & Hrest). exists c, before, after.
  split; [exact E | exact Hrest].
Qed.

End SearchLoop.

Lemma choose_best_first_minimum (self : CurveInterpolator) (i : nat)
  (y0 y1 span : R) :
  (i + 1 < length (self_slopes self))%nat ->
  0.05 <= change_ratio y0 y1 ->
  exists m k c before after,
    _choose_best_segment self i y0 y1 span = Ok (m, k) /\
    candidate_pairs = (before ++ (m, k) :: after)%list /\
    _segment_cost self m k y0 y1 span
      (nth i (self_slopes self) 0) (nth (i + 1) (self_slopes self) 0) = Ok c /\
    (forall m' k', In (m', k') before ->
       exists c', _segment_cost self m' k' y0 y1 span
                    (nth i (self_slopes self) 0)
                    (nth (i + 1) (self_slopes self) 0) = Ok c' /\ c < c') /\
    (forall m' k', In (m', k') after ->
       exists c', _segment_cost self m' k' y0 y1 span
                    (nth i (self_slopes self) 0)
                    (nth (i + 1) (self_slopes self) 0) = Ok c' /\ c <= c').
Proof.
  intros Hi Hflat.
  destruct (choose_best_segment_searches self i y0 y1 span Hi Hflat)
    as (m & k & E & _).
  unfold _choose_best_segment. rewrite E. cbn [bind fst].
  revert E. unfold _choose_best_segment_calls.
  rewrite (getitem_nth (self_slopes self) i 0) by lia. cbn [bind].
  replace (Z.of_nat i + 1)%Z with (Z.of_nat (i + 1)) by lia.
  rewrite (getitem_nth (self_slopes self) (i + 1) 0) by lia. cbn [bind].
  fold (change_ratio y0 y1). rewrite Rltb_false by assumption.
  destruct (search _ candidate_pairs ("linear", 1, None) [])
    as [[best calls] |] eqn:Es; cbn [bind]; [| discriminate].
  intros E. injection E as E _.
  destruct (search_from_nothing _ candidate_pairs "linear" 1 best calls
              ltac:(discriminate) Es)
    as (c & before & after & Ec & Hc & Hb & Ha).
  rewrite E in Ec, Hc. cbn [fst snd] in Hc.
  exists m, k, c, before, after. split; [reflexivity |].
  split; [exact Ec |]. split; [exact Hc |]. split.
  - intros m' k' Hin. apply (Hb (m', k') Hin).
  - intros m' k' Hin. apply (Ha (m', k') Hin).
Qed.

(** X8.  On a segment that is not flat the selector returns the candidate
    of least cost, and among candidates of equal least cost the first in
    table order: every candidate before the chosen one costs strictly
    more, every later one at least as much. *)
Theorem chosen_descriptor_has_the_least_cost (self : CurveInterpolator)
  (i : nat) (y0 y1 span : R) :
  (i + 1 < length (self_slopes self))%nat ->
  0.05 <= change_ratio y0 y1 ->
  exists m k c before after,
    _choose_best_segment self i y0 y1 span = Ok (m, k) /\
    candidate_pairs = (before ++ (m, k) :: after)%list /\
    _segment_cost self m k y0 y1 span
      (nth i (self_slopes self) 0) (nth (i + 1) (self_slopes self) 0) = Ok c /\
    (forall m' k', In (m', k') before ->
       exists c', _segment_cost self m' k' y0 y1 span
                    (nth i (self_slopes self) 0)
                    (nth (i + 1) (self_slopes self) 0) = Ok c' /\ c < c') /\
    (forall m' k', In (m', k') after ->
       exists c', _segment_cost self m' k' y0 y1 span
                    (nth i (self_slopes self) 0)
                    (nth (i + 1) (self_slopes self) 0) = Ok c' /\ c <= c').
Proof. exact (choose_best_first_minimum self i y0 y1 span). Qed.

Lemma chosen_descriptor_has_the_least_cost_witness :
  exists m k c before after,
    _choose_best_segment interp_12 0 0 4 1 = Ok (m, k) /\
    candidate_pairs = (before ++ (m, k) :: after)%list /\
    _segment_cost interp_12 m k 0 4 1 4 4 = Ok c /\
    (forall m' k', In (m', k') before ->
       exists c', _segment_cost interp_12 m' k' 0 4 1 4 4 = Ok c' /\ c < c') /\
    (forall m' k', In (m', k') after ->
       exists c', _segment_cost interp_12 m' k' 0 4 1 4 4 = Ok c' /\ c <= c').
Proof.
  apply (chosen_descriptor_has_the_least_cost interp_12 0 0 4 1).
  - simpl; lia.
  - unfold change_ratio. rewrite !Rabs_pos_eq by lra. lra.
Defined.

Lemma choose_best_candidate (self : CurveInterpolator) (i : nat)
  (y0 y1 span : R) :
  (i + 1 < length (self_slopes self))%nat ->
  exists m k, _choose_best_segment self i y0 y1 span = Ok (m, k) /\
              In (m, k) candidate_pairs.
Proof.
  intros Hi. unfold _choose_best_segment.
  destruct (Rlt_dec (change_ratio y0 y1) 0.05) as [Hflat | Hflat].
  - rewrite (choose_best_flat self i y0 y1 span Hi Hflat).
    exists "linear", 1. split; [reflexivity |]. left. reflexivity.
  - destruct (choose_best_segment_searches self i y0 y1 span Hi) as (m & k & E & Hin);
      [lra |].
    rewrite E. exists m, k. split; [reflexivity | exact Hin].
Qed.

Lemma choose_best_index_error (self : CurveInterpolator) (i : nat)
  (y0 y1 span : R) :
  (length (self_slopes self) <= i + 1)%nat ->
  _choose_best_segment self i y0 y1 span = Raise IndexError.
Proof.
  intros Hi. unfold _choose_best_segment, _choose_best_segment_calls.
  destruct (np.getitem (self_slopes self) (Z.of_nat i)) as [sl | e] eqn:El;
    cbn [bind].
  - destruct (np.getitem (self_slopes self) (Z.of_nat i + 1)) as [sr | e] eqn:Er;
      cbn [bind].
    + exfalso. revert Er. unfold np.getitem.
      assert (E0 : (Z.of_nat i + 1 <? 0)%Z = false) by (apply Z.ltb_ge; lia).
      rewrite !E0.
      destruct (nth_error (self_slopes self) (Z.to_nat (Z.of_nat i + 1))) eqn:E;
        [| discriminate].
      assert (nth_error (self_slopes self) (Z.to_nat (Z.of_nat i + 1)) <> None)
        by congruence.
      apply nth_error_Some in H. lia.
    + now rewrite (getitem_error _ _ _ Er).
  - now rewrite (getitem_error _ _ _ El).
Qed.

(** X9.  The selector answers for segment [i] exactly when the target
    slopes of both its ends exist; its answer is always a pair of the
    candidate table (so never ["cos"], ["sin"] or ["poly2"], and never
    a parameter outside the table), and without those slopes it fails
    with [IndexError], flat segment or not. *)
Theorem chosen_descriptor_is_a_candidate (self : CurveInterpolator) (i : nat)
  (y0 y1 span : R) :
  ((i + 1 < length (self_slopes self))%nat ->
   exists m k, _choose_best_segment self i y0 y1 span = Ok (m, k) /\
               In (m, k) candidate_pairs) /\
  ((length (self_slopes self) <= i + 1)%nat ->
   _choose_best_segment self i y0 y1 span = Raise IndexError).
Proof.
  split; [apply choose_best_candidate | apply choose_best_index_error].
Qed.

(** ** Masked assignment *)

Lemma place_length {X : Type} (mask : list bool) (vals a : list X) :
  length (np.place mask vals a) = length a.
Proof.
  revert vals a. induction mask as [| b mask IH]; intros vals [| a0 a];
    try reflexivity.
  - destruct b; reflexivity.
  - destruct b; cbn [np.place].
    + destruct vals as [| v vals]; [reflexivity |]. cbn [length]. now rewrite IH.
    + cbn [length]. now rewrite IH.
Qed.

(** Assigning [f] of the selected queries to the selected positions. *)
Lemma place_compress_map {X Y : Type} (p : X -> bool) (f : X -> Y)
  (l : list X) (base : list Y) :
  length base = length l ->
  np.place (map p l) (map f (np.compress (map p l) l)) base
  = np.map2 (fun q b => if p q then f q else b) l base.
Proof.
  revert base. induction l as [| q l IH]; intros [| b base] H;
    try discriminate; [reflexivity |].
  cbn [map np.compress np.place np.map2]. destruct (p q); cbn [map].
  - f_equal. apply IH. simpl in H; lia.
  - f_equal. apply IH. simpl in H; lia.
Qed.

Lemma place_nothing {X Y : Type} (p : X -> bool) (f : X -> Y)
  (l : list X) (base : list Y) :
  length base = length l ->
  existsb (fun b => b) (map p l) = false ->
  np.map2 (fun q b => if p q then f q else b) l base = base.
Proof.
  revert base. induction l as [| q l IH]; intros [| b base] H E;
    try discriminate; [reflexivity |].
  cbn [map existsb] in E. apply orb_false_iff in E. destruct E as [Eq E].
  cbn [np.map2]. rewrite Eq. f_equal. apply IH; [simpl in H; lia | exact E].
Qed.

Lemma existsb_mask_false {X : Type} (p : X -> bool) (l : list X) :
  existsb (fun b => b) (map p l) = false <-> forall q, In q l -> p q = false.
Proof.
  induction l as [| a l IH]; cbn [map existsb]; [split; [intros _ q [] | reflexivity] |].
  rewrite orb_false_iff, IH. split.
  - intros [Ha Hl] q [<- | Hq]; auto.
  - intros H. split; [apply H; now left | intros q Hq; apply H; now right].
Qed.

(** ** The three stages of a call *)

Section CallStages.

Variable self : CurveInterpolator.
Variable new_id : nat.
Variable qs : list R.
Variable mode : string.
Variable k : R.
Variable segments : option seglist.
Variable extrapolate : string.
Variables x0 x1 : R.

Hypothesis Hx0 : np.getitem (self_x self) 0 = Ok x0.
Hypothesis Hx1 : np.getitem (self_x self) (-1) = Ok x1.
Hypothesis Hle : x0 <= x1.

Let inside (q : R) : bool := (x0 <=? q) && (q <=? x1).
Let x_in : list R := np.compress (map inside qs) qs.

(** The interpolation branch of the call on the queries inside. *)
Let interior : M (list R) :=
  match segments with
  | Some segs => _multi_segment x_in segs
  | None =>
      if negb (String.eqb mode "auto") then
        lift (_single_segment self x_in mode k)
      else if (self_n self =? 2)%nat then
        lift (xa <- np.getitem (self_x self) 1 ;;
              xb <- np.getitem (self_x self) 0 ;;
              let span := xa - xb in
              ya <- np.getitem (self_y self) 0 ;;
              yb <- np.getitem (self_y self) 1 ;;
              '(mode_auto, k_auto) <-
                 _choose_best_segment self 0 ya yb span ;;
              _single_segment self x_in mode_auto k_auto)
      else
        auto_segs <~ _auto_segments new_id ;;
        _multi_segment x_in auto_segs
  end.

Variable self' : CurveInterpolator.
Variables fin gl gr : R -> R.

Hypothesis Hin :
  existsb (fun b => b) (map inside qs) = true ->
  interior self = (self', Ok (map fin x_in)).
Hypothesis Hl :
  forall l, _auto_extrap self l left extrapolate = Ok (map gl l).
Hypothesis Hr :
  forall l, _auto_extrap self l right extrapolate = Ok (map gr l).

Lemma call_stages_full :
  __call__ new_id qs mode k segments extrapolate self
  = ((if existsb (fun b => b) (map inside qs) then self' else self),
     Ok (map (fun q => if q <? x0 then gl q
                       else if x1 <? q then gr q else fin q) qs)).
Proof.
  pose proof Hin as Hin'.
  unfold interior, x_in, bindM, get, lift, ret in Hin'.
  rewrite ?Hx0, ?Hx1 in Hin'.
  unfold __call__, bindM, get, lift, ret. rewrite Hx0, Hx1.
  fold inside.
  set (zeros := map (fun _ : R => 0) qs).
  assert (Hz : length zeros = length qs) by apply length_map.
  set (r1 := np.map2 (fun q b => if inside q then fin q else b) qs zeros).
  assert (H1 : length r1 = length qs)
    by (unfold r1; rewrite map2_length; lia).
  set (r2 := np.map2 (fun q b => if q <? x0 then gl q else b) qs r1).
  assert (H2 : length r2 = length qs)
    by (unfold r2; rewrite map2_length; lia).
  set (r3 := np.map2 (fun q b => if x1 <? q then gr q else b) qs r2).
  assert (Hfinal : r3 = map (fun q => if q <? x0 then gl q
                                      else if x1 <? q then gr q else fin q) qs).
  { unfold r3, r2, r1, zeros. rewrite !map2_map_r.
    apply map_ext. intros q. unfold inside.
    destruct (Rlt_dec q x0) as [Hq | Hq].
    - rewrite (Rltb_true q x0), (Rltb_false x1 q) by lra. reflexivity.
    - rewrite (Rltb_false q x0) by lra.
      destruct (Rlt_dec x1 q) as [Hq' | Hq'].
      + rewrite (Rltb_true x1 q) by lra. reflexivity.
      + rewrite (Rltb_false x1 q), !Rleb_true by lra. reflexivity. }
  rewrite <- Hfinal. clear Hfinal.
  pose proof (place_compress_map inside fin qs zeros Hz) as P1.
  pose proof (place_compress_map (fun q => q <? x0) gl qs r1 H1) as P2.
  pose proof (place_compress_map (fun q => x1 <? q) gr qs r2 H2) as P3.
  unfold x_in in *.
  assert (S1 : (if existsb (fun b => b) (map inside qs)
                then np.place (map inside qs)
                       (map fin (np.compress (map inside qs) qs)) zeros
                else zeros) = r1).
  { clear Hin Hin'. destruct (existsb (fun b => b) (map inside qs)) eqn:E;
      [exact P1 |].
    symmetry. apply place_nothing; assumption. }
  assert (S2 : (if existsb (fun b => b) (map (fun q => q <? x0) qs)
                then np.place (map (fun q => q <? x0) qs)
                       (map gl (np.compress (map (fun q => q <? x0) qs) qs)) r1
                else r1) = r2).
  { destruct (existsb (fun b => b) (map (fun q => q <? x0) qs)) eqn:E;
      [exact P2 |].
    symmetry. apply (place_nothing (fun q => q <? x0)); assumption. }
  assert (S3 : (if existsb (fun b => b) (map (fun q => x1 <? q) qs)
                then np.place (map (fun q => x1 <? q) qs)
                       (map gr (np.compress (map (fun q => x1 <? q) qs) qs)) r2
                else r2) = r3).
  { destruct (existsb (fun b => b) (map (fun q => x1 <? q) qs)) eqn:E;
      [exact P3 |].
    symmetry. apply (place_nothing (fun q => x1 <? q)); assumption. }
  rewrite <- S3, <- S2, <- S1. clear S1 S2 S3 P1 P2 P3.
  destruct (existsb (fun b => b) (map inside qs)) eqn:Ei.
  - rewrite (Hin' eq_refl).
    destruct (existsb (fun b => b) (map (fun q => q <? x0) qs));
      destruct (existsb (fun b => b) (map (fun q => x1 <? q) qs));
      rewrite ?Hl, ?Hr; reflexivity.
  - destruct (existsb (fun b => b) (map (fun q => q <? x0) qs));
      destruct (existsb (fun b => b) (map (fun q => x1 <? q) qs));
      rewrite ?Hl, ?Hr; reflexivity.
Qed.

Lemma call_stages :
  snd (__call__ new_id qs mode k segments extrapolate self)
  = Ok (map (fun q => if q <? x0 then gl q
                      else if x1 <? q then gr q else fin q) qs).
Proof. rewrite call_stages_full. reflexivity. Qed.

End CallStages.

(** A failure of the interpolation branch is the failure of the call. *)
Lemma call_interior_raises (self self' : CurveInterpolator) (new_id : nat)
  (qs : list R) (mode : string) (k : R) (extrapolate : string) (x0 x1 : R)
  (e : exn) :
  np.getitem (self_x self) 0 = Ok x0 ->
  np.getitem (self_x self) (-1) = Ok x1 ->
  existsb (fun b => b) (map (fun q => (x0 <=? q) && (q <=? x1)) qs) = true ->
  mode <> "auto" ->
  _single_segment self
    (np.compress (map (fun q => (x0 <=? q) && (q <=? x1)) qs) qs) mode k
  = Raise e ->
  snd (__call__ new_id qs mode k None extrapolate self) = Raise e.
Proof.
  intros Hx0 Hx1 Hany Hm Hfail.
  unfold __call__, bindM, get, lift, ret. rewrite Hx0, Hx1, Hany.
  destruct (String.eqb_spec mode "auto") as [? | _]; [contradiction |].
  cbn [negb]. rewrite Hfail. reflexivity.
Qed.

(** X10.  A call returns as many values as it is given queries, whatever
    the mode, the segments and the extrapolation. *)
Theorem call_preserves_length (self : CurveInterpolator) (new_id : nat)
  (qs : list R) (mode : string) (k : R) (segments : option seglist)
  (extrapolate : string) (r : list R) :
  snd (__call__ new_id qs mode k segments extrapolate self) = Ok r ->
  length r = length qs.
Proof.
  unfold __call__, bindM, get, lift, ret.
  destruct (np.getitem (self_x self) 0) as [x0 |]; [| discriminate].
  destruct (np.getitem (self_x self) (-1)) as [x1 |]; [| discriminate].
  set (zeros := map (fun _ : R => 0) qs).
  assert (Hz : length zeros = length qs) by apply length_map.
  destruct (existsb (fun b => b) (map (fun q => (x0 <=? q) && (q <=? x1)) qs)).
  - match goal with
    | |- context [match ?m self with _ => _ end] =>
        destruct (m self) as [s1 [vals | e]]
    end; [| discriminate].
    destruct (existsb (fun b => b) (map (fun q => q <? x0) qs));
      [destruct (_auto_extrap self _ left extrapolate); [| discriminate] |];
      (destruct (existsb (fun b => b) (map (fun q => x1 <? q) qs));
       [destruct (_auto_extrap self _ right extrapolate); [| discriminate] |]);
      cbn [snd]; intros H; injection H as <-;
      rewrite ?place_length; exact Hz.
  - destruct (existsb (fun b => b) (map (fun q => q <? x0) qs));
      [destruct (_auto_extrap self _ left extrapolate); [| discriminate] |];
      (destruct (existsb (fun b => b) (map (fun q => x1 <? q) qs));
       [destruct (_auto_extrap self _ right extrapolate); [| discriminate] |]);
      cbn [snd]; intros H; injection H as <-;
      rewrite ?place_length; exact Hz.
Qed.

(** ** The extrapolation laws *)

(** The boundary lookups of [_manual_extrap] on a Sample Set. *)
Ltac extrap_reads self sd Hlen Hn :=
  unfold _manual_extrap; destruct sd;
  [ rewrite (getitem_0 (self_x self) 0), (getitem_1 (self_x self) 0),
      (getitem_0 (self_y self) 0), (getitem_1 (self_y self) 0) by lia
  | rewrite (getitem_m2 (self_x self) 0), (getitem_m1 (self_x self) 0),
      (getitem_m2 (self_y self) 0), (getitem_m1 (self_y self) 0) by lia;
    rewrite <- ?Hlen ];
  cbn [bind].

Lemma boundary_gap (self : CurveInterpolator) :
  valid self ->
  1e-12 < nth 1 (self_x self) 0 - nth 0 (self_x self) 0 /\
  1e-12 < nth (length (self_x self) - 1) (self_x self) 0
          - nth (length (self_x self) - 2) (self_x self) 0.
Proof.
  intros [(Hlen & Hn & Hs) _]. split; apply sample_gap; (exact Hs || lia).
Qed.

(** Every law either has a value for every query, computed query by
    query, or raises [ValueError] whatever the queries. *)
Lemma manual_extrap_pointwise (self : CurveInterpolator) (sd : side)
  (m : string) :
  valid self ->
  (exists g, forall l, _manual_extrap self l sd m = Ok (map g l)) \/
  (forall l, _manual_extrap self l sd m = Raise ValueError).
Proof.
  intros [(Hlen & Hn & _) _].
  extrap_reads self sd Hlen Hn;
    repeat match goal with
    | |- context [String.eqb m ?s] => destruct (String.eqb m s)
    | |- context [if ?b then Raise ValueError else _] => destruct b
    end;
    try (right; reflexivity);
    left; eexists; intros l; unfold np.full_like; reflexivity.
Qed.

Lemma auto_extrap_pointwise (self : CurveInterpolator) (sd : side)
  (m : string) :
  valid self ->
  exists g, forall l, _auto_extrap self l sd m = Ok (map g l).
Proof.
  intros Hv.
  assert (Hlin : forall l, _auto_extrap self l sd "linear"
                           = Ok (map (linear_law self sd) l)).
  { intros l. unfold _auto_extrap. cbn [String.eqb Ascii.eqb Bool.eqb negb].
    now rewrite (manual_linear_valid self l sd Hv). }
  destruct (String.eqb_spec m "auto") as [-> | Hm].
  - exists (linear_law self sd). intros l. rewrite auto_is_linear. apply Hlin.
  - destruct (manual_extrap_pointwise self sd m Hv) as [[g Hg] | Hfail].
    + exists g. intros l. unfold _auto_extrap.
      destruct (String.eqb_spec m "auto") as [? | _]; [contradiction |].
      cbn [negb]. now rewrite Hg.
    + exists (linear_law self sd). intros l.
      unfold _auto_extrap.
      destruct (String.eqb_spec m "auto") as [? | _]; [contradiction |].
      cbn [negb]. rewrite Hfail. apply manual_linear_valid, Hv.
Qed.

Lemma auto_extrap_edge (self : CurveInterpolator) (sd : side) (l : list R) :
  valid self ->
  _auto_extrap self l sd "edge"
  = Ok (map (fun _ => boundary (self_y self) sd) l).
Proof.
  intros [(Hlen & Hn & _) _]. unfold _auto_extrap.
  cbn [String.eqb Ascii.eqb Bool.eqb negb]. unfold boundary, first, final.
  extrap_reads self sd Hlen Hn; reflexivity.
Qed.





Lemma exp_ln_ratio (a b : R) : 0 < a -> 0 < b -> a * exp (ln (b / a)) = b.
Proof.
  intros Ha Hb. rewrite exp_ln by (apply Rdiv_lt_0_compat; assumption).
  field. lra.
Qed.

Lemma exp_ln_ratio_opp (a b : R) :
  0 < a -> 0 < b -> b * exp (- ln (b / a)) = a.
Proof.
  intros Ha Hb. rewrite exp_Ropp, exp_ln by (apply Rdiv_lt_0_compat; assumption).
  field. lra.
Qed.

Lemma ln_ratio_pos (a b : R) : 0 < a -> a < b -> 0 < ln (b / a).
Proof.
  intros Ha Hab. rewrite <- ln_1. apply ln_increasing; [lra |].
  apply (Rmult_lt_reg_r a); [exact Ha |].
  replace (b / a * a) with b by (field; lra). lra.
Qed.

(** [b ** p] for the exponent [p] of the power law through [(a, ya)] and
    [(b, yb)], written from [a]. *)
Lemma power_law_forward (a b ya yb : R) :
  0 < a -> a < b -> 0 < ya -> 0 < yb ->
  ya * np.power (b / a) (ln (yb / ya) / ln (b / a)) = yb.
Proof.
  intros Ha Hab Hya Hyb. pose proof (ln_ratio_pos a b Ha Hab) as Hln.
  unfold np.power. destruct (Req_dec_T (ln (yb / ya) / ln (b / a)) 0) as [E | E].
  - rewrite Reqb_true by exact E.
    assert (E' : ln (yb / ya) = 0).
    { replace (ln (yb / ya)) with (ln (yb / ya) / ln (b / a) * ln (b / a))
        by (field; lra). rewrite E. lra. }
    assert (Hr : yb / ya = 1).
    { rewrite <- (exp_ln (yb / ya)) by (apply Rdiv_lt_0_compat; assumption).
      rewrite E'. apply exp_0. }
    replace yb with (yb / ya * ya) by (field; lra). rewrite Hr. lra.
  - rewrite Reqb_false by exact E.
    rewrite Rltb_true by (apply Rdiv_lt_0_compat; lra).
    unfold Rpower.
    replace (ln (yb / ya) / ln (b / a) * ln (b / a)) with (ln (yb / ya))
      by (field; lra).
    apply exp_ln_ratio; assumption.
Qed.

Lemma power_law_backward (a b ya yb : R) :
  0 < a -> a < b -> 0 < ya -> 0 < yb ->
  yb * np.power (a / b) (ln (yb / ya) / ln (b / a)) = ya.
Proof.
  intros Ha Hab Hya Hyb. pose proof (ln_ratio_pos a b Ha Hab) as Hln.
  unfold np.power. destruct (Req_dec_T (ln (yb / ya) / ln (b / a)) 0) as [E | E].
  - rewrite Reqb_true by exact E.
    assert (E' : ln (yb / ya) = 0).
    { replace (ln (yb / ya)) with (ln (yb / ya) / ln (b / a) * ln (b / a))
        by (field; lra). rewrite E. lra. }
    assert (Hr : yb / ya = 1).
    { rewrite <- (exp_ln (yb / ya)) by (apply Rdiv_lt_0_compat; assumption).
      rewrite E'. apply exp_0. }
    assert (Hy : yb = ya)
      by (replace yb with (yb / ya * ya) by (field; lra); rewrite Hr; lra).
    lra.
  - rewrite Reqb_false by exact E.
    rewrite Rltb_true by (apply Rdiv_lt_0_compat; lra).
    unfold Rpower.
    replace (a / b) with (/ (b / a)) by (field; lra).
    rewrite ln_Rinv by (apply Rdiv_lt_0_compat; lra).
    replace (ln (yb / ya) / ln (b / a) * - ln (b / a)) with (- ln (yb / ya))
      by (field; lra).
    apply exp_ln_ratio_opp; assumption.
Qed.

Ltac two_values :=
  apply f_equal; apply f_equal2; [| apply f_equal2; [| reflexivity]].

Lemma leb_pos (a : R) : 0 < a -> (a <=? 0) = false.
Proof. intros H. apply Rleb_false, H. Qed.

(** X12.  The laws fitted to two samples pass through both of them: at
    the boundary sample and at the sample next to it, ["linear"] returns
    their [y] values, and so do ["exp"] (for positive [y]) and ["power"]
    (for positive [x] and [y]). *)
Theorem fitted_laws_pass_through_both_samples (self : CurveInterpolator)
  (sd : side) :
  valid self ->
  let xb := boundary (self_x self) sd in
  let xi := inner (self_x self) sd in
  let yb := boundary (self_y self) sd in
  let yi := inner (self_y self) sd in
  _manual_extrap self [xb; xi] sd "linear" = Ok [yb; yi] /\
  (0 < yb -> 0 < yi ->
   _manual_extrap self [xb; xi] sd "exp" = Ok [yb; yi]) /\
  (0 < xb -> 0 < xi -> 0 < yb -> 0 < yi ->
   _manual_extrap self [xb; xi] sd "power" = Ok [yb; yi]).
Proof.
  intros Hv. pose proof Hv as [(Hlen & Hn & _) _].
  destruct (boundary_gap self Hv) as [Hg0 Hg1].
  unfold boundary, inner, first, final. cbv zeta.
  split; [| split].
  - extrap_reads self sd Hlen Hn; cbn [map]; two_values; try lra;
      field; lra.
  - intros Hyb Hyi.
    extrap_reads self sd Hlen Hn; rewrite <- ?Hlen in *;
      rewrite !leb_pos by assumption; cbn [orb map]; two_values.
    + replace (nth 0 (self_x self) 0 - nth 0 (self_x self) 0) with 0 by lra.
      rewrite Rmult_0_r, exp_0. lra.
    + replace (ln (nth 1 (self_y self) 0 / nth 0 (self_y self) 0)
               / (nth 1 (self_x self) 0 - nth 0 (self_x self) 0)
               * (nth 1 (self_x self) 0 - nth 0 (self_x self) 0))
        with (ln (nth 1 (self_y self) 0 / nth 0 (self_y self) 0))
        by (field; lra).
      apply exp_ln_ratio; assumption.
    + match goal with |- _ * exp (_ * (?a - ?a)) = _ =>
        replace (a - a) with 0 by lra end.
      rewrite Rmult_0_r, exp_0. lra.
    + match goal with |- ?yb' * exp (ln ?r / (?b - ?a) * (?a - ?b)) = _ =>
        replace (ln r / (b - a) * (a - b)) with (- ln r) by (field; lra) end.
      apply exp_ln_ratio_opp; assumption.
  - intros Hxb Hxi Hyb Hyi.
    extrap_reads self sd Hlen Hn; rewrite <- ?Hlen in *;
      rewrite !leb_pos by assumption; cbn [orb map]; two_values.
    + replace (nth 0 (self_x self) 0 / nth 0 (self_x self) 0) with 1
        by (field; lra).
      rewrite power_1. lra.
    + apply power_law_forward; lra.
    + match goal with |- _ * np.power (?a / ?a) _ = _ =>
        replace (a / a) with 1 by (field; lra) end.
      rewrite power_1. lra.
    + apply power_law_backward; lra.
Qed.

Lemma fitted_laws_pass_through_both_samples_witness :
  _manual_extrap interp_12 [1; 2] left "linear" = Ok [0; 4].
Proof.
  exact (proj1 (fitted_laws_pass_through_both_samples interp_12 left
                  interp_12_valid)).
Defined.



(** ** Evaluation, query by query *)

Lemma valid_reads (self : CurveInterpolator) :
  valid self ->
  np.getitem (self_x self) 0 = Ok (first (self_x self)) /\
  np.getitem (self_x self) (-1) = Ok (final (self_x self)) /\
  first (self_x self) <= final (self_x self).
Proof.
  intros [(Hlen & Hn & Hs) _]. split; [| split].
  - apply getitem_0. lia.
  - apply getitem_m1. lia.
  - pose proof (first_le_final _ Hs Hn). lra.
Qed.

Lemma known_mode_not_auto (mode : string) :
  known_mode mode = true -> String.eqb mode "auto" = false.
Proof.
  intros H. apply known_mode_cases in H.
  destruct H as [-> | [-> | [-> | [-> | [-> | [-> | [-> | ->]]]]]]]; reflexivity.
Qed.

(** A call in a named mode, query by query: extrapolation on either side
    of the sampled range, the shape between the end samples inside. *)
Lemma call_named (self : CurveInterpolator) (new_id : nat) (qs : list R)
  (mode : string) (k : R) (extrapolate : string) (gl gr : R -> R) :
  valid self -> known_mode mode = true ->
  (forall l, _auto_extrap self l left extrapolate = Ok (map gl l)) ->
  (forall l, _auto_extrap self l right extrapolate = Ok (map gr l)) ->
  snd (__call__ new_id qs mode k None extrapolate self)
  = Ok (map (fun q =>
               if q <? first (self_x self) then gl q
               else if final (self_x self) <? q then gr q
               else first (self_y self)
                    + (final (self_y self) - first (self_y self))
                      * shape mode
                          (np.clip ((q - first (self_x self))
                                    / (final (self_x self) - first (self_x self)))
                             0 1) k) qs).
Proof.
  intros Hv Hm Hl Hr. destruct (valid_reads self Hv) as (H0 & H1 & Hle).
  apply (call_stages self new_id qs mode k None extrapolate _ _ H0 H1 Hle self);
    [| exact Hl | exact Hr].
  intros _. rewrite (known_mode_not_auto mode Hm). cbn [negb]. unfold lift.
  now rewrite (single_segment_spec self _ mode k Hv Hm).
Qed.

Lemma supported_known (m : string) (k : R) :
  supported_descriptor m k -> known_mode m = true.
Proof. intros [H _]. exact H. Qed.

(** The descriptors that automatic mode computes for a Sample Set. *)
Lemma auto_items (self : CurveInterpolator) :
  valid self ->
  exists items,
    auto_segments_loop self (seq 0 (length (self_x self) - 1)) [] = Ok items /\
    length items = (length (self_x self) - 1)%nat /\
    Forall supported_segment items.
Proof.
  intros [(Hl & Hn & Hs) [_ Hslopes]].
  destruct (auto_segments_loop_spec self Hl Hslopes
              (seq 0 (length (self_x self) - 1)) [])
    as (items & Ei & Hlen & Hall).
  - intros i Hi. apply in_seq in Hi. lia.
  - constructor.
  - exists items. split; [exact Ei |]. split; [| exact Hall].
    rewrite Hlen, length_seq. reflexivity.
Qed.

Lemma call_elementwise (self : CurveInterpolator) (mode : string) (k : R)
  (extrapolate : string) :
  valid self -> fresh self ->
  mode = "auto" \/ known_mode mode = true ->
  exists f : R -> R, forall new_id qs,
    snd (__call__ new_id qs mode k None extrapolate self) = Ok (map f qs).
Proof.
  intros Hv Hfresh Hmode.
  destruct (auto_extrap_pointwise self left extrapolate Hv) as [gl Hl].
  destruct (auto_extrap_pointwise self right extrapolate Hv) as [gr Hr].
  destruct Hmode as [-> | Hm].
  2:{ eexists. intros new_id qs. apply call_named; eassumption. }
  destruct (valid_reads self Hv) as (H0 & H1 & Hle).
  pose proof Hv as [(Hlen & Hn & Hs) [Hself_n Hslopes]].
  destruct Hfresh as [Hauto Hcache].
  destruct (Nat.eq_dec (self_n self) 2) as [E2 | E2].
  - (* two samples: one chosen descriptor *)
    destruct (choose_best_supported self 0
                (nth 0 (self_y self) 0) (nth 1 (self_y self) 0)
                (nth 1 (self_x self) 0 - nth 0 (self_x self) 0))
      as (m & km & Ec & Hsup); [lia |].
    eexists. intros new_id qs.
    apply (call_stages self new_id qs "auto" k None extrapolate _ _ H0 H1 Hle self);
      [| exact Hl | exact Hr].
    intros _. cbn [String.eqb Ascii.eqb Bool.eqb negb].
    rewrite E2. cbn [Nat.eqb]. unfold lift.
    rewrite (getitem_1 (self_x self) 0), (getitem_0 (self_x self) 0),
      (getitem_0 (self_y self) 0), (getitem_1 (self_y self) 0) by lia.
    cbn [bind]. rewrite Ec. cbn [bind].
    now rewrite (single_segment_spec self _ m km Hv (supported_known m km Hsup)).
  - (* more samples: one descriptor per interval *)
    destruct (auto_items self Hv) as (items & Ei & Hli & Hall).
    exists (fun q =>
              if q <? first (self_x self) then gl q
              else if final (self_x self) <? q then gr q
              else segment_value (self_x self) (self_y self)
                     (map seg_mode items)
                     (map (fun s => match seg_k s with Some k => k | None => 1 end)
                        items) q).
    intros new_id qs.
    set (segs := {| seg_id := new_id; seg_items := items |}).
    set (self1 := set_auto_segments_cache self (Some segs)).
    apply (call_stages self new_id qs "auto" k None extrapolate _ _ H0 H1 Hle
             (set_seg_cache self1 (seg_modes segs) (seg_ks segs) (seg_id segs)));
      [| exact Hl | exact Hr].
    intros _. cbn [String.eqb Ascii.eqb Bool.eqb negb].
    destruct (Nat.eqb_spec (self_n self) 2) as [? | _]; [contradiction |].
    unfold _auto_segments, bindM, get, lift, put, ret. rewrite Hauto, Ei.
    fold segs. fold self1.
    rewrite (multi_segment_spec self1 segs); [reflexivity | | | | |].
    + exact Hlen.
    + exact Hn.
    + unfold cache_miss. cbn. rewrite Hcache. discriminate.
    + cbn. lia.
    + intros q _. apply supported_known with (k := nth (interval (self_x self) q)
                                                     (seg_ks segs) 0).
      apply supported_nth; [exact Hall |].
      pose proof (interval_bound (self_x self) q Hn). cbn in *. lia.
Qed.

(** X14.  Evaluation is element-wise on finite queries.  In exact
    arithmetic, on an interpolator fresh from the constructor, in
    automatic mode or in a named mode without a segment list (the
    parameter of ["power"] not being negative), a call returns for
    every array of finite queries, and what it returns at a position
    depends on the query at that position alone.  (A [nan] query
    satisfies none of the three masks of a call, so that its position of
    the [np.empty_like] result is never written; such queries are not
    covered.) *)
Theorem evaluation_is_elementwise (self : CurveInterpolator) (mode : string)
  (k : R) (extrapolate : string) :
  valid self -> fresh self ->
  mode = "auto" \/ (known_mode mode = true /\ (mode = "power" -> 0 <= k)) ->
  exists f : R -> R, forall new_id qs,
    snd (__call__ new_id qs mode k None extrapolate self) = Ok (map f qs).
Proof.
  intros Hv Hf Hm. apply (call_elementwise self mode k extrapolate Hv Hf).
  destruct Hm as [Hm | [Hm _]]; [left | right]; exact Hm.
Qed.

Lemma evaluation_is_elementwise_witness :
  exists f : R -> R, forall new_id qs,
    snd (__call__ new_id qs "auto" 1 None "edge" interp_12) = Ok (map f qs).
Proof.
  apply (evaluation_is_elementwise interp_12 "auto" 1 "edge").
  - exact interp_12_valid.
  - exact interp_12_fresh.
  - left. reflexivity.
Defined.

(** ** Clipping *)

Lemma clip_range (v : R) : 0 <= np.clip v 0 1 <= 1.
Proof.
  unfold np.clip, Rmin, Rmax.
  destruct (Rle_dec v 0); destruct (Rle_dec _ 1); lra.
Qed.

Lemma clip_low (v : R) : v <= 0 -> np.clip v 0 1 = 0.
Proof.
  intros H. unfold np.clip, Rmin, Rmax.
  destruct (Rle_dec v 0); destruct (Rle_dec _ 1); lra.
Qed.

Lemma clip_high (v : R) : 1 <= v -> np.clip v 0 1 = 1.
Proof.
  intros H. unfold np.clip, Rmin, Rmax.
  destruct (Rle_dec v 0); destruct (Rle_dec _ 1); lra.
Qed.

Lemma clip_mono (u v : R) : u <= v -> np.clip u 0 1 <= np.clip v 0 1.
Proof.
  intros H. unfold np.clip.
  apply Rle_min_compat_r, Rle_max_compat_r, H.
Qed.

(** ** A named mode with ["edge"] extrapolation *)

Section NamedEdge.

Variable self : CurveInterpolator.
Variable mode : string.
Variable k : R.

Hypothesis Hv : valid self.
Hypothesis Hsup : supported_descriptor mode k.

Let x0 := first (self_x self).
Let x1 := final (self_x self).
Let y0 := first (self_y self).
Let y1 := final (self_y self).

(** The normalized coordinate of a query. *)
Let t (q : R) : R := np.clip ((q - x0) / (x1 - x0)) 0 1.

Lemma named_edge_span : 1e-12 < x1 - x0.
Proof.
  destruct Hv as [(Hlen & Hn & Hs) _]. apply first_le_final; assumption.
Qed.

Lemma named_edge_t_mono (a b : R) : a <= b -> t a <= t b.
Proof.
  intros H. pose proof named_edge_span as Hs. apply clip_mono.
  unfold Rdiv. apply Rmult_le_compat_r; [| lra].
  left. apply Rinv_0_lt_compat. lra.
Qed.

Lemma named_edge_t_low (q : R) : q <= x0 -> t q = 0.
Proof.
  intros H. pose proof named_edge_span as Hs. apply clip_low.
  unfold Rdiv. replace 0 with (0 * / (x1 - x0)) by lra.
  apply Rmult_le_compat_r; [| lra].
  left. apply Rinv_0_lt_compat. lra.
Qed.

Lemma named_edge_t_high (q : R) : x1 <= q -> t q = 1.
Proof.
  intros H. pose proof named_edge_span as Hs. apply clip_high.
  replace 1 with ((x1 - x0) / (x1 - x0)) at 1 by (field; lra).
  unfold Rdiv. apply Rmult_le_compat_r; [| lra].
  left. apply Rinv_0_lt_compat. lra.
Qed.

(** With ["edge"] extrapolation the call is one formula over the whole
    line: the shape of the clipped coordinate, rescaled. *)
Lemma call_named_edge (new_id : nat) (qs : list R) :
  snd (__call__ new_id qs mode k None "edge" self)
  = Ok (map (fun q => y0 + (y1 - y0) * shape mode (t q) k) qs).
Proof.
  destruct Hsup as [Hm Hk].
  rewrite (call_named self new_id qs mode k "edge"
             (fun _ => boundary (self_y self) left)
             (fun _ => boundary (self_y self) right) Hv Hm)
    by (intros l; apply auto_extrap_edge, Hv).
  f_equal. apply map_ext. intros q. fold x0 x1 y0 y1. cbn [boundary].
  fold y0 y1. fold (t q).
  destruct (Rlt_dec q x0) as [Hq | Hq].
  - rewrite Rltb_true by exact Hq.
    rewrite named_edge_t_low by lra. rewrite shape_0 by assumption. lra.
  - rewrite Rltb_false by lra. destruct (Rlt_dec x1 q) as [Hq' | Hq'].
    + rewrite Rltb_true by exact Hq'.
      rewrite named_edge_t_high by lra. rewrite shape_1 by assumption. lra.
    + rewrite Rltb_false by lra. reflexivity.
Qed.

Lemma named_edge_value_range (q : R) :
  Rmin y0 y1 <= y0 + (y1 - y0) * shape mode (t q) k <= Rmax y0 y1.
Proof.
  destruct Hsup as [Hm Hk].
  pose proof (shape_range mode k (t q) Hm Hk (clip_range _)) as [Hs0 Hs1].
  unfold Rmin, Rmax. destruct (Rle_dec y0 y1); nra.
Qed.

Lemma named_edge_value_mono (a b : R) :
  a <= b ->
  (y0 <= y1 ->
   y0 + (y1 - y0) * shape mode (t a) k <= y0 + (y1 - y0) * shape mode (t b) k) /\
  (y1 <= y0 ->
   y0 + (y1 - y0) * shape mode (t b) k <= y0 + (y1 - y0) * shape mode (t a) k).
Proof.
  intros Hab. destruct Hsup as [Hm Hk].
  pose proof (clip_range ((a - x0) / (x1 - x0))) as [Ha0 Ha1].
  pose proof (clip_range ((b - x0) / (x1 - x0))) as [Hb0 Hb1].
  pose proof (shape_mono mode k (t a) (t b) Hm Hk Ha0
                (named_edge_t_mono a b Hab) Hb1) as Hs.
  split; intros Hy; nra.
Qed.

End NamedEdge.

(** X15.  In exact arithmetic, a named mode with the default ["edge"]
    extrapolation never leaves the range of the two end samples: every
    returned value lies between the first and the last [y], queries at or
    left of the first sample get the first [y], queries at or right of
    the last sample get the last [y].  (The program rounds the sum
    [y0 + (y1 - y0) * r]: on binary64 numbers the value at the last
    sample can miss the last [y] by a rounding error, and leave the range
    by as much, as [last_sample_is_rounded] shows.) *)
Theorem named_mode_stays_between_the_end_values (self : CurveInterpolator)
  (new_id : nat) (qs : list R) (mode : string) (k : R) :
  valid self -> supported_descriptor mode k ->
  exists r,
    snd (__call__ new_id qs mode k None "edge" self) = Ok r /\
    length r = length qs /\
    forall i, (i < length qs)%nat ->
      Rmin (first (self_y self)) (final (self_y self)) <= nth i r 0
      <= Rmax (first (self_y self)) (final (self_y self)) /\
      (nth i qs 0 <= first (self_x self) -> nth i r 0 = first (self_y self)) /\
      (final (self_x self) <= nth i qs 0 -> nth i r 0 = final (self_y self)).
Proof.
  intros Hv Hsup. eexists. split; [apply call_named_edge; assumption |].
  split; [apply length_map |]. intros i Hi.
  set (V := fun q => _).
  rewrite (nth_indep _ 0 (V 0)) by (rewrite length_map; exact Hi).
  rewrite map_nth. unfold V. destruct Hsup as [Hm Hk].
  split; [exact (named_edge_value_range self mode k (conj Hm Hk) _) |].
  split; intros Hq.
  - rewrite named_edge_t_low by assumption. rewrite shape_0 by assumption. lra.
  - rewrite named_edge_t_high by assumption. rewrite shape_1 by assumption. lra.
Qed.

Lemma named_mode_stays_between_the_end_values_witness :
  exists r,
    snd (__call__ 0 [0; 1.5; 9] "poly3" 1 None "edge" interp_12) = Ok r /\
    length r = 3%nat /\
    forall i, (i < 3)%nat ->
      Rmin (first [0; 4]) (final [0; 4]) <= nth i r 0
      <= Rmax (first [0; 4]) (final [0; 4]) /\
      (nth i [0; 1.5; 9] 0 <= first [1; 2] -> nth i r 0 = first [0; 4]) /\
      (final [1; 2] <= nth i [0; 1.5; 9] 0 -> nth i r 0 = final [0; 4]).
Proof.
  apply (named_mode_stays_between_the_end_values interp_12 0 [0; 1.5; 9]
           "poly3" 1).
  - exact interp_12_valid.
  - split; [reflexivity | discriminate].
Defined.

(** X16.  In exact arithmetic, a named mode with ["edge"] extrapolation
    is monotone in the query: between any two queries in ascending order
    the returned value moves in the direction from the first [y] to the
    last [y], or not at all.  (Queries right of the last sample get the
    last [y] itself while the last sample gets the rounded sum
    [y0 + (y1 - y0)]: on binary64 numbers the order can fail there by a
    rounding error.) *)
Theorem named_mode_is_monotone (self : CurveInterpolator) (new_id : nat)
  (mode : string) (k : R) (q1 q2 : R) :
  valid self -> supported_descriptor mode k -> q1 <= q2 ->
  exists v1 v2,
    snd (__call__ new_id [q1; q2] mode k None "edge" self) = Ok [v1; v2] /\
    (first (self_y self) <= final (self_y self) -> v1 <= v2) /\
    (final (self_y self) <= first (self_y self) -> v2 <= v1).
Proof.
  intros Hv Hsup Hq. do 2 eexists.
  split; [rewrite call_named_edge by assumption; reflexivity |].
  apply named_edge_value_mono; assumption.
Qed.

Lemma named_mode_is_monotone_witness :
  exists v1 v2,
    snd (__call__ 0 [1.2; 1.7] "logistic" 4 None "edge" interp_12)
    = Ok [v1; v2] /\
    (first [0; 4] <= final [0; 4] -> v1 <= v2) /\
    (final [0; 4] <= first [0; 4] -> v2 <= v1).
Proof.
  apply (named_mode_is_monotone interp_12 0 "logistic" 4 1.2 1.7).
  - exact interp_12_valid.
  - split; [reflexivity | discriminate].
  - lra.
Defined.

(** ** Queries outside the sampled range *)

Lemma outside_mask (x0 x1 : R) (qs : list R) :
  (forall q, In q qs -> q < x0 \/ x1 < q) ->
  existsb (fun b => b) (map (fun q => (x0 <=? q) && (q <=? x1)) qs) = false.
Proof.
  intros H. apply existsb_mask_false. intros q Hq.
  destruct (H q Hq) as [Hlt | Hgt].
  - rewrite Rleb_false by exact Hlt. reflexivity.
  - rewrite (Rleb_false q x1) by exact Hgt. apply andb_false_r.
Qed.

(** X17.  A call whose queries all lie outside the sampled range only
    extrapolates: it returns whatever the mode, the parameter and the
    segment list are, known or not, returns the same for all of them,
    and leaves the caches of the interpolator as they are. *)
Theorem outside_queries_ignore_the_mode (self : CurveInterpolator)
  (qs : list R) (extrapolate : string) :
  valid self ->
  (forall q, In q qs -> q < first (self_x self) \/ final (self_x self) < q) ->
  exists r, forall new_id mode k segments,
    __call__ new_id qs mode k segments extrapolate self = (self, Ok r).
Proof.
  intros Hv Hout. destruct (valid_reads self Hv) as (H0 & H1 & Hle).
  destruct (auto_extrap_pointwise self left extrapolate Hv) as [gl Hl].
  destruct (auto_extrap_pointwise self right extrapolate Hv) as [gr Hr].
  pose proof (outside_mask _ _ qs Hout) as Hmask.
  eexists. intros new_id mode k segments.
  pose proof (call_stages self new_id qs mode k segments extrapolate _ _
                H0 H1 Hle self (fun _ => 0) gl gr) as Hs.
  rewrite Hmask in Hs. specialize (Hs ltac:(discriminate) Hl Hr).
  revert Hs. unfold __call__, bindM, get, lift, ret.
  rewrite H0, H1, Hmask, !Hl, !Hr.
  destruct (existsb (fun b => b) (map (fun q => q <? first (self_x self)) qs));
    destruct (existsb (fun b => b) (map (fun q => final (self_x self) <? q) qs));
    cbn [snd]; intros Hs; rewrite Hs; reflexivity.
Qed.

Lemma outside_queries_ignore_the_mode_witness :
  exists r, forall new_id mode k segments,
    __call__ new_id [0; 3] mode k segments "linear" interp_12
    = (interp_12, Ok r).
Proof.
  apply (outside_queries_ignore_the_mode interp_12 [0; 3] "linear").
  - exact interp_12_valid.
  - unfold first, final. cbn.
    intros q [<- | [<- | []]]; [left | right]; lra.
Defined.

Lemma single_segment_unknown (self : CurveInterpolator) (qs : list R)
  (mode : string) (k : R) :
  valid self -> known_mode mode = false ->
  _single_segment self qs mode k = Raise ValueError.
Proof.
  intros Hv Hm. pose proof Hv as [(Hlen & Hn & Hs) _].
  unfold _single_segment.
  rewrite (getitem_0 (self_x self) 0), (getitem_m1 (self_x self) 0),
    (getitem_0 (self_y self) 0), (getitem_m1 (self_y self) 0) by lia.
  cbn [bind]. pose proof (first_le_final _ Hs Hn) as Hg.
  unfold first, final in Hg. rewrite Rltb_false by lra.
  now rewrite (curve_ratio_unknown _ mode _ Hm).
Qed.

(** X18.  A mode name that is neither ["auto"] nor one of the eight shape
    kinds is refused with [ValueError] as soon as one query lies inside
    the sampled range, whatever the other queries and the extrapolation
    are. *)
Theorem unknown_mode_is_refused_inside (self : CurveInterpolator)
  (new_id : nat) (qs : list R) (mode : string) (k : R) (extrapolate : string) :
  valid self -> known_mode mode = false -> mode <> "auto" ->
  (exists q, In q qs /\ first (self_x self) <= q <= final (self_x self)) ->
  snd (__call__ new_id qs mode k None extrapolate self) = Raise ValueError.
Proof.
  intros Hv Hm Hauto (q & Hq & Hlo & Hhi).
  destruct (valid_reads self Hv) as (H0 & H1 & Hle).
  apply (call_interior_raises self self new_id qs mode k extrapolate _ _
           ValueError H0 H1); [| exact Hauto |].
  - destruct (existsb _ _) eqn:E; [reflexivity |].
    pose proof (proj1 (existsb_mask_false _ qs) E q Hq) as Hf. cbv beta in Hf.
    rewrite !Rleb_true in Hf by assumption. discriminate.
  - apply single_segment_unknown; assumption.
Qed.

Lemma unknown_mode_is_refused_inside_witness :
  snd (__call__ 0 [0; 1.5] "cubic" 1 None "edge" interp_12) = Raise ValueError.
Proof.
  apply (unknown_mode_is_refused_inside interp_12 0 [0; 1.5] "cubic" 1 "edge").
  - exact interp_12_valid.
  - reflexivity.
  - discriminate.
  - exists 1.5. unfold first, final. cbn. split; [auto | lra].
Defined.

Lemma call_preserves_length_witness :
  exists r,
    snd (__call__ 0 [0; 1.5; 3] "linear" 1 None "edge" interp_12) = Ok r /\
    length r = 3%nat.
Proof.
  assert (Hsup : supported_descriptor "linear" 1)
    by (split; [reflexivity | discriminate]).
  eexists. split.
  - exact (call_named_edge interp_12 "linear" 1 interp_12_valid Hsup 0 [0; 1.5; 3]).
  - apply (call_preserves_length interp_12 0 [0; 1.5; 3] "linear" 1 None "edge").
    exact (call_named_edge interp_12 "linear" 1 interp_12_valid Hsup 0 [0; 1.5; 3]).
Defined.

Lemma interp_3_valid : valid interp_3.
Proof.
  unfold valid, sample_set, interp_3; simpl.
  repeat split; try lia.
  repeat constructor; unfold gap; lra.
Qed.

Lemma interp_3_fresh : fresh interp_3.
Proof. split; reflexivity. Qed.

Lemma interp_3_constructed :
  __init__ (A := insertion_argsort)
    [Finite 0; Finite 10; Finite 20] [Finite 0; Finite 5; Finite 30]
  = Ok interp_3.
Proof.
  unfold __init__, _ensure_sorted_xy, _estimate_slopes. reval.
  unfold interp_3. do 2 f_equal. repeat (apply f_equal2; [lra |]). reflexivity.
Qed.

(** ** The cache of the automatic descriptors *)

Lemma auto_segments_loop_error (self : CurveInterpolator) (range : list nat) :
  forall segs e, auto_segments_loop self range segs = Raise e -> e = IndexError.
Proof.
  induction range as [| i range IH]; intros segs e H; cbn [auto_segments_loop] in H;
    [discriminate |].
  repeat match type of H with
  | context [bind (np.getitem ?a ?j) _] =>
      let E := fresh "E" in
      destruct (np.getitem a j) eqn:E; cbn [bind] in H;
      [| injection H as <-; exact (getitem_error _ _ _ E)]
  end.
  destruct (_choose_best_segment self i _ _ _) as [[m k] | e'] eqn:Ec;
    cbn [bind] in H.
  - apply IH in H. exact H.
  - injection H as <-.
    match type of Ec with
    | _choose_best_segment _ _ ?a ?b ?c = _ =>
        destruct (Nat.lt_ge_cases (i + 1) (length (self_slopes self))) as [Hi | Hi];
        [ destruct (choose_best_candidate self i a b c Hi) as (? & ? & E' & _);
          congruence
        | rewrite (choose_best_index_error self i a b c) in Ec by lia;
          congruence ]
    end.
Qed.

(** X19.  The automatic descriptors are computed once.  After a call of
    [_auto_segments] that returns a list, the list is cached, a further
    call returns the same list and changes nothing, and the samples and
    target slopes are untouched; a call that fails fails with
    [IndexError] and leaves the interpolator as it was. *)
Theorem auto_segments_are_cached (self : CurveInterpolator) (id1 : nat) :
  (forall self1 segs,
     _auto_segments id1 self = (self1, Ok segs) ->
     self_auto_segments_cache self1 = Some segs /\
     (forall id2, _auto_segments id2 self1 = (self1, Ok segs)) /\
     self_x self1 = self_x self /\ self_y self1 = self_y self /\
     self_slopes self1 = self_slopes self /\
     self_seg_cache_id self1 = self_seg_cache_id self) /\
  (forall self1 e,
     _auto_segments id1 self = (self1, Raise e) ->
     self1 = self /\ e = IndexError).
Proof.
  unfold _auto_segments, bindM, get, lift, put, ret.
  destruct (self_auto_segments_cache self) as [cached |] eqn:Ec.
  - split.
    + intros self1 segs H. injection H as <- <-. rewrite Ec.
      repeat split; reflexivity.
    + intros self1 e H. discriminate.
  - destruct (auto_segments_loop self _ []) as [items | e0] eqn:El.
    + split.
      * intros self1 segs H. injection H as <- <-.
        cbn [set_auto_segments_cache self_auto_segments_cache self_x self_y
               self_slopes self_seg_cache_id].
        repeat split; reflexivity.
      * intros self1 e H. discriminate.
    + split.
      * intros self1 segs H. discriminate.
      * intros self1 e H. injection H as <- <-. split; [reflexivity |].
        exact (auto_segments_loop_error _ _ _ _ El).
Qed.

Lemma auto_segments_loop_candidates (self : CurveInterpolator) :
  length (self_x self) = length (self_y self) ->
  length (self_slopes self) = length (self_x self) ->
  forall range segs,
    (forall i, In i range -> (i + 1 < length (self_x self))%nat) ->
    Forall (fun s => exists k, seg_k s = Some k /\
                               In (seg_mode s, k) candidate_pairs) segs ->
    exists items,
      auto_segments_loop self range segs = Ok items /\
      length items = (length segs + length range)%nat /\
      Forall (fun s => exists k, seg_k s = Some k /\
                                 In (seg_mode s, k) candidate_pairs) items.
Proof.
  intros Hlen Hsl range. induction range as [| i range IH]; intros segs Hr Hsegs.
  - exists segs. cbn. repeat split; [lia | exact Hsegs].
  - cbn [auto_segments_loop].
    assert (Hi : (i + 1 < length (self_x self))%nat) by (apply Hr; left; reflexivity).
    rewrite (getitem_nth (self_y self) i 0) by lia. cbn [bind].
    replace (Z.of_nat i + 1)%Z with (Z.of_nat (i + 1)) by lia.
    rewrite (getitem_nth (self_y self) (i + 1) 0) by lia. cbn [bind].
    rewrite (getitem_nth (self_x self) (i + 1) 0) by lia. cbn [bind].
    rewrite (getitem_nth (self_x self) i 0) by lia. cbn [bind].
    destruct (choose_best_candidate self i (nth i (self_y self) 0)
                (nth (i + 1) (self_y self) 0)
                (nth (i + 1) (self_x self) 0 - nth i (self_x self) 0))
      as (m & k & E & Hin); [lia |].
    rewrite E. cbn [bind].
    destruct (IH (segs ++ [{| seg_mode := m; seg_k := Some k |}])%list)
      as (items & Ei & Hl & Hall).
    + intros j Hj. apply Hr. right. exact Hj.
    + apply Forall_app. split; [exact Hsegs |].
      constructor; [| constructor]. exists k. split; [reflexivity | exact Hin].
    + exists items. split; [exact Ei |]. split; [| exact Hall].
      rewrite Hl, length_app. cbn [length]. lia.
Qed.

(** X20.  On an interpolator fresh from the constructor, [_auto_segments]
    returns one descriptor per interval, each a pair of the candidate
    table with its parameter spelled out, and stores the list, with the
    identity it was given, in the cache. *)
Theorem auto_segments_cover_every_interval (self : CurveInterpolator)
  (new_id : nat) :
  valid self -> fresh self ->
  exists items,
    _auto_segments new_id self
    = (set_auto_segments_cache self
         (Some {| seg_id := new_id; seg_items := items |}),
       Ok {| seg_id := new_id; seg_items := items |}) /\
    length items = (length (self_x self) - 1)%nat /\
    Forall (fun s => exists k, seg_k s = Some k /\
                               In (seg_mode s, k) candidate_pairs) items.
Proof.
  intros [(Hl & Hn & Hs) [_ Hslopes]] [Hauto _].
  destruct (auto_segments_loop_candidates self Hl Hslopes
              (seq 0 (length (self_x self) - 1)) [])
    as (items & Ei & Hlen & Hall).
  - intros i Hi. apply in_seq in Hi. lia.
  - constructor.
  - exists items. unfold _auto_segments, bindM, get, lift, put, ret.
    rewrite Hauto, Ei. split; [reflexivity |]. split; [| exact Hall].
    rewrite Hlen, length_seq. reflexivity.
Qed.

Lemma auto_segments_cover_every_interval_witness :
  exists items,
    _auto_segments 7 interp_3
    = (set_auto_segments_cache interp_3
         (Some {| seg_id := 7; seg_items := items |}),
       Ok {| seg_id := 7; seg_items := items |}) /\
    length items = 2%nat /\
    Forall (fun s => exists k, seg_k s = Some k /\
                               In (seg_mode s, k) candidate_pairs) items.
Proof.
  exact (auto_segments_cover_every_interval interp_3 7 interp_3_valid
           interp_3_fresh).
Defined.

(** ** Samples are reproduced *)

(** X21.  In exact arithmetic, a segment list with one supported
    descriptor per interval, whose identity is not the cached one (a
    cache miss, so that the descriptors of the list itself are used),
    reproduces every sample: evaluated at the sample [x] values,
    [_multi_segment] returns the sample [y] values. *)
Theorem segment_list_reproduces_the_samples (self : CurveInterpolator)
  (segs : seglist) :
  valid self -> cache_miss self segs ->
  length (seg_items segs) = (length (self_x self) - 1)%nat ->
  Forall supported_segment (seg_items segs) ->
  snd (_multi_segment (self_x self) segs self) = Ok (self_y self).
Proof. exact (multi_segment_samples self segs). Qed.

Lemma segment_list_reproduces_the_samples_witness :
  snd (_multi_segment [1; 2] linear_segments interp_12) = Ok [0; 4].
Proof.
  apply (segment_list_reproduces_the_samples interp_12 linear_segments).
  - exact interp_12_valid.
  - unfold cache_miss. cbn. discriminate.
  - reflexivity.
  - cbn. constructor; [split; [reflexivity | discriminate] | constructor].
Defined.

(** X22.  In exact arithmetic, on an interpolator fresh from the
    constructor with more than two samples, automatic mode reproduces
    every sample, the interior ones included.  (On binary64 numbers the
    last sample gets the rounded sum [y0 + (y1 - y0)] of its interval,
    which can miss the last [y] by a rounding error; the other samples
    get [y0 + (y1 - y0) * 0].) *)
Theorem automatic_mode_reproduces_the_samples (self : CurveInterpolator)
  (new_id : nat) (k : R) (extrapolate : string) :
  valid self -> fresh self -> (2 < length (self_x self))%nat ->
  snd (__call__ new_id (self_x self) "auto" k None extrapolate self)
  = Ok (self_y self).
Proof. exact (auto_mode_reproduces_samples self new_id k extrapolate). Qed.

Lemma automatic_mode_reproduces_the_samples_witness :
  snd (__call__ 0 [0; 10; 20] "auto" 1 None "edge" interp_3) = Ok [0; 5; 30].
Proof.
  apply (automatic_mode_reproduces_the_samples interp_3 0 1 "edge").
  - exact interp_3_valid.
  - exact interp_3_fresh.
  - simpl; lia.
Defined.

(** ** The cache of the segment list *)

(** X23.  The segment list is cached by identity: when the identity of
    the list passed to [_multi_segment] is the cached one, the list is
    not read again, so two lists of that identity give the same result,
    whatever they hold, and the interpolator is left as it was. *)
Theorem cached_segment_list_is_not_read_again (self : CurveInterpolator)
  (qs : list R) (s1 s2 : seglist) :
  self_seg_cache_id self = Some (seg_id s1) -> seg_id s2 = seg_id s1 ->
  _multi_segment qs s1 self = _multi_segment qs s2 self /\
  fst (_multi_segment qs s1 self) = self.
Proof.
  intros Hid Hsame. unfold _multi_segment, bindM, get, lift, put, ret.
  repeat match goal with
         | |- context [fancy ?a ?i] => destruct (fancy a i)
         end; try (split; reflexivity).
  rewrite Hid, Hsame, Nat.eqb_refl. cbn [negb].
  split; [reflexivity |].
  repeat match goal with
         | |- context [match ?r with Ok _ => _ | Raise _ => _ end] =>
             destruct r
         end; reflexivity.
Qed.

Lemma cached_segment_list_is_not_read_again_witness :
  _multi_segment [1.5] linear_segments interp_12_cached
  = _multi_segment [1.5]
      {| seg_id := 0; seg_items := [{| seg_mode := "exp"; seg_k := Some 2 |}] |}
      interp_12_cached /\
  fst (_multi_segment [1.5] linear_segments interp_12_cached) = interp_12_cached.
Proof.
  apply (cached_segment_list_is_not_read_again interp_12_cached [1.5]
           linear_segments
           {| seg_id := 0;
              seg_items := [{| seg_mode := "exp"; seg_k := Some 2 |}] |});
    reflexivity.
Defined.


(** ** Automatic mode and its caches *)

Lemma auto_extrap_samples (s1 s2 : CurveInterpolator) (l : list R)
  (sd : side) (m : string) :
  self_x s1 = self_x s2 -> self_y s1 = self_y s2 ->
  _auto_extrap s1 l sd m = _auto_extrap s2 l sd m.
Proof.
  intros Hx Hy.
  assert (H : forall m', _manual_extrap s1 l sd m' = _manual_extrap s2 l sd m')
    by (intros m'; unfold _manual_extrap; now rewrite Hx, Hy).
  unfold _auto_extrap, try_methods. now rewrite !H.
Qed.

Section AutoCalls.

Variable self : CurveInterpolator.
Hypothesis Hv : valid self.
Hypothesis Hfresh : fresh self.

(** Automatic mode on two samples touches no cache. *)
Lemma call_auto_two (new_id : nat) (qs : list R) (k : R) (extrapolate : string) :
  self_n self = 2%nat ->
  fst (__call__ new_id qs "auto" k None extrapolate self) = self.
Proof.
  intros E2. destruct (valid_reads self Hv) as (H0 & H1 & Hle).
  pose proof Hv as [(Hlen & Hn & Hs) [Hself_n Hslopes]].
  destruct (auto_extrap_pointwise self left extrapolate Hv) as [gl Hl].
  destruct (auto_extrap_pointwise self right extrapolate Hv) as [gr Hr].
  destruct (choose_best_supported self 0
              (nth 0 (self_y self) 0) (nth 1 (self_y self) 0)
              (nth 1 (self_x self) 0 - nth 0 (self_x self) 0))
    as (m & km & Ec & Hsup); [lia |].
  erewrite (call_stages_full self new_id qs "auto" k None extrapolate _ _
              H0 H1 Hle self _ gl gr); [| | exact Hl | exact Hr].
  - cbn [fst]. now destruct (existsb _ _).
  - intros _. cbn [String.eqb Ascii.eqb Bool.eqb negb].
    rewrite E2. cbn [Nat.eqb]. unfold lift.
    rewrite (getitem_1 (self_x self) 0), (getitem_0 (self_x self) 0),
      (getitem_0 (self_y self) 0), (getitem_1 (self_y self) 0) by lia.
    cbn [bind]. rewrite Ec. cbn [bind].
    now rewrite (single_segment_spec self _ m km Hv (supported_known m km Hsup)).
Qed.

Variable items : list segment.
Hypothesis Hitems :
  auto_segments_loop self (seq 0 (length (self_x self) - 1)) [] = Ok items.
Hypothesis Hcount : length items = (length (self_x self) - 1)%nat.
Hypothesis Hall : Forall supported_segment items.
Hypothesis Hmany : self_n self <> 2%nat.

Let modes := map seg_mode items.
Let ks := map (fun s => match seg_k s with Some k => k | None => 1 end) items.

(** The interpolator after a first automatic call that interpolated. *)
Let used (id : nat) : CurveInterpolator :=
  set_seg_cache
    (set_auto_segments_cache self (Some {| seg_id := id; seg_items := items |}))
    modes ks id.

Lemma auto_known (q : R) :
  known_mode (nth (interval (self_x self) q) modes "") = true.
Proof.
  destruct Hv as [(Hlen & Hn & Hs) _].
  apply supported_known with (k := nth (interval (self_x self) q) ks 0).
  apply supported_nth; [exact Hall |].
  pose proof (interval_bound (self_x self) q Hn). lia.
Qed.

Lemma call_auto_many (new_id : nat) (qs : list R) (k : R)
  (extrapolate : string) (gl gr : R -> R) :
  (forall l, _auto_extrap self l left extrapolate = Ok (map gl l)) ->
  (forall l, _auto_extrap self l right extrapolate = Ok (map gr l)) ->
  __call__ new_id qs "auto" k None extrapolate self
  = ((if existsb (fun b => b)
           (map (fun q => (first (self_x self) <=? q)
                          && (q <=? final (self_x self))) qs)
      then used new_id else self),
     Ok (map (fun q =>
                if q <? first (self_x self) then gl q
                else if final (self_x self) <? q then gr q
                else segment_value (self_x self) (self_y self) modes ks q) qs)).
Proof.
  intros Hl Hr. destruct (valid_reads self Hv) as (H0 & H1 & Hle).
  pose proof Hv as [(Hlen & Hn & Hs) [Hself_n Hslopes]].
  destruct Hfresh as [Hauto Hcache].
  apply (call_stages_full self new_id qs "auto" k None extrapolate _ _
           H0 H1 Hle (used new_id)); [| exact Hl | exact Hr].
  intros _. cbn [String.eqb Ascii.eqb Bool.eqb negb].
  destruct (Nat.eqb_spec (self_n self) 2) as [? | _]; [contradiction |].
  unfold _auto_segments, bindM, get, lift, put, ret. rewrite Hauto, Hitems.
  set (segs := {| seg_id := new_id; seg_items := items |}).
  set (self1 := set_auto_segments_cache self (Some segs)).
  rewrite (multi_segment_spec self1 segs); [reflexivity | | | | |].
  - exact Hlen.
  - exact Hn.
  - unfold cache_miss. cbn. rewrite Hcache. discriminate.
  - cbn. lia.
  - intros q _. apply auto_known.
Qed.

Lemma call_auto_used (id1 new_id : nat) (qs : list R) (k : R)
  (extrapolate : string) (gl gr : R -> R) :
  (forall l, _auto_extrap self l left extrapolate = Ok (map gl l)) ->
  (forall l, _auto_extrap self l right extrapolate = Ok (map gr l)) ->
  __call__ new_id qs "auto" k None extrapolate (used id1)
  = (used id1,
     Ok (map (fun q =>
                if q <? first (self_x self) then gl q
                else if final (self_x self) <? q then gr q
                else segment_value (self_x self) (self_y self) modes ks q) qs)).
Proof.
  intros Hl Hr. destruct (valid_reads self Hv) as (H0 & H1 & Hle).
  pose proof Hv as [(Hlen & Hn & Hs) [Hself_n Hslopes]].
  rewrite (call_stages_full (used id1) new_id qs "auto" k None extrapolate
             (first (self_x self)) (final (self_x self)) H0 H1 Hle (used id1)
             (segment_value (self_x self) (self_y self) modes ks) gl gr).
  - now destruct (existsb _ _).
  - intros _. cbn [String.eqb Ascii.eqb Bool.eqb negb].
    change (self_n (used id1)) with (self_n self).
    destruct (Nat.eqb_spec (self_n self) 2) as [? | _]; [contradiction |].
    unfold _auto_segments, bindM, get, lift, put, ret.
    cbn [used set_seg_cache set_auto_segments_cache self_auto_segments_cache].
    apply (multi_segment_hit_spec (used id1)
             {| seg_id := id1; seg_items := items |} _ modes ks);
      try reflexivity; try assumption.
    + cbn. unfold modes. rewrite length_map. lia.
    + cbn. unfold ks. rewrite length_map. lia.
    + intros q _. apply auto_known.
  - intros l. rewrite <- Hl. now apply auto_extrap_samples.
  - intros l. rewrite <- Hr. now apply auto_extrap_samples.
Qed.

End AutoCalls.

(** X24.  The caches of automatic mode do not show in the values: on an
    interpolator fresh from the constructor, an automatic call made
    after another automatic call returns what it would have returned
    as the first call. *)
Theorem automatic_caches_are_transparent (self : CurveInterpolator)
  (id1 id2 : nat) (qs1 qs2 : list R) (k1 k2 : R) (ex1 ex2 : string) :
  valid self -> fresh self ->
  snd (__call__ id2 qs2 "auto" k2 None ex2
         (fst (__call__ id1 qs1 "auto" k1 None ex1 self)))
  = snd (__call__ id2 qs2 "auto" k2 None ex2 self).
Proof.
  intros Hv Hfresh.
  destruct (Nat.eq_dec (self_n self) 2) as [E2 | E2].
  - now rewrite (call_auto_two self Hv id1 qs1 k1 ex1 E2).
  - destruct (auto_items self Hv) as (items & Ei & Hli & Hall).
    destruct (auto_extrap_pointwise self left ex1 Hv) as [gl1 Hl1].
    destruct (auto_extrap_pointwise self right ex1 Hv) as [gr1 Hr1].
    destruct (auto_extrap_pointwise self left ex2 Hv) as [gl2 Hl2].
    destruct (auto_extrap_pointwise self right ex2 Hv) as [gr2 Hr2].
    rewrite (call_auto_many self Hv Hfresh items Ei Hli Hall E2 id1 qs1 k1 ex1
               gl1 gr1 Hl1 Hr1).
    cbn [fst]. destruct (existsb _ _); [| reflexivity].
    rewrite (call_auto_used self Hv items Hli Hall E2 id1 id2 qs2 k2 ex2
               gl2 gr2 Hl2 Hr2).
    rewrite (call_auto_many self Hv Hfresh items Ei Hli Hall E2 id2 qs2 k2 ex2
               gl2 gr2 Hl2 Hr2).
    reflexivity.
Qed.

Lemma automatic_caches_are_transparent_witness :
  snd (__call__ 1 [5; 15] "auto" 1 None "edge"
         (fst (__call__ 0 [0; 12] "auto" 1 None "edge" interp_3)))
  = snd (__call__ 1 [5; 15] "auto" 1 None "edge" interp_3).
Proof.
  exact (automatic_caches_are_transparent interp_3 0 1 [0; 12] [5; 15] 1 1
           "edge" "edge" interp_3_valid interp_3_fresh).
Defined.

(** ** The values of a segment *)

Lemma segment_value_range (x y : list R) (modes : list string) (ks : list R)
  (q : R) :
  supported_descriptor (nth (interval x q) modes "") (nth (interval x q) ks 0) ->
  Rmin (nth (interval x q) y 0) (nth (interval x q + 1) y 0)
  <= segment_value x y modes ks q
  <= Rmax (nth (interval x q) y 0) (nth (interval x q + 1) y 0).
Proof.
  intros [Hm Hk]. unfold segment_value.
  pose proof (shape_range _ _ _ Hm Hk (clip_range
                ((q - nth (interval x q) x 0)
                 / floored (nth (interval x q + 1) x 0 - nth (interval x q) x 0))))
    as [Hs0 Hs1].
  unfold Rmin, Rmax.
  destruct (Rle_dec (nth (interval x q) y 0) (nth (interval x q + 1) y 0)); nra.
Qed.

(** X25.  In exact arithmetic, multi-segment evaluation does not
    overshoot: with one supported descriptor per interval, in a list
    whose identity is not the cached one (a cache miss, so that the
    descriptors of the list itself are used), the value returned for a
    query lies between the [y] values of the two samples that bound the
    interval of the query.  (On binary64 numbers the rounding of
    [y0 + (y1 - y0) * r] can carry a value past the bound by a rounding
    error.) *)
Theorem segments_stay_between_their_samples (self : CurveInterpolator)
  (segs : seglist) (qs : list R) :
  valid self -> cache_miss self segs ->
  length (seg_items segs) = (length (self_x self) - 1)%nat ->
  Forall supported_segment (seg_items segs) ->
  exists r,
    snd (_multi_segment qs segs self) = Ok r /\ length r = length qs /\
    forall j, (j < length qs)%nat ->
      let i := interval (self_x self) (nth j qs 0) in
      Rmin (nth i (self_y self) 0) (nth (i + 1) (self_y self) 0)
      <= nth j r 0
      <= Rmax (nth i (self_y self) 0) (nth (i + 1) (self_y self) 0).
Proof.
  intros Hv Hmiss Hlen Hall. pose proof Hv as [(Hl & Hn & Hs) _].
  assert (Hsup : forall q,
            supported_descriptor (nth (interval (self_x self) q) (seg_modes segs) "")
              (nth (interval (self_x self) q) (seg_ks segs) 0)).
  { intros q. apply supported_nth; [exact Hall |].
    pose proof (interval_bound (self_x self) q Hn). lia. }
  eexists. split.
  - rewrite multi_segment_spec; try assumption; try lia; [reflexivity |].
    intros q _. exact (supported_known _ _ (Hsup q)).
  - split; [apply length_map |]. intros j Hj. cbv zeta.
    set (V := segment_value _ _ _ _).
    rewrite (nth_indep (map V qs) 0 (V 0)) by (rewrite length_map; exact Hj).
    rewrite (map_nth V qs 0 j). apply segment_value_range, Hsup.
Qed.

Lemma segments_stay_between_their_samples_witness :
  exists r,
    snd (_multi_segment [1.25; 1.75] linear_segments interp_12) = Ok r /\
    length r = 2%nat /\
    forall j, (j < 2)%nat ->
      let i := interval [1; 2] (nth j [1.25; 1.75] 0) in
      Rmin (nth i [0; 4] 0) (nth (i + 1) [0; 4] 0)
      <= nth j r 0
      <= Rmax (nth i [0; 4] 0) (nth (i + 1) [0; 4] 0).
Proof.
  apply (segments_stay_between_their_samples interp_12 linear_segments
           [1.25; 1.75]).
  - exact interp_12_valid.
  - unfold cache_miss. cbn. discriminate.
  - reflexivity.
  - cbn. constructor; [split; [reflexivity | discriminate] | constructor].
Defined.

(** ** Construction from clean data *)

Lemma init_clean {A : Argsort} (x y : list float64) :
  length x = length y -> (2 <= length x)%nat ->
  forallb isfinite x = true -> forallb isfinite y = true ->
  Sorted gap (map to_R x) ->
  exists self,
    __init__ x y = Ok self /\
    self_x self = map to_R x /\ self_y self = map to_R y /\
    valid self /\ fresh self.
Proof.
  intros Hl Hn Hx Hy Hs. unfold __init__.
  rewrite (ensure_sorted_clean x y Hl Hx Hy Hs). cbn [bind].
  rewrite length_map.
  destruct (Nat.ltb_spec (length x) 2) as [? | _]; [lia |].
  destruct (estimate_slopes_ok (map to_R x) (map to_R y)) as (s & Es & Hls).
  { now rewrite !length_map. }
  { now rewrite length_map. }
  rewrite Es. cbn [bind]. eexists. split; [reflexivity |].
  split; [reflexivity |]. split; [reflexivity |]. split; [| split; reflexivity].
  unfold valid, sample_set. cbn [self_x self_y self_n self_slopes].
  rewrite !length_map in *. repeat split; assumption.
Qed.

(** ** The shorthand form of [interp_curve] *)

Lemma linspace_unit (n : Z) :
  (2 <= n)%Z ->
  np.linspace 0 1 n
  = Ok (map (fun i => INR i / IZR (n - 1)) (seq 0 (Z.to_nat n))).
Proof.
  intros Hn. unfold np.linspace.
  destruct (Z.ltb_spec n 0) as [? | _]; [lia |].
  destruct (Z.eqb_spec n 1) as [? | _]; [lia |].
  f_equal. apply map_ext. intros i. unfold Rdiv. lra.
Qed.

Lemma unit_fraction (n : Z) (i : nat) :
  (2 <= n)%Z -> In i (seq 0 (Z.to_nat n)) -> 0 <= INR i / IZR (n - 1) <= 1.
Proof.
  intros Hn Hi. apply in_seq in Hi.
  assert (Hd : 0 < IZR (n - 1)) by (apply IZR_lt; lia).
  assert (Hi0 : 0 <= INR i) by apply pos_INR.
  assert (Hi1 : INR i <= IZR (n - 1)).
  { rewrite INR_IZR_INZ. apply IZR_le. lia. }
  split.
  - apply Rmult_le_pos; [exact Hi0 |]. left. now apply Rinv_0_lt_compat.
  - apply (Rmult_le_reg_r (IZR (n - 1))); [exact Hd |].
    replace (INR i / IZR (n - 1) * IZR (n - 1)) with (INR i) by (field; lra).
    lra.
Qed.

Lemma shorthand_samples {A : Argsort} (s e : R) :
  exists self,
    __init__ [Finite 0; Finite 1] [Finite s; Finite e] = Ok self /\
    self_x self = [0; 1] /\ self_y self = [s; e] /\ valid self /\ fresh self.
Proof.
  apply (init_clean [Finite 0; Finite 1] [Finite s; Finite e]);
    try reflexivity; try (simpl; lia).
  cbn [map to_R]. repeat constructor. unfold gap. lra.
Qed.

Lemma shorthand_linear {A : Argsort} (x y : option (list float64))
  (new_x : option (list R)) (s e : R) (n : Z) (k : R) (extrapolate : string)
  (new_id : nat) :
  (2 <= n)%Z ->
  interp_curve x y new_x (Some (Finite s)) (Some (Finite e)) (Some n)
    "linear" k None extrapolate new_id
  = Ok (map (fun i => s + (e - s) * (INR i / IZR (n - 1)))
          (seq 0 (Z.to_nat n))).
Proof.
  intros Hn. unfold interp_curve. rewrite (linspace_unit n Hn). cbn [bind].
  destruct (shorthand_samples s e) as (self & Ei & Hx & Hy & Hv & _).
  rewrite Ei. cbn [bind].
  destruct (auto_extrap_pointwise self left extrapolate Hv) as [gl Hl].
  destruct (auto_extrap_pointwise self right extrapolate Hv) as [gr Hr].
  rewrite (call_named self new_id _ "linear" k extrapolate gl gr Hv eq_refl Hl Hr).
  f_equal. rewrite map_map. apply map_ext_in. intros i Hi.
  destruct (unit_fraction n i Hn Hi) as [H0 H1].
  assert (Hd : 0 < IZR (n - 1)) by (apply IZR_lt; lia).
  rewrite Hx, Hy. unfold first, final. cbn [nth length Nat.sub].
  rewrite Rltb_false, Rltb_false by lra.
  cbn [shape String.eqb Ascii.eqb Bool.eqb].
  replace ((INR i / IZR (n - 1) - 0) / (1 - 0)) with (INR i / IZR (n - 1))
    by (field; lra).
  unfold np.clip. rewrite Rmax_left, Rmin_left by lra. reflexivity.
Qed.

(** X26.  The shorthand form in ["linear"] mode is an arithmetic
    progression: for [num >= 2] and finite [start] and [end], the call
    returns the [num] equally spaced values from [start] to [end],
    whatever [x], [y], [new_x], [k] and [extrapolate] are. *)
Theorem shorthand_linear_is_an_arithmetic_progression {A : Argsort}
  (x y : option (list float64)) (new_x : option (list R)) (s e : R) (n : Z)
  (k : R) (extrapolate : string) (new_id : nat) :
  (2 <= n)%Z ->
  interp_curve x y new_x (Some (Finite s)) (Some (Finite e)) (Some n)
    "linear" k None extrapolate new_id
  = Ok (map (fun i => s + (e - s) * (INR i / IZR (n - 1)))
          (seq 0 (Z.to_nat n))).
Proof. exact (shorthand_linear x y new_x s e n k extrapolate new_id). Qed.

Lemma shorthand_linear_is_an_arithmetic_progression_witness :
  interp_curve (A := insertion_argsort) None None None
    (Some (Finite 100)) (Some (Finite 40)) (Some 5%Z) "linear" 1 None "edge" 0
  = Ok (map (fun i => 100 + (40 - 100) * (INR i / IZR (5 - 1)))
          (seq 0 (Z.to_nat 5))).
Proof.
  apply (shorthand_linear_is_an_arithmetic_progression (A := insertion_argsort)
           None None None 100 40 5 1 "edge" 0).
  lia.
Defined.


(** ** Evaluation after construction *)

(** X28.  Once the constructor has accepted the samples, evaluation does
    not fail: in automatic mode and in every named mode, for every query
    array and every extrapolation name, [interp_curve] returns one value
    per query. *)
Theorem evaluation_never_fails_after_construction {A : Argsort}
  (x y : list float64) (self : CurveInterpolator) (qs : list R)
  (mode : string) (k : R) (extrapolate : string) (new_id : nat) :
  argsort_spec A -> __init__ x y = Ok self ->
  mode = "auto" \/ known_mode mode = true ->
  exists r,
    interp_curve (Some x) (Some y) (Some qs) None None None mode k None
      extrapolate new_id = Ok r /\
    length r = length qs.
Proof.
  intros HA Hinit Hmode.
  destruct (init_valid HA x y self Hinit) as [Hv Hfresh].
  destruct (call_elementwise self mode k extrapolate Hv Hfresh Hmode) as [f Hf].
  exists (map f qs). unfold interp_curve. cbn [bind]. rewrite Hinit. cbn [bind].
  split; [apply Hf | apply length_map].
Qed.

Lemma evaluation_never_fails_after_construction_witness :
  exists r,
    interp_curve (A := insertion_argsort)
      (Some [Finite 0; Finite 10; Finite 20])
      (Some [Finite 0; Finite 5; Finite 30]) (Some [-5; 3; 12; 40])
      None None None "auto" 1 None "power" 0 = Ok r /\
    length r = 4%nat.
Proof.
  apply (evaluation_never_fails_after_construction (A := insertion_argsort)
           [Finite 0; Finite 10; Finite 20] [Finite 0; Finite 5; Finite 30]
           interp_3 [-5; 3; 12; 40] "auto" 1 "power" 0).
  - exact insertion_argsort_ok.
  - exact interp_3_constructed.
  - left. reflexivity.
Defined.

(** ** The order of the samples *)

Lemma sorted_head_least (l : list (R * R)) (p q : R * R) :
  StronglySorted Rle (map fst (p :: l)) -> In q (p :: l) -> fst p <= fst q.
Proof.
  intros Hs [<- | Hq]; [lra |].
  cbn [map] in Hs. apply StronglySorted_inv in Hs. destruct Hs as [_ Hall].
  rewrite Forall_forall in Hall. apply Hall, in_map, Hq.
Qed.

(** Two arrangements of the same samples, sorted by distinct [x], are the
    same list. *)
Lemma sorted_arrangement_unique (l1 : list (R * R)) :
  forall l2,
    StronglySorted Rle (map fst l1) -> StronglySorted Rle (map fst l2) ->
    NoDup (map fst l1) -> Permutation l1 l2 -> l1 = l2.
Proof.
  induction l1 as [| p l1 IH]; intros l2 H1 H2 Hnd Hp.
  - apply Permutation_nil in Hp. now subst.
  - destruct l2 as [| q l2]; [apply Permutation_sym, Permutation_nil in Hp; discriminate |].
    assert (Hq : In q (p :: l1))
      by (apply (Permutation_in q (Permutation_sym Hp)); now left).
    assert (Hpin : In p (q :: l2))
      by (apply (Permutation_in p Hp); now left).
    pose proof (sorted_head_least l1 p q H1 Hq) as Hle1.
    pose proof (sorted_head_least l2 q p H2 Hpin) as Hle2.
    assert (Epq : q = p).
    { destruct Hq as [E | Hq]; [now symmetry |].
      cbn [map] in Hnd. apply NoDup_cons_iff in Hnd. destruct Hnd as [Hnotin _].
      exfalso. apply Hnotin. replace (fst p) with (fst q) by lra.
      apply in_map, Hq. }
    subst q. f_equal. apply IH.
    + cbn [map] in H1. now apply StronglySorted_inv in H1.
    + cbn [map] in H2. now apply StronglySorted_inv in H2.
    + cbn [map] in Hnd. now apply NoDup_cons_iff in Hnd.
    + now apply Permutation_cons_inv in Hp.
Qed.

Lemma combine_to_R (x y : list float64) :
  combine (map to_R x) (map to_R y)
  = map (fun p => (to_R (fst p), to_R (snd p))) (combine x y).
Proof.
  revert y. induction x as [| a x IH]; intros [| b y]; try reflexivity.
  cbn [map combine fst snd]. now rewrite IH.
Qed.

Lemma ensure_sorted_order {A : Argsort} (x y x' y' : list float64) :
  argsort_spec A ->
  length x = length y -> length x' = length y' ->
  forallb isfinite x = true -> forallb isfinite y = true ->
  NoDup (map to_R x) ->
  Permutation (combine x y) (combine x' y') ->
  _ensure_sorted_xy x y = _ensure_sorted_xy x' y'.
Proof.
  intros HA Hl Hl' Hx Hy Hnd Hp.
  assert (Hx' : forallb isfinite x' = true).
  { apply forallb_forall. intros a Ha.
    assert (Hin : In a (map fst (combine x' y')))
      by (rewrite map_fst_combine by exact Hl'; exact Ha).
    apply (Permutation_in a (Permutation_map fst (Permutation_sym Hp))) in Hin.
    rewrite map_fst_combine in Hin by exact Hl.
    exact (proj1 (forallb_forall isfinite x) Hx a Hin). }
  assert (Hy' : forallb isfinite y' = true).
  { apply forallb_forall. intros a Ha.
    assert (Hin : In a (map snd (combine x' y')))
      by (rewrite map_snd_combine by exact Hl'; exact Ha).
    apply (Permutation_in a (Permutation_map snd (Permutation_sym Hp))) in Hin.
    rewrite map_snd_combine in Hin by exact Hl.
    exact (proj1 (forallb_forall isfinite y) Hy a Hin). }
  destruct (ensure_sorted_spec HA x y Hl Hx Hy) as (s1 & P1 & S1 & _ & E1).
  destruct (ensure_sorted_spec HA x' y' Hl' Hx' Hy') as (s2 & P2 & S2 & _ & E2).
  assert (Hperm : Permutation s1 s2).
  { rewrite P1, P2, !combine_to_R. apply Permutation_map, Hp. }
  assert (Hnd1 : NoDup (map fst s1)).
  { apply (Permutation_NoDup (l := map to_R x)); [| exact Hnd].
    apply Permutation_sym.
    rewrite <- (map_fst_combine (map to_R x) (map to_R y))
      by (now rewrite !length_map).
    apply Permutation_map, P1. }
  rewrite E1, E2, (sorted_arrangement_unique s1 s2 S1 S2 Hnd1 Hperm).
  reflexivity.
Qed.

(** X29.  The order in which the samples are given does not matter: two
    arrangements of the same finite [(x, y)] pairs, with pairwise
    different [x], give the same cleaned series, the same interpolator
    and the same values of [interp_curve]. *)
Theorem sample_order_does_not_matter {A : Argsort}
  (x y x' y' : list float64) :
  argsort_spec A ->
  length x = length y -> length x' = length y' ->
  forallb isfinite x = true -> forallb isfinite y = true ->
  NoDup (map to_R x) ->
  Permutation (combine x y) (combine x' y') ->
  _ensure_sorted_xy x y = _ensure_sorted_xy x' y' /\
  __init__ x y = __init__ x' y' /\
  forall new_x mode k segments extrapolate new_id,
    interp_curve (Some x) (Some y) new_x None None None mode k segments
      extrapolate new_id
    = interp_curve (Some x') (Some y') new_x None None None mode k segments
        extrapolate new_id.
Proof.
  intros HA Hl Hl' Hx Hy Hnd Hp.
  pose proof (ensure_sorted_order x y x' y' HA Hl Hl' Hx Hy Hnd Hp) as E.
  assert (Ei : __init__ x y = __init__ x' y')
    by (unfold __init__; now rewrite E).
  split; [exact E |]. split; [exact Ei |].
  intros new_x mode k segments extrapolate new_id.
  unfold interp_curve. cbn [bind]. destruct new_x; [| reflexivity].
  now rewrite Ei.
Qed.

Lemma sample_order_does_not_matter_witness :
  _ensure_sorted_xy (A := insertion_argsort)
    [Finite 3; Finite 1; Finite 2] [Finite 30; Finite 10; Finite 20]
  = _ensure_sorted_xy (A := insertion_argsort)
      [Finite 2; Finite 3; Finite 1] [Finite 20; Finite 30; Finite 10].
Proof.
  apply (sample_order_does_not_matter (A := insertion_argsort)
           [Finite 3; Finite 1; Finite 2] [Finite 30; Finite 10; Finite 20]
           [Finite 2; Finite 3; Finite 1] [Finite 20; Finite 30; Finite 10]);
    try reflexivity.
  - exact insertion_argsort_ok.
  - cbn [map to_R]. repeat constructor; cbn [In]; intros H;
      repeat (destruct H as [H | H]; [lra |]); exact H.
  - cbn [combine].
    apply Permutation_sym.
    apply (perm_trans (l' := [(Finite 3, Finite 30); (Finite 2, Finite 20);
                              (Finite 1, Finite 10)])).
    + apply perm_swap.
    + apply perm_skip. apply perm_swap.
Defined.

(** ** Batches *)

Lemma dict_set_new {V : Type} (d : dict V) (key : string) (v : V) :
  ~ In key (map fst d) -> dict_set d key v = (d ++ [(key, v)])%list.
Proof.
  induction d as [| [k0 v0] d IH]; intros Hn; [reflexivity |].
  cbn [dict_set]. destruct (String.eqb_spec k0 key) as [-> | _].
  - exfalso. apply Hn. now left.
  - cbn [app]. f_equal. apply IH. intros Hin. apply Hn. now right.
Qed.

Section BatchLoop.

Context {A : Argsort}.
Variables (common_x : option (list float64)) (common_new_x : option (list R)).
Variables (start end_ : option float64) (num : option Z).
Variables (mode : string) (k : R) (segments : option seglist).
Variables (extrapolate : string) (new_id : nat).

Let batch (data : dict config) : result (dict (list R)) :=
  batch_interp_curve data common_x common_new_x start end_ num mode k segments
    extrapolate new_id.

Let loop (data : dict config) (results : dict (list R)) :=
  batch_loop data results common_x common_new_x start end_ num mode k segments
    extrapolate new_id.

Lemma batch_loop_acc (data : dict config) :
  forall acc,
    NoDup (map fst acc ++ map fst data) ->
    loop data acc = (r <- loop data [] ;; Ok (acc ++ r)%list) /\
    (forall r, loop data [] = Ok r -> map fst r = map fst data).
Proof.
  unfold loop.
  induction data as [| [name cfg] data IH]; intros acc Hnd.
  - cbn. rewrite app_nil_r. split; [reflexivity |].
    intros r H. now injection H as <-.
  - cbn [batch_loop map fst] in *.
    assert (Hname : ~ In name (map fst acc)).
    { intros Hin. apply NoDup_remove_2 in Hnd. apply Hnd.
      apply in_or_app. now left. }
    assert (Hnd1 : NoDup (map fst (acc ++ [(name, @nil R)]) ++ map fst data)).
    { rewrite map_app, <- app_assoc. exact Hnd. }
    assert (Hnd0 : NoDup (map fst [(name, @nil R)] ++ map fst data)).
    { cbn. apply NoDup_app_remove_l in Hnd. exact Hnd. }
    destruct (batch_category cfg _ _ _ _ _ _ _ _ _ _) as [v | e]; cbn [bind];
      [| split; [reflexivity | discriminate]].
    rewrite (dict_set_new acc name v Hname). cbn [dict_set].
    destruct (IH (acc ++ [(name, v)])%list) as [E1 _].
    { rewrite map_app, <- app_assoc. exact Hnd. }
    destruct (IH [(name, v)]) as [E0 K0].
    { cbn. apply NoDup_app_remove_l in Hnd. exact Hnd. }
    rewrite E1, E0.
    destruct (batch_loop data [] _ _ _ _ _ _ _ _ _ _) as [r |]; cbn [bind].
    + split; [now rewrite <- app_assoc |].
      intros r' H. injection H as <-. cbn [map fst app]. f_equal.
      now apply K0.
    + split; [reflexivity | discriminate].
Qed.

Lemma batch_app (d1 d2 : dict config) :
  NoDup (map fst (d1 ++ d2)%list) ->
  batch (d1 ++ d2)%list = (r1 <- batch d1 ;; r2 <- batch d2 ;; Ok (r1 ++ r2)%list).
Proof.
  unfold batch, batch_interp_curve.
  revert d2. induction d1 as [| [name cfg] d1 IH]; intros d2 Hnd.
  - cbn [app batch_loop bind].
    destruct (batch_loop d2 [] _ _ _ _ _ _ _ _ _ _); reflexivity.
  - cbn [app map fst] in Hnd. cbn [app batch_loop].
    destruct (batch_category cfg _ _ _ _ _ _ _ _ _ _) as [v | e]; cbn [bind];
      [| reflexivity].
    cbn [dict_set].
    destruct (batch_loop_acc (d1 ++ d2)%list [(name, v)]) as [E1 _];
      [cbn; exact Hnd |].
    destruct (batch_loop_acc d1 [(name, v)]) as [E2 _].
    { cbn. rewrite map_app in Hnd. inversion Hnd as [| ? ? Hnotin Hrest]; subst.
      constructor.
      - intros Hin. apply Hnotin, in_or_app. now left.
      - now apply NoDup_app_remove_r in Hrest. }
    unfold loop in E1, E2. rewrite E1, E2, IH by (now inversion Hnd).
    destruct (batch_loop d1 [] _ _ _ _ _ _ _ _ _ _) as [r1 |]; cbn [bind];
      [| reflexivity].
    destruct (batch_loop d2 [] _ _ _ _ _ _ _ _ _ _) as [r2 |]; cbn [bind];
      reflexivity.
Qed.

Lemma batch_keys (data : dict config) (r : dict (list R)) :
  NoDup (map fst data) -> batch data = Ok r -> map fst r = map fst data.
Proof.
  intros Hnd. unfold batch, batch_interp_curve.
  apply (batch_loop_acc data []). exact Hnd.
Qed.

End BatchLoop.

(** X30.  A batch is its parts, evaluated one after the other.  For
    categories with pairwise different names, the batch over two
    groups of categories returns the results of the first group
    followed by the results of the second; it fails with the first
    failure met, returning no partial result; and a batch that
    returns has exactly the names of its categories, in their
    order. *)
Theorem batch_is_evaluated_category_by_category {A : Argsort}
  (d1 d2 : dict config)
  (common_x : option (list float64)) (common_new_x : option (list R))
  (start end_ : option float64) (num : option Z)
  (mode : string) (k : R) (segments : option seglist) (extrapolate : string)
  (new_id : nat) :
  NoDup (map fst (d1 ++ d2)%list) ->
  batch_interp_curve (d1 ++ d2)%list common_x common_new_x start end_ num mode k
    segments extrapolate new_id
  = (r1 <- batch_interp_curve d1 common_x common_new_x start end_ num mode k
             segments extrapolate new_id ;;
     r2 <- batch_interp_curve d2 common_x common_new_x start end_ num mode k
             segments extrapolate new_id ;;
     Ok (r1 ++ r2)%list) /\
  (forall r,
     batch_interp_curve (d1 ++ d2)%list common_x common_new_x start end_ num
       mode k segments extrapolate new_id = Ok r ->
     map fst r = map fst (d1 ++ d2)%list).
Proof.
  intros Hnd. split.
  - apply batch_app, Hnd.
  - intros r. apply batch_keys, Hnd.
Qed.

Lemma batch_is_evaluated_category_by_category_witness :
  let up := {| cfg_x := Absent; cfg_y := Absent; cfg_new_x := Absent;
               cfg_start := Present (Some (Finite 0));
               cfg_end := Present (Some (Finite 1)); cfg_num := Absent;
               cfg_mode := Some "linear"; cfg_k := None;
               cfg_segments := Absent; cfg_extrapolate := None |} in
  let down := {| cfg_x := Absent; cfg_y := Absent; cfg_new_x := Absent;
                 cfg_start := Present (Some (Finite 1));
                 cfg_end := Present (Some (Finite 0)); cfg_num := Absent;
                 cfg_mode := None; cfg_k := None;
                 cfg_segments := Absent; cfg_extrapolate := None |} in
  batch_interp_curve (A := insertion_argsort) ([("up", up)] ++ [("down", down)])%list
    None None None None (Some 3%Z) "auto" 1 None "edge" 0
  = (r1 <- batch_interp_curve (A := insertion_argsort) [("up", up)]
             None None None None (Some 3%Z) "auto" 1 None "edge" 0 ;;
     r2 <- batch_interp_curve (A := insertion_argsort) [("down", down)]
             None None None None (Some 3%Z) "auto" 1 None "edge" 0 ;;
     Ok (r1 ++ r2)%list).
Proof.
  intros up down.
  apply (batch_is_evaluated_category_by_category (A := insertion_argsort)
           [("up", up)] [("down", down)]).
  cbn [app map fst]. constructor.
  - cbn [In]. intros [H | []]. discriminate.
  - constructor; [intros [] | constructor].
Defined.
